(** * zip_tree: tree construction, aggregates and archive-root selection

    A shallow embedding of [zip_tree.py]: the path-indexed graph built by
    [sizes_to_graph], the memoised aggregate [size_descendants], the
    stack-based walk [dfs] and the selector [yield_zips], followed by the
    properties of the specification that concern them. *)

From Stdlib Require Import ZArith Ascii String.
From Stdlib Require OrderedTypeEx.
From Corelib Require Import SpecFloat.
From stdpp Require Import gmap strings list sorting.

Local Open Scope Z_scope.

(** ** Exceptions and results *)

(** The Python exceptions the modelled code can raise. *)
Inductive exn : Set :=
| KeyError
| NetworkXError
| ZeroDivisionError
| OverflowError
| RecursionError.

Inductive result (A : Type) : Type :=
| Ok (a : A)
| Raise (e : exn).
Arguments Ok {A} a.
Arguments Raise {A} e.

#[global] Instance result_ret : MRet result := λ A a, Ok a.
#[global] Instance result_bind : MBind result := λ A B k m,
  match m with
  | Ok a => k a
  | Raise e => Raise e
  end.

#[global] Instance exn_eq_dec : EqDecision exn.
Proof. solve_decision. Defined.

(** ** Paths

    [pathlib.PurePosixPath]: a root ([""] for a relative path, ["/"] or
    ["//"] for an absolute one) and the components after it.  [Path(".")]
    is the relative path without components. *)

Record Path : Set := mkPath { root : string; tail : list string }.

#[global] Instance Path_eq_dec : EqDecision Path.
Proof. solve_decision. Defined.

#[global] Instance Path_countable : Countable Path.
Proof.
  refine (inj_countable' (λ p, (root p, tail p)) (λ x, mkPath x.1 x.2) _).
  by intros [].
Defined.

Definition ROOT : Path := mkPath "" [].

(** [path.parents]: the element of index [idx] keeps the first
    [len - idx - 1] components; there are [len] of them. *)
Definition parents (p : Path) : list Path :=
  (λ idx : nat, mkPath (root p) (take (length (tail p) - idx - 1)%nat (tail p)))
    <$> seq 0 (length (tail p)).

(** [path.parent] *)
Definition parent (p : Path) : Path :=
  mkPath (root p) (take (length (tail p) - 1)%nat (tail p)).

(** The parts compared by [<] on paths: the root, when there is one,
    counts as the first part. *)
Definition parts (p : Path) : list string :=
  if decide (root p = "") then tail p else root p :: tail p.

(** Python's [<=] on lists of strings: lexicographic, strings by code
    unit. *)
Fixpoint parts_le (l1 l2 : list string) : bool :=
  match l1, l2 with
  | [], _ => true
  | _ :: _, [] => false
  | x :: l1', y :: l2' =>
      match String.compare x y with
      | Lt => true
      | Eq => parts_le l1' l2'
      | Gt => false
      end
  end.

Definition path_le (p q : Path) : Prop := parts_le (parts p) (parts q) = true.
Definition path_lt (p q : Path) : Prop := path_le p q ∧ p ≠ q.

#[global] Instance path_le_dec : RelDecision path_le.
Proof. intros p q. unfold path_le. apply _. Defined.

(** [sorted(xs, reverse=True)] on paths. *)
Definition sorted_reverse (xs : list Path) : list Path :=
  merge_sort (flip path_le) xs.

(** ** The graph

    [networkx.OrderedDiGraph]: a dictionary of node attributes (the keys
    ["size"] and ["descendants"] may be absent), the successors of each
    node in insertion order, and the graph attributes. *)

Record attrs : Set :=
  mkAttrs { attr_size : option Z; attr_descendants : option Z }.

#[global] Instance attrs_eq_dec : EqDecision attrs.
Proof. solve_decision. Defined.

Record graph : Type := mkGraph {
  nodes : gmap Path attrs;
  adj : gmap Path (list Path);
  graph_attrs : gmap string Z
}.

Definition empty_graph : graph := mkGraph ∅ ∅ ∅.

(** [node in g] *)
Definition has_node (g : graph) (n : Path) : bool :=
  bool_decide (is_Some (nodes g !! n)).

(** The successors recorded for a node ([[]] when none was recorded). *)
Definition succs (g : graph) (n : Path) : list Path :=
  default [] (adj g !! n).

(** [g.successors(node)] *)
Definition successors (g : graph) (n : Path) : result (list Path) :=
  if has_node g n then Ok (succs g n) else Raise NetworkXError.

(** [g.add_node(path, size=size, descendants=0)]: a new node gets these
    attributes, an existing one has them updated. *)
Definition add_node (g : graph) (n : Path) (sz : Z) : graph :=
  mkGraph (<[n := mkAttrs (Some sz) (Some 0)]> (nodes g)) (adj g) (graph_attrs g).

(** A node mentioned by an edge is created without attributes when it is
    missing. *)
Definition ensure_node (ns : gmap Path attrs) (n : Path) : gmap Path attrs :=
  match ns !! n with
  | Some _ => ns
  | None => <[n := mkAttrs None None]> ns
  end.

(** [g.add_edge(u, v)] *)
Definition add_edge (g : graph) (u v : Path) : graph :=
  mkGraph (ensure_node (ensure_node (nodes g) u) v)
          (if bool_decide (v ∈ succs g u) then adj g
           else <[u := succs g u ++ [v]]> (adj g))
          (graph_attrs g).

(** ** Building the tree *)

(** The loop over [path.parents] of [sizes_to_graph], with its [break]. *)
Fixpoint link_parents (g : graph) (total_descendants : Z) (child : Path)
    (ps : list Path) : graph * Z :=
  match ps with
  | [] => (g, total_descendants)
  | p :: ps' =>
      let parent_in_g := has_node g p in
      let g := add_edge g p child in
      if parent_in_g then (g, total_descendants)
      else link_parents g (total_descendants + 1) p ps'
  end.

(** One line of the manifest, already split into [Path(path_str)] and
    [int(size_str)]. *)
Definition record : Set := Path * Z.

Definition add_record (st : graph * Z * Z) (r : record) : graph * Z * Z :=
  let '(g, total_size, total_descendants) := st in
  let '(path, sz) := r in
  let g := add_node g path sz in
  let total_size := total_size + sz in
  let total_descendants := total_descendants + 1 in
  let '(g, total_descendants) :=
    link_parents g total_descendants path (parents path) in
  (g, total_size, total_descendants).

Definition build (manifest : list record) : graph * Z * Z :=
  foldl add_record (empty_graph, 0, 0) manifest.

Definition sizes_to_graph (manifest : list record) : graph :=
  let '(g, total_size, total_descendants) := build manifest in
  mkGraph (nodes g) (adj g)
    (<["total_descendants" := total_descendants - 1]>
       (<["total_size" := total_size]> (graph_attrs g))).

(** ** Floating point

    Python floats are IEEE binary64; [spec_float] with precision 53 and
    maximal exponent 1024 gives their values and correctly rounded
    operations. *)

Definition prec : Z := 53.
Definition emax : Z := 1024.

(** Conversion of an integer operand to a float: rounded to nearest even,
    [OverflowError] beyond the range. *)
Definition float_of_int (n : Z) : result spec_float :=
  match binary_normalize prec emax n 0 false with
  | S754_infinity _ => Raise OverflowError
  | f => Ok f
  end.

(** [n / 1024 ** 4] on integers: the correctly rounded quotient. *)
Definition truediv_TiB (n : Z) : result spec_float :=
  match binary_normalize prec emax n (-40) false with
  | S754_infinity _ => Raise OverflowError
  | f => Ok f
  end.

(** [x / y] on floats. *)
Definition float_truediv (x y : spec_float) : result spec_float :=
  match y with
  | S754_zero _ => Raise ZeroDivisionError
  | _ => Ok (SFdiv prec emax x y)
  end.

(** A threshold given as an integer (the default) or as a float (from the
    command line). *)
Inductive number : Set :=
| PyInt (n : Z)
| PyFloat (f : spec_float).

(** [x < n] for a float and an integer, which Python compares exactly. *)
Definition float_lt_int (x : spec_float) (n : Z) : bool :=
  match x with
  | S754_nan => false
  | S754_infinity s => s
  | S754_zero _ => bool_decide (0 < n)
  | S754_finite s m e =>
      let v := if s then Z.neg m else Z.pos m in
      if bool_decide (0 ≤ e) then bool_decide (v * 2 ^ e < n)
      else bool_decide (v < n * 2 ^ (- e))
  end.

Definition float_lt (x : spec_float) (y : number) : bool :=
  match y with
  | PyInt n => float_lt_int x n
  | PyFloat f => SFltb x f
  end.

(** ** Aggregates *)

(** Truth value of an attribute read with [data.get]. *)
Definition truthy (s : option Z) : bool :=
  match s with
  | Some z => bool_decide (z ≠ 0)
  | None => false
  end.

(** [x or 0] for an attribute read with [data.get]. *)
Definition or_zero (x : option Z) : Z :=
  if truthy x then default 0 x else 0.

Definition set_attrs (g : graph) (n : Path) (s d : Z) : graph :=
  mkGraph (<[n := mkAttrs (Some s) (Some d)]> (nodes g)) (adj g) (graph_attrs g).

(** The loop over the children in [size_descendants]; [rec] is the
    recursive call. *)
Fixpoint sum_children (rec : graph → Path → result (graph * (Z * Z)))
    (g : graph) (children : list Path) (s d : Z) : result (graph * (Z * Z)) :=
  match children with
  | [] => Ok (g, (s, d))
  | child :: children =>
      '(g, (c_s, c_d)) ← rec g child;
      sum_children rec g children (s + c_s) (d + (1 + c_d))
  end.

(** [size_descendants(g, node)]; [limit] is the number of nested calls
    the interpreter still allows. *)
Fixpoint size_descendants (limit : nat) (g : graph) (node : Path)
    : result (graph * (Z * Z)) :=
  match limit with
  | O => Raise RecursionError
  | S limit =>
      match nodes g !! node with
      | None => Raise KeyError
      | Some data =>
          let s := attr_size data in
          let d := attr_descendants data in
          if bool_decide (d = None) || negb (truthy s) then
            let s := or_zero s in
            let d := or_zero d in
            children ← successors g node;
            '(g, (s, d)) ← sum_children (size_descendants limit) g children s d;
            Ok (set_attrs g node s d, (s, d))
          else Ok (g, (default 0 s, default 0 d))
      end
  end.

Definition node_size (limit : nat) (g : graph) (node : Path) : result (graph * Z) :=
  '(g, (s, _)) ← size_descendants limit g node; Ok (g, s).

Definition node_descendants (limit : nat) (g : graph) (node : Path)
    : result (graph * Z) :=
  '(g, (_, d)) ← size_descendants limit g node; Ok (g, d).

(** ** The walk *)

(** The two debug messages of [dfs]: ["Yielding %s"] and
    ["Skipping subtree below %s"]. *)
Inductive event : Set :=
| Yielding (n : Path)
| Skipping (n : Path).

#[global] Instance event_eq_dec : EqDecision event.
Proof. solve_decision. Defined.

(** How a loop ended: normally, by an exception, or not within the number
    of iterations the model was given. *)
Inductive status : Set :=
| Finished
| Raised (e : exn)
| Unfinished.

#[global] Instance status_eq_dec : EqDecision status.
Proof. solve_decision. Defined.

Definition callback : Type := graph → Path → result (graph * (bool * bool)).

(** [to_visit.pop()] *)
Definition pop {A} (l : list A) : option (list A * A) :=
  match reverse l with
  | [] => None
  | x :: l' => Some (reverse l', x)
  end.

(** The state of the generator [dfs] together with the state [A] of the
    loop that consumes it. *)
Record walk (A : Type) : Type := mkWalk {
  w_graph : graph;
  w_to_visit : list Path;
  w_acc : A;
  w_log : list event;
  (** Not a variable of the source: the nodes popped so far, in order. *)
  w_visited : list Path
}.
Arguments mkWalk {A} _ _ _ _ _.
Arguments w_graph {A} _.
Arguments w_to_visit {A} _.
Arguments w_acc {A} _.
Arguments w_log {A} _.
Arguments w_visited {A} _.

Section dfs.
Context {A : Type}.
Variable limit : nat.
Variable yield_abort_if : callback.
(** The body of the consuming [for] loop, run at each [yield]. *)
Variable body : graph → Path → A → result A.

(** One iteration of [while to_visit], after the [pop]. *)
Definition dfs_visit (w : walk A) (to_visit : list Path) (node : Path)
    : walk A * option exn :=
  let visited := w_visited w ++ [node] in
  match yield_abort_if (w_graph w) node with
  | Raise e => (mkWalk (w_graph w) to_visit (w_acc w) (w_log w) visited, Some e)
  | Ok (g, (should_yield, should_abort)) =>
      let log := if should_yield then w_log w ++ [Yielding node] else w_log w in
      match (if should_yield then body g node (w_acc w) else Ok (w_acc w)) with
      | Raise e => (mkWalk g to_visit (w_acc w) log visited, Some e)
      | Ok acc =>
          if should_abort then
            let log := log ++ [Skipping node] in
            match node_descendants limit g node with
            | Raise e => (mkWalk g to_visit acc log visited, Some e)
            | Ok (g, _) => (mkWalk g to_visit acc log visited, None)
            end
          else
            match successors g node with
            | Raise e => (mkWalk g to_visit acc log visited, Some e)
            | Ok children =>
                (mkWalk g (to_visit ++ sorted_reverse children) acc log visited,
                 None)
            end
      end
  end.

Fixpoint dfs_loop (steps : nat) (w : walk A) : walk A * status :=
  match pop (w_to_visit w) with
  | None => (w, Finished)
  | Some (to_visit, node) =>
      match steps with
      | O => (w, Unfinished)
      | S steps =>
          match dfs_visit w to_visit node with
          | (w, Some e) => (w, Raised e)
          | (w, None) => dfs_loop steps w
          end
      end
  end.
End dfs.

(** [dfs(g, node, yield_abort_if)] consumed by a loop with body [body]. *)
Definition dfs {A} (limit steps : nat) (g : graph) (node : option Path)
    (yield_abort_if : option callback) (body : graph → Path → A → result A)
    (acc : A) : walk A * status :=
  let node := default ROOT node in
  let yield_abort_if := default (λ g _, Ok (g, (true, false))) yield_abort_if in
  match node_descendants limit g node with
  | Raise e => (mkWalk g [] acc [] [], Raised e)
  | Ok (g, _) =>
      dfs_loop limit yield_abort_if body steps (mkWalk g [node] acc [] [])
  end.

(** ** The selector *)

(** [desc / (size / 1024 ** 4)] *)
Definition density (desc size : Z) : result spec_float :=
  tib ← truediv_TiB size;
  desc ← float_of_int desc;
  float_truediv desc tib.

(** The closure [yield_abort_if] of [yield_zips]; [or] evaluates its
    second operand only when the first is false. *)
Definition yield_abort_if (limit : nat) (max_zip_bytes : Z)
    (max_files_per_TiB : number) : callback := λ graph node,
  '(graph, (size, desc)) ← size_descendants limit graph node;
  let to_yield := bool_decide (size < max_zip_bytes) in
  to_abort ←
    (if to_yield then Ok true
     else q ← density desc size; Ok (float_lt q max_files_per_TiB));
  Ok (graph, (to_yield, to_abort)).

(** The counters of [yield_zips]. *)
Record counters : Set := mkCounters {
  archived_inode_count : Z;
  archive_count : Z;
  archived_size : Z
}.

Definition from_key {A} (x : option A) : result A :=
  match x with
  | Some a => Ok a
  | None => Raise KeyError
  end.

(** The body of the [for] loop of [yield_zips]; the first component
    collects what it yields. *)
Definition zips_body (g : graph) (node : Path) (acc : list Path * counters)
    : result (list Path * counters) :=
  let '(zips, c) := acc in
  let archive_count := archive_count c + 1 in
  d ← from_key (nodes g !! node);
  desc ← from_key (attr_descendants d);
  let archived_inode_count := archived_inode_count c + desc in
  sz ← from_key (attr_size d);
  let archived_size := archived_size c + sz in
  Ok (zips ++ [node], mkCounters archived_inode_count archive_count archived_size).

(** The exceptions of [a / b] on integers: a zero divisor, or a quotient
    that rounds beyond the largest float. *)
Definition int_truediv_check (a b : Z) : result () :=
  if bool_decide (b = 0) then Raise ZeroDivisionError
  else if bool_decide ((2 ^ 1024 - 2 ^ 970) * Z.abs b ≤ Z.abs a)
       then Raise OverflowError
       else Ok ().

(** The statistics logged after the loop. *)
Definition final_per_TiB (g : graph) (c : counters) : result () :=
  total_descendants ← from_key (graph_attrs g !! "total_descendants");
  total_size ← from_key (graph_attrs g !! "total_size");
  int_truediv_check (total_descendants - archived_inode_count c + archive_count c)
    total_size.

(** What a run of [yield_zips] shows: the paths yielded, the messages
    logged by [dfs], the nodes it popped, the graph with its cached
    aggregates, the counters, how the traversal ended and how the generator
    ended.  When the traversal ends by an exception, [zr_graph] is the
    graph as it was before the call that raised: the attributes which that
    call had already written on nodes are not in it, so nothing is stated
    below about the graph after an exception. *)
Record zips_run : Type := mkRun {
  zr_zips : list Path;
  zr_log : list event;
  zr_visited : list Path;
  zr_graph : graph;
  zr_counters : counters;
  zr_traversal : status;
  zr_status : status
}.

Definition yield_zips (limit steps : nat) (g : graph) (max_zip_bytes : Z)
    (max_files_per_TiB : number) : zips_run :=
  let '(w, st) :=
    dfs limit steps g (Some ROOT)
      (Some (yield_abort_if limit max_zip_bytes max_files_per_TiB))
      zips_body ([], mkCounters 0 0 0) in
  let '(zips, c) := w_acc w in
  mkRun zips (w_log w) (w_visited w) (w_graph w) c st
    (match st with
     | Finished =>
         match final_per_TiB (w_graph w) c with
         | Ok _ => Finished
         | Raise e => Raised e
         end
     | _ => st
     end).

(** The defaults of [yield_zips]. *)
Definition DEFAULT_MAX_ZIP_SIZE : Z := 100 * 1024 ^ 3.
Definition DEFAULT_LIMIT_PER_TIB : number := PyInt 100000.

(** ** Notions used in the statements *)

(** Whether the density of a node is computed and found below the
    threshold (an exception in its computation ends the walk instead). *)
Definition low_density (lim : number) (desc size : Z) : bool :=
  match density desc size with
  | Ok q => float_lt q lim
  | Raise _ => false
  end.

(** The messages logged by one iteration, given the log before and after. *)
Definition new_events {A} (w w' : walk A) : list event :=
  drop (length (w_log w)) (w_log w').

(** ** Manifests used in the examples *)

Definition rel (components : list string) : Path := mkPath "" components.

(** The end-to-end example of the specification. *)
Definition example_manifest : list record :=
  [(rel ["a"; "x.txt"], 50); (rel ["a"; "y.txt"], 50);
   (rel ["b"; "z.txt"], 1000000000000)].

(** One file of exactly 100 GiB. *)
Definition big_manifest : list record := [(rel ["big"], 107374182400)].

(** One empty file in a directory. *)
Definition zero_manifest : list record := [(rel ["a"; "x"], 0)].

(** The graph after a call of [size_descendants], when it returns. *)
Definition graph_after (limit : nat) (g : graph) (node : Path) : graph :=
  match size_descendants limit g node with
  | Ok (g', _) => g'
  | Raise _ => g
  end.

(** A walk about to visit ["a"] of the example, with ["b"] left on the
    stack, consumed by a loop that does nothing. *)
Definition example_walk : walk () :=
  mkWalk (sizes_to_graph example_manifest) [rel ["b"]; rel ["a"]] () [] [ROOT].

Definition idle_body (g : graph) (node : Path) (acc : ()) : result () := Ok acc.

(** A walk about to visit the root of the 100 GiB example. *)
Definition big_walk : walk () :=
  mkWalk (sizes_to_graph big_manifest) [ROOT] () [] [].

(** [u] is [v] or one of its ancestors: the subtree of [u] holds [v]. *)
Definition below (u v : Path) : Prop :=
  root u = root v ∧ tail u `prefix_of` tail v.

#[global] Instance below_dec : RelDecision below.
Proof. intros u v. unfold below. apply _. Defined.

(** No path of the list is an ancestor of, or equal to, a path that comes
    before it. *)
Fixpoint no_later_ancestor (ps : list Path) : Prop :=
  match ps with
  | [] => True
  | p :: ps' => Forall (λ q, ¬ below q p) ps' ∧ no_later_ancestor ps'
  end.

(** The sum of the sizes of the records. *)
Definition sum_sizes (manifest : list record) : Z :=
  foldr (λ r acc, r.2 + acc) 0 manifest.

(** The edges lead from a node to its children by name, no edge is
    doubled, both ends of an edge are nodes, and every node other than a
    root is linked to its parent, except possibly [c], a node that is
    still to be linked. *)
Record tree_inv_except (g : graph) (c : option Path) : Prop := {
  inv_edge : ∀ u v, v ∈ succs g u → tail v ≠ [] ∧ u = parent v;
  inv_nodup : ∀ u, NoDup (succs g u);
  inv_ends : ∀ u v, v ∈ succs g u →
    is_Some (nodes g !! u) ∧ is_Some (nodes g !! v);
  inv_linked : ∀ v, is_Some (nodes g !! v) → tail v ≠ [] → Some v ≠ c →
    v ∈ succs g (parent v);
  inv_pending : ∀ v, c = Some v → is_Some (nodes g !! v)
}.

Definition tree_inv (g : graph) : Prop := tree_inv_except g None.

(** A manifest with a directory listed after one of its files. *)
Definition dir_after_file_manifest : list record :=
  [(rel ["a"; "b"], 3); (rel ["a"], 4096)].

(** A manifest with an absolute path. *)
Definition absolute_manifest : list record := [(mkPath "/" ["a"], 1)].

(** The edges of the graph. *)
Definition edge (g : graph) (u v : Path) : Prop := v ∈ succs g u.

(** The node that stands for the root of a path: ["."] for a relative
    path, ["/"] for an absolute one. *)
Definition root_of (p : Path) : Path := mkPath (root p) [].

(** A path without root, as are all the paths below [ROOT]. *)
Definition relative (p : Path) : Prop := root p = "".

(** [p < q] between relative paths. *)
Definition path_before (p q : Path) : Prop :=
  relative p ∧ relative q ∧ path_lt p q.

(** The nodes named by the messages of a log. *)
Definition yielded (log : list event) : list Path :=
  omap (λ e, match e with Yielding n => Some n | Skipping _ => None end) log.

Definition skipped (log : list event) : list Path :=
  omap (λ e, match e with Skipping n => Some n | Yielding _ => None end) log.

Arguments yielded : simpl never.
Arguments skipped : simpl never.

(** No path of the list is in the subtree of another one. *)
Definition incomparable (l : list Path) : Prop :=
  ∀ a b, a ∈ l → b ∈ l → below a b → a = b.

(** [a] occurs before [b] in the list. *)
Definition occurs_before {A} (a b : A) (l : list A) : Prop :=
  ∃ l1 l2 l3, l = l1 ++ a :: l2 ++ b :: l3.

(** What a call of [size_descendants] leaves as it is: the edges, the
    graph attributes and the set of nodes. *)
Definition same_shape (g g' : graph) : Prop :=
  adj g' = adj g ∧ graph_attrs g' = graph_attrs g ∧
  ∀ w, is_Some (nodes g' !! w) ↔ is_Some (nodes g !! w).

(** A callback that leaves the edges as they are. *)
Definition keeps_edges (f : callback) : Prop :=
  ∀ g n g' r, f g n = Ok (g', r) → adj g' = adj g.

(** What holds of a walk over the edges of [g0] at every moment: the
    nodes popped so far are in strictly ascending path order and come
    before the nodes on the stack, the stack is in strictly descending
    order, no node that is on the stack or was skipped lies in the subtree
    of another one, and the nodes named in the log were popped, in that
    order. *)
Record walk_inv {A} (g0 : graph) (w : walk A) : Prop := {
  wi_adj : adj (w_graph w) = adj g0;
  wi_stack_rel : Forall relative (w_to_visit w);
  wi_visited_rel : Forall relative (w_visited w);
  wi_visited : StronglySorted path_before (w_visited w);
  wi_stack : StronglySorted (flip path_before) (w_to_visit w);
  wi_order : ∀ v s, v ∈ w_visited w → s ∈ w_to_visit w → path_before v s;
  wi_incomparable : incomparable (w_to_visit w ++ skipped (w_log w));
  wi_skipped : skipped (w_log w) `sublist_of` w_visited w;
  wi_yielded : yielded (w_log w) `sublist_of` w_visited w
}.

(** The loop [for node in dfs(g, ROOT, yield_abort_if, progress)] of
    [yield_zips]. *)
Definition zips_walk (limit steps : nat) (g : graph) (max_zip_bytes : Z)
    (max_files_per_TiB : number) : walk (list Path * counters) * status :=
  dfs limit steps g (Some ROOT)
    (Some (yield_abort_if limit max_zip_bytes max_files_per_TiB))
    zips_body ([], mkCounters 0 0 0).

(** [n] is a node without children whose own size is [sz]. *)
Definition leaf (g : graph) (n : Path) (sz : Z) : Prop :=
  nodes g !! n = Some (mkAttrs (Some sz) (Some 0)) ∧ succs g n = [].

(** The attributes of the leaves of [g0] are those of [g0]. *)
Definition leaves_kept (g0 g : graph) : Prop :=
  ∀ n sz, leaf g0 n sz → leaf g n sz.

(** Every node has children or the attributes of a record. *)
Definition records_or_parents (g : graph) : Prop :=
  ∀ n a, nodes g !! n = Some a →
    (∃ sz, a = mkAttrs (Some sz) (Some 0)) ∨ succs g n ≠ [].

(** What the walk of the selector has decided so far about the leaves of
    [g0]: a leaf that was popped was yielded exactly when its size is
    below [max]. *)
Definition decided {A} (g0 : graph) (max : Z) (w : walk A) : Prop :=
  leaves_kept g0 (w_graph w) ∧
  ∀ n sz, leaf g0 n sz → n ∈ w_visited w →
    (n ∈ yielded (w_log w) ↔ sz < max).

(** [0.0 < lim], as Python evaluates it. *)
Definition positive_limit (lim : number) : Prop :=
  float_lt (S754_zero false) lim = true.

(** What the walk of the selector has settled so far: every node below
    [ROOT] lies under a node that is on the stack or was skipped, or was
    popped and not skipped; the leaves that were popped were skipped; and
    what was yielded was skipped. *)
Record partition_inv {A} (g0 : graph) (w : walk A) : Prop := {
  pi_kept : leaves_kept g0 (w_graph w);
  pi_covered : ∀ x, rtc (edge g0) ROOT x →
    (∃ s, s ∈ w_to_visit w ++ skipped (w_log w) ∧ rtc (edge g0) s x) ∨
    (x ∈ w_visited w ∧ x ∉ skipped (w_log w));
  pi_leaves : ∀ x sz, leaf g0 x sz → x ∈ w_visited w → x ∈ skipped (w_log w);
  pi_yielded : ∀ x, x ∈ yielded (w_log w) → x ∈ skipped (w_log w)
}.

(** ** Notions about the cached aggregates *)

(** The size cached on a node ([0] when there is none). *)
Definition csize (g : graph) (n : Path) : Z :=
  match nodes g !! n with
  | Some a => default 0 (attr_size a)
  | None => 0
  end.

Definition sum_csize (g : graph) (l : list Path) : Z :=
  foldr (λ c acc, csize g c + acc) 0 l.

(** Both aggregates are cached on the node, and the cached size of a node
    with children is the sum of the cached sizes of its children. *)
Definition stored (g : graph) (n : Path) : Prop :=
  ∃ s d, nodes g !! n = Some (mkAttrs (Some s) (Some d)) ∧
         (succs g n ≠ [] → s = sum_csize g (succs g n)).

Definition settled_below (g : graph) (n : Path) : Prop :=
  ∀ m, below n m → is_Some (nodes g !! m) → stored g m.

(** Attributes that lead to the same decisions: the same size, and the
    same number of descendants when the size is not 0. *)
Definition attrs_sim (a1 a2 : attrs) : Prop :=
  attr_size a1 = attr_size a2 ∧
  (truthy (attr_size a1) = true → attr_descendants a1 = attr_descendants a2) ∧
  (attr_descendants a1 = None ↔ attr_descendants a2 = None).

Definition similar (g1 g2 : graph) : Prop :=
  adj g2 = adj g1 ∧
  ∀ m, match nodes g1 !! m, nodes g2 !! m with
       | Some a1, Some a2 => attrs_sim a1 a2
       | None, None => True
       | _, _ => False
       end.

(** No path of the list is a proper ancestor of another one: the
    manifest lists files only. *)
Definition records_are_leaves (ps : list Path) : Prop :=
  ∀ p q, p ∈ ps → q ∈ ps → below p q → p = q.

(** The nodes of a graph are directories without attributes or files
    without children. *)
Definition files_only (g : graph) : Prop :=
  ∀ m a, nodes g !! m = Some a →
    a = mkAttrs None None ∨
    (∃ sz, a = mkAttrs (Some sz) (Some 0)) ∧ succs g m = [].

(** What the build keeps true of the graph, for the paths [ps] of the
    records: only they have attributes, and every edge leads to one of
    them or to one of its ancestors. *)
Definition built_from (ps : list Path) (g : graph) : Prop :=
  (∀ n a, nodes g !! n = Some a →
     a = mkAttrs None None ∨ (∃ sz, a = mkAttrs (Some sz) (Some 0)) ∧ n ∈ ps) ∧
  (∀ u v, v ∈ succs g u → ∃ p, p ∈ ps ∧ below v p).

(** The attributes of the nodes in the subtree of [n] are those of [g0]. *)
Definition fresh_below (g0 g : graph) (n : Path) : Prop :=
  ∀ m, below n m → nodes g !! m = nodes g0 !! m.

(** ** Files and streams

    What [is_path] and [ensure_file] look at in their argument: whether it
    is [None], a string, or another object, of which only the answers to
    [isinstance(obj, os.PathLike)], [bool(obj)], [obj == "-"],
    [hasattr(obj, "read")] and [hasattr(obj, "write")] matter. *)
Inductive pyobj : Set :=
| PyNone
| PyStr (s : string)
| PyObject (pathlike truthy eq_dash has_read has_write : bool).

(** [not obj] *)
Definition obj_falsy (obj : pyobj) : bool :=
  match obj with
  | PyNone => true
  | PyStr s => bool_decide (s = "")
  | PyObject _ truthy _ _ _ => negb truthy
  end.

(** [obj == "-"] *)
Definition obj_is_dash (obj : pyobj) : bool :=
  match obj with
  | PyNone => false
  | PyStr s => bool_decide (s = "-")
  | PyObject _ _ eq_dash _ _ => eq_dash
  end.

(** [isinstance(obj, (str, os.PathLike))] *)
Definition obj_str_or_pathlike (obj : pyobj) : bool :=
  match obj with
  | PyNone => false
  | PyStr _ => true
  | PyObject pathlike _ _ _ _ => pathlike
  end.

Definition obj_has_read (obj : pyobj) : bool :=
  match obj with
  | PyObject _ _ _ has_read _ => has_read
  | _ => false
  end.

Definition obj_has_write (obj : pyobj) : bool :=
  match obj with
  | PyObject _ _ _ _ has_write => has_write
  | _ => false
  end.

(** [is_path(obj)] *)
Definition is_path (obj : pyobj) : bool :=
  match obj with
  | PyNone => false
  | PyStr s => bool_decide (s ≠ "-")
  | PyObject pathlike _ _ _ _ => pathlike
  end.

(** [c in s] for a character [c]. *)
Fixpoint char_in (c : ascii) (s : string) : bool :=
  match s with
  | EmptyString => false
  | String c' s' => bool_decide (c = c') || char_in c s'
  end.

(** What [ensure_file] yields: a standard stream, the file that
    [open(obj, mode)] is asked for, or the object it was given. *)
Inductive stream : Set :=
| Stdin
| Stdout
| Opened (obj : pyobj) (mode : string)
| Given (obj : pyobj).

(** The [ValueError]s of [ensure_file]. *)
Inductive value_error : Set :=
| BothReadWrite
| UnknownMode (mode : string)
| NotFileLike.

(** [mode or "r"], with its first character apart. *)
Definition mode_or_r (mode : option string) : ascii * string :=
  match mode with
  | Some (String c m) => (c, m)
  | _ => ("r"%char, EmptyString)
  end.

(** [mode[0] in "wa" or "+" in mode] *)
Definition should_write (mode : option string) : bool :=
  let '(c, m) := mode_or_r mode in
  char_in c "wa" || char_in "+"%char (String c m).

(** [mode[0] == "r"] *)
Definition should_read (mode : option string) : bool :=
  let '(c, m) := mode_or_r mode in bool_decide (c = "r"%char).

(** [ensure_file(obj, mode)], up to the [yield]. *)
Definition ensure_file (obj : pyobj) (mode : option string)
    : value_error + stream :=
  let '(c, m) := mode_or_r mode in
  if obj_falsy obj || obj_is_dash obj then
    if should_read mode then
      if should_write mode then inl BothReadWrite else inr Stdin
    else if should_write mode then inr Stdout
    else inl (UnknownMode (String c m))
  else
    if obj_str_or_pathlike obj then inr (Opened obj (String c m))
    else if should_read mode && negb (obj_has_read obj)
            || should_write mode && negb (obj_has_write obj)
         then inl NotFileLike
         else inr (Given obj).

(** ** The totals of a subtree *)

Definition sum_over (f : Path → Z) (l : list Path) : Z :=
  foldr (λ c acc, f c + acc) 0 l.

(** The sum of [wt] over the paths of [l] in the subtree of [n]. *)
Definition sum_below (l : list Path) (wt : Path → Z) (n : Path) : Z :=
  sum_over (λ x, if bool_decide (below n x) then wt x else 0) l.

(** The sum of [wt] over the nodes of [g] in the subtree of [n]. *)
Definition subtree_sum (g : graph) (wt : Path → Z) (n : Path) : Z :=
  sum_below (map_to_list (nodes g)).*1 wt n.

(** The sum of the sizes that the nodes in the subtree of [n] carry. *)
Definition subtree_size (g : graph) (n : Path) : Z :=
  subtree_sum g (csize g) n.

(** The number of nodes in the subtree of [n], [n] included. *)
Definition subtree_nodes (g : graph) (n : Path) : Z :=
  subtree_sum g (λ _, 1) n.

(** The sum of the sizes that the nodes carry. *)
Definition size_sum (ns : gmap Path attrs) : Z :=
  foldr (λ xa acc, default 0 (attr_size xa.2) + acc) 0 (map_to_list ns).


(** * Properties *)

(** ** The decision at one node *)

Lemma bind_Ok {A B} (m : result A) (k : A → result B) b :
  m ≫= k = Ok b → ∃ a, m = Ok a ∧ k a = Ok b.
Proof. destruct m as [a|e]; [eauto | discriminate]. Qed.

Lemma yield_abort_if_Ok limit max lim g node g' s d :
  size_descendants limit g node = Ok (g', (s, d)) →
  yield_abort_if limit max lim g node =
    (if bool_decide (s < max) then Ok (g', (true, true))
     else match density d s with
          | Ok q => Ok (g', (false, float_lt q lim))
          | Raise e => Raise e
          end).
Proof.
  intros Hsd. unfold yield_abort_if. rewrite Hsd. cbn.
  destruct (bool_decide (s < max)); cbn; [done|].
  by destruct (density d s).
Qed.

(** C5: a node of aggregate size 0 is yielded and its subtree skipped
    whenever [max_zip_bytes] is positive, whatever the density threshold:
    the density, whose evaluation would raise, is not evaluated. *)
Theorem zero_size_decision limit max lim g node g' d :
  0 < max →
  size_descendants limit g node = Ok (g', (0, d)) →
  yield_abort_if limit max lim g node = Ok (g', (true, true)) ∧
  (∃ e, density d 0 = Raise e).
Proof.
  intros Hmax Hsd. split.
  - rewrite (yield_abort_if_Ok _ _ _ _ _ _ _ _ Hsd).
    by rewrite bool_decide_eq_true_2.
  - unfold density. cbn. destruct (float_of_int d) as [x|e]; cbn; eauto.
Qed.

Lemma zero_size_decision_witness :
  let g := sizes_to_graph zero_manifest in
  yield_abort_if 10 DEFAULT_MAX_ZIP_SIZE DEFAULT_LIMIT_PER_TIB g ROOT
    = Ok (graph_after 10 g ROOT, (true, true)) ∧
  (∃ e, density 2 0 = Raise e).
Proof.
  apply (zero_size_decision 10 DEFAULT_MAX_ZIP_SIZE DEFAULT_LIMIT_PER_TIB
           (sizes_to_graph zero_manifest) ROOT
           (graph_after 10 (sizes_to_graph zero_manifest) ROOT) 2).
  - reflexivity.
  - vm_compute. reflexivity.
Defined.

Section visit.
Context {A : Type}.
Variables (limit : nat) (max : Z) (lim : number).
Variable body : graph → Path → A → result A.

Lemma dfs_visit_spec (w : walk A) tv node g s d w' :
  size_descendants limit (w_graph w) node = Ok (g, (s, d)) →
  dfs_visit limit (yield_abort_if limit max lim) body w tv node = (w', None) →
  let emitted := bool_decide (s < max) in
  let withheld := emitted || low_density lim d s in
  w_log w' = w_log w ++ (if emitted then [Yielding node] else [])
                     ++ (if withheld then [Skipping node] else []) ∧
  (if emitted then body g node (w_acc w) = Ok (w_acc w')
   else w_acc w' = w_acc w) ∧
  w_to_visit w' =
    (if withheld then tv else tv ++ sorted_reverse (succs g node)) ∧
  w_visited w' = w_visited w ++ [node].
Proof.
  intros Hsd Hv. cbn zeta. unfold dfs_visit in Hv.
  rewrite (yield_abort_if_Ok _ _ _ _ _ _ _ _ Hsd) in Hv.
  unfold low_density.
  destruct (bool_decide (s < max)) eqn:Hlt; cbn in *.
  - destruct (body g node (w_acc w)) as [acc|e]; [|done].
    destruct (node_descendants limit g node) as [[g1 ?]|e]; [|done].
    inversion Hv; subst; cbn. by rewrite <- app_assoc.
  - destruct (density d s) as [q|e]; [|done]. cbn in Hv.
    destruct (float_lt q lim).
    + destruct (node_descendants limit g node) as [[g1 ?]|e]; [|done].
      by inversion Hv; subst; cbn.
    + destruct (successors g node) as [children|e] eqn:Hch; [|done].
      inversion Hv; subst; cbn. rewrite app_nil_r.
      unfold successors in Hch. destruct (has_node g node); [|done].
      by inversion Hch.
Qed.

End visit.


(** C3 (as amended): a visited node whose aggregate size is at least
    [max_zip_bytes] and whose density is strictly below
    [max_files_per_TiB] is not yielded; its subtree is skipped and its
    children are not pushed. *)
Theorem low_density_skipped {A} limit max lim
    (body : graph → Path → A → result A) (w : walk A) tv node g s d :
  size_descendants limit (w_graph w) node = Ok (g, (s, d)) →
  max ≤ s →
  low_density lim d s = true →
  let w' := (dfs_visit limit (yield_abort_if limit max lim) body w tv node).1 in
  w_log w' = w_log w ++ [Skipping node] ∧
  w_acc w' = w_acc w ∧
  w_to_visit w' = tv.
Proof.
  intros Hsd Hmax Hlow. cbn zeta. unfold dfs_visit.
  rewrite (yield_abort_if_Ok _ _ _ _ _ _ _ _ Hsd).
  rewrite bool_decide_eq_false_2 by lia.
  unfold low_density in Hlow. destruct (density d s) as [q|e]; [|done].
  rewrite Hlow. cbn.
  by destruct (node_descendants limit g node) as [[g1 ?]|e].
Qed.

Lemma low_density_skipped_witness :
  let w' := (dfs_visit 10
               (yield_abort_if 10 DEFAULT_MAX_ZIP_SIZE DEFAULT_LIMIT_PER_TIB)
               idle_body big_walk [] ROOT).1 in
  w_log w' = w_log big_walk ++ [Skipping ROOT] ∧
  w_acc w' = w_acc big_walk ∧
  w_to_visit w' = [].
Proof.
  apply (low_density_skipped 10 DEFAULT_MAX_ZIP_SIZE DEFAULT_LIMIT_PER_TIB
           idle_body big_walk [] ROOT
           (graph_after 10 (w_graph big_walk) ROOT) 107374182400 1).
  - vm_compute. reflexivity.
  - vm_compute. discriminate.
  - vm_compute. reflexivity.
Defined.

(** The directory that holds one file of 100 GiB is visited with an
    aggregate size not below the default [max_zip_bytes] and a density
    below the default threshold; it is skipped and nothing is yielded. *)
Lemma low_density_directory_not_emitted :
  let g := sizes_to_graph big_manifest in
  let r := yield_zips 10 10 g DEFAULT_MAX_ZIP_SIZE DEFAULT_LIMIT_PER_TIB in
  succs g ROOT = [rel ["big"]] ∧
  size_descendants 10 g ROOT = Ok (graph_after 10 g ROOT, (107374182400, 1)) ∧
  DEFAULT_MAX_ZIP_SIZE ≤ 107374182400 ∧
  low_density DEFAULT_LIMIT_PER_TIB 1 107374182400 = true ∧
  zr_traversal r = Finished ∧
  zr_visited r = [ROOT] ∧
  zr_log r = [Skipping ROOT] ∧
  zr_zips r = [].
Proof. vm_compute. repeat split; discriminate. Qed.

(** ** The cached aggregates *)

(** C6: on the tree of a manifest with one empty file [a/x], the first
    call on the directory [a] returns the sums over its child, [(0, 1)];
    the second call, which finds that pair cached, returns [(0, 2)]. *)
Theorem size_descendants_cached_zero :
  let g := sizes_to_graph zero_manifest in
  let g1 := graph_after 10 g (rel ["a"]) in
  let g2 := graph_after 10 g1 (rel ["a"]) in
  size_descendants 10 g (rel ["a"]) = Ok (g1, (0, 1)) ∧
  nodes g1 !! rel ["a"] = Some (mkAttrs (Some 0) (Some 1)) ∧
  size_descendants 10 g1 (rel ["a"]) = Ok (g2, (0, 2)).
Proof. vm_compute. done. Qed.

(** ** Paths and their ancestors *)

Lemma parents_nil p : tail p = [] → parents p = [].
Proof. intros H. unfold parents. by rewrite H. Qed.

Lemma parent_length p : length (tail (parent p)) = (length (tail p) - 1)%nat.
Proof. cbn. rewrite length_take. lia. Qed.

Lemma parents_cons p :
  tail p ≠ [] → parents p = parent p :: parents (parent p).
Proof.
  intros Hne. unfold parents at 1.
  destruct (length (tail p)) as [|k] eqn:Hlen.
  { by destruct (tail p). }
  cbn [seq fmap list_fmap]. f_equal.
  - unfold parent. rewrite Hlen. repeat f_equal; lia.
  - rewrite <- fmap_S_seq, <- list_fmap_compose. unfold parents.
    rewrite parent_length, Hlen. replace (S k - 1)%nat with k by lia.
    apply list_fmap_ext. intros i idx Hidx. cbn.
    apply lookup_seq in Hidx as [-> Hlt]. f_equal.
    rewrite take_take. f_equal. lia.
Qed.

Lemma parent_child u v :
  tail v ≠ [] → u = parent v ↔ root u = root v ∧ ∃ x, tail v = tail u ++ [x].
Proof.
  intros Hne. destruct u as [ru tu], v as [rv tv]. cbn in *. unfold parent. cbn.
  destruct (exists_last Hne) as (l & x & ->).
  rewrite length_app. cbn.
  replace (length l + 1 - 1)%nat with (length l) by lia.
  rewrite take_app_length. split.
  - intros [= -> ->]. eauto.
  - intros [-> [y Hy]]. by apply app_inj_tail in Hy as [-> _].
Qed.

Lemma below_refl p : below p p.
Proof. by split. Qed.

Lemma below_trans p q r : below p q → below q r → below p r.
Proof. intros [? ?] [? ?]. split; [congruence | by etrans]. Qed.

Lemma below_parent p : below (parent p) p.
Proof. split; [done|]. cbn. apply prefix_take. Qed.

Lemma below_parents p q : q ∈ parents p → below q p.
Proof.
  unfold parents. intros Hin. apply list_elem_of_fmap in Hin as (idx & -> & _).
  split; [done|]. cbn. apply prefix_take.
Qed.

(** ** The graph operations *)

Lemma ensure_node_lookup ns n w :
  is_Some (ensure_node ns n !! w) ↔ is_Some (ns !! w) ∨ w = n.
Proof.
  unfold ensure_node. destruct (ns !! n) eqn:Hn.
  - split; [by left|]. intros [?| ->]; [done | by rewrite Hn].
  - destruct (decide (w = n)) as [->|Hne].
    + rewrite lookup_insert_eq. split; [by right | by eauto].
    + rewrite lookup_insert_ne by done. split; [by left | by intros [?|?]].
Qed.

Lemma ensure_node_present ns n : is_Some (ns !! n) → ensure_node ns n = ns.
Proof. unfold ensure_node. by intros [a ->]. Qed.

Lemma ensure_node_size ns n :
  ns !! n = None → size (ensure_node ns n) = S (size ns).
Proof. intros H. unfold ensure_node. rewrite H. by apply map_size_insert_None. Qed.

Lemma has_node_true g n : has_node g n = true ↔ is_Some (nodes g !! n).
Proof. unfold has_node. apply bool_decide_eq_true. Qed.

Lemma has_node_false g n : has_node g n = false ↔ nodes g !! n = None.
Proof.
  unfold has_node. rewrite bool_decide_eq_false. symmetry. apply eq_None_not_Some.
Qed.

Lemma add_edge_nodes g u v w :
  is_Some (nodes (add_edge g u v) !! w) ↔ is_Some (nodes g !! w) ∨ w = u ∨ w = v.
Proof. cbn. rewrite !ensure_node_lookup. tauto. Qed.

Lemma add_edge_succs g u v w :
  succs (add_edge g u v) w =
    if decide (w = u)
    then (if bool_decide (v ∈ succs g u) then succs g u else succs g u ++ [v])
    else succs g w.
Proof.
  unfold succs at 1. cbn. destruct (bool_decide (v ∈ succs g u)) eqn:Hin.
  - by destruct (decide (w = u)) as [->|].
  - destruct (decide (w = u)) as [->|Hne].
    + by rewrite lookup_insert_eq.
    + by rewrite lookup_insert_ne.
Qed.

Lemma add_edge_succs_elem g u v w x :
  x ∈ succs (add_edge g u v) w ↔ x ∈ succs g w ∨ (w = u ∧ x = v).
Proof.
  rewrite add_edge_succs. destruct (decide (w = u)) as [->|Hne].
  - case_bool_decide as Hin.
    + split; [by left|]. by intros [?|[_ ->]].
    + rewrite elem_of_app, list_elem_of_singleton. naive_solver.
  - naive_solver.
Qed.

Lemma add_edge_nodup g u v w :
  NoDup (succs g w) → NoDup (succs (add_edge g u v) w).
Proof.
  intros Hnd. rewrite add_edge_succs. destruct (decide (w = u)) as [->|]; [|done].
  case_bool_decide as Hin; [done|].
  apply NoDup_app. split; [done|]. split; [|apply NoDup_singleton].
  intros x Hx Hx'. apply list_elem_of_singleton in Hx' as ->. done.
Qed.

Lemma add_node_nodes g n sz w :
  is_Some (nodes (add_node g n sz) !! w) ↔ is_Some (nodes g !! w) ∨ w = n.
Proof.
  cbn. destruct (decide (w = n)) as [->|Hne].
  - rewrite lookup_insert_eq. split; [by right | by eauto].
  - rewrite lookup_insert_ne by done. split; [by left | by intros [?|?]].
Qed.

(** ** The invariant of the build *)

Lemma tree_inv_empty : tree_inv empty_graph.
Proof.
  split; unfold succs; cbn; try setoid_rewrite lookup_empty; cbn.
  - intros u v Hin. by apply elem_of_nil in Hin.
  - intros. apply NoDup_nil_2.
  - intros u v Hin. by apply elem_of_nil in Hin.
  - intros v [a Ha]. done.
  - done.
Qed.

Lemma tree_inv_add_node g p sz :
  tree_inv g → tree_inv_except (add_node g p sz) (Some p).
Proof.
  intros [He Hn Hends Hl _]. split.
  - exact He.
  - exact Hn.
  - intros u v Hin. rewrite !add_node_nodes.
    destruct (Hends u v Hin). by split; left.
  - intros v Hv Hne Hvp. apply add_node_nodes in Hv as [Hv| ->]; [|done].
    by apply Hl.
  - intros v [= <-]. apply add_node_nodes. by right.
Qed.

Lemma tree_inv_root g c :
  tail c = [] → tree_inv_except g (Some c) → tree_inv g.
Proof.
  intros Hc [He Hn Hends Hl _]. split; try done.
  intros v Hv Hne _. apply Hl; [done..|]. intros [= ->]. done.
Qed.

Lemma parent_ne c : tail c ≠ [] → parent c ≠ c.
Proof.
  intros Hne Heq. apply (f_equal (λ p, length (tail p))) in Heq.
  rewrite parent_length in Heq. destruct (tail c); [done|]. cbn in Heq. lia.
Qed.

Lemma tree_inv_link g c :
  tail c ≠ [] →
  tree_inv_except g (Some c) →
  tree_inv_except (add_edge g (parent c) c)
    (if has_node g (parent c) then None else Some (parent c)).
Proof.
  intros Hne [He Hn Hends Hl Hp]. split.
  - intros u v Hin. apply add_edge_succs_elem in Hin as [Hin|[-> ->]]; [|done].
    by apply He.
  - intros u. by apply add_edge_nodup.
  - intros u v Hin. rewrite !add_edge_nodes.
    apply add_edge_succs_elem in Hin as [Hin|[-> ->]].
    + destruct (Hends u v Hin). by split; left.
    + split; [right; by left | right; by right].
  - intros v Hv Hvne Hvp. apply add_edge_succs_elem.
    destruct (decide (v = c)) as [->|Hvc]; [by right|]. left.
    apply add_edge_nodes in Hv as [Hv|[->| ->]]; [| |done].
    + apply Hl; [done..|]. by intros [= ->].
    + destruct (has_node g (parent c)) eqn:Hh; [|done].
      apply has_node_true in Hh. apply Hl; [done..|].
      intros [= Heq]. by apply parent_ne in Heq.
  - intros v Hv. apply add_edge_nodes.
    destruct (has_node g (parent c)); [done|]. injection Hv as <-. right; by left.
Qed.

Lemma link_parents_inv g td c :
  tree_inv_except g (Some c) →
  tree_inv (link_parents g td c (parents c)).1.
Proof.
  remember (length (tail c)) as k eqn:Hk.
  revert g td c Hk. induction k as [|k IH]; intros g td c Hk Hinv.
  - assert (tail c = []) as Hc by (by destruct (tail c)).
    rewrite parents_nil by done. cbn. by eapply tree_inv_root.
  - assert (tail c ≠ []) as Hc by (by destruct (tail c)).
    rewrite parents_cons by done. cbn [link_parents].
    pose proof (tree_inv_link g c Hc Hinv) as Hstep.
    destruct (has_node g (parent c)); [done|].
    apply IH; [|done]. rewrite parent_length. lia.
Qed.

Lemma add_record_inv st r : tree_inv st.1.1 → tree_inv (add_record st r).1.1.
Proof.
  destruct st as [[g ts] td], r as [p sz]. cbn. intros Hinv.
  pose proof (link_parents_inv (add_node g p sz) (td + 1) p
                (tree_inv_add_node g p sz Hinv)) as H.
  by destruct (link_parents _ _ _ _).
Qed.

Lemma foldl_add_record_inv m st :
  tree_inv st.1.1 → tree_inv (foldl add_record st m).1.1.
Proof.
  revert st. induction m as [|r m IH]; intros st Hinv; [done|].
  cbn. apply IH. by apply add_record_inv.
Qed.

Lemma build_inv m : tree_inv (build m).1.1.
Proof. apply foldl_add_record_inv. apply tree_inv_empty. Qed.

Lemma sizes_to_graph_nodes m : nodes (sizes_to_graph m) = nodes (build m).1.1.
Proof. unfold sizes_to_graph. by destruct (build m) as [[g ts] td]. Qed.

Lemma sizes_to_graph_adj m : adj (sizes_to_graph m) = adj (build m).1.1.
Proof. unfold sizes_to_graph. by destruct (build m) as [[g ts] td]. Qed.

Lemma sizes_to_graph_succs m u :
  succs (sizes_to_graph m) u = succs (build m).1.1 u.
Proof. unfold succs. by rewrite sizes_to_graph_adj. Qed.

Lemma sizes_to_graph_inv m : tree_inv (sizes_to_graph m).
Proof.
  destruct (build_inv m) as [He Hn Hends Hl Hp].
  split; intros *; rewrite ?sizes_to_graph_succs, ?sizes_to_graph_nodes; eauto.
Qed.

(** ** The totals *)

Lemma link_parents_count g td c ps :
  is_Some (nodes g !! c) →
  Z.of_nat (size (nodes (link_parents g td c ps).1)) - (link_parents g td c ps).2
  = Z.of_nat (size (nodes g)) - td.
Proof.
  revert g td c. induction ps as [|p ps IH]; intros g td c Hc; [done|].
  cbn [link_parents]. destruct (has_node g p) eqn:Hp.
  - apply has_node_true in Hp. cbn.
    by rewrite !ensure_node_present by (by rewrite ?ensure_node_present).
  - apply has_node_false in Hp. rewrite IH.
    + cbn. rewrite (ensure_node_present _ c).
      * rewrite ensure_node_size by done. lia.
      * apply ensure_node_lookup. by left.
    + apply add_edge_nodes. right; by left.
Qed.

Lemma link_parents_nodes g td c ps w :
  is_Some (nodes (link_parents g td c ps).1 !! w) →
  is_Some (nodes g !! w) ∨ w = c ∨ w ∈ ps.
Proof.
  revert g td c. induction ps as [|p ps IH]; intros g td c; [by left|].
  cbn [link_parents]. destruct (has_node g p) eqn:Hp.
  - cbn [fst]. rewrite add_edge_nodes. rewrite elem_of_cons. tauto.
  - intros H. apply IH in H. rewrite add_edge_nodes in H.
    rewrite elem_of_cons. tauto.
Qed.

Lemma add_record_nodes st r w :
  is_Some (nodes (add_record st r).1.1 !! w) →
  is_Some (nodes st.1.1 !! w) ∨ below w r.1.
Proof.
  destruct st as [[g ts] td], r as [p sz]. cbn.
  pose proof (link_parents_nodes (add_node g p sz) (td + 1) p (parents p) w) as H.
  destruct (link_parents _ _ _ _) as [g' td']. cbn in *. intros Hw.
  destruct (H Hw) as [Hn|[->|Hin]].
  - apply add_node_nodes in Hn as [?| ->]; [by left|right; apply below_refl].
  - right; apply below_refl.
  - right. by apply below_parents.
Qed.

Lemma add_record_total_size st r : (add_record st r).1.2 = st.1.2 + r.2.
Proof.
  destruct st as [[g ts] td], r as [p sz]. cbn.
  by destruct (link_parents _ _ _ _).
Qed.

Lemma add_record_count st r :
  nodes st.1.1 !! r.1 = None →
  Z.of_nat (size (nodes (add_record st r).1.1)) - (add_record st r).2
  = Z.of_nat (size (nodes st.1.1)) - st.2.
Proof.
  destruct st as [[g ts] td], r as [p sz]. cbn. intros Hp.
  pose proof (link_parents_count (add_node g p sz) (td + 1) p (parents p)) as H.
  destruct (link_parents _ _ _ _) as [g' td']. cbn in *.
  rewrite H.
  - rewrite map_size_insert_None by done. lia.
  - by rewrite lookup_insert_eq.
Qed.

Lemma foldl_add_record_total_size m st :
  (foldl add_record st m).1.2 = st.1.2 + sum_sizes m.
Proof.
  revert st. induction m as [|r m IH]; intros st.
  - cbn. lia.
  - change (sum_sizes (r :: m)) with (r.2 + sum_sizes m). cbn [foldl].
    rewrite IH, add_record_total_size. lia.
Qed.

Lemma foldl_add_record_count m st :
  no_later_ancestor m.*1 →
  (∀ w q, is_Some (nodes st.1.1 !! w) → q ∈ m.*1 → q ≠ w) →
  Z.of_nat (size (nodes (foldl add_record st m).1.1)) - (foldl add_record st m).2
  = Z.of_nat (size (nodes st.1.1)) - st.2.
Proof.
  revert st. induction m as [|r m IH]; intros st Hfresh Hst; [done|].
  cbn in Hfresh. destruct Hfresh as [Hr Hfresh]. cbn [foldl].
  trans (Z.of_nat (size (nodes (add_record st r).1.1)) - (add_record st r).2).
  - apply IH; [done|]. intros w q Hw Hq.
    apply add_record_nodes in Hw as [Hw|Hw].
    + apply Hst; [done|]. rewrite fmap_cons. by right.
    + rewrite Forall_forall in Hr. intros ->. by eapply Hr.
  - apply add_record_count. apply eq_None_not_Some. intros Hs.
    eapply (Hst r.1 r.1); [done| |done]. rewrite fmap_cons. by left.
Qed.

(** C7 (as amended): when no record's path is equal to, or an ancestor
    of, the path of a record before it, the stored [total_size] is the
    sum of the record sizes and the stored [total_descendants] is the
    number of nodes of the tree minus one. *)
Theorem totals_consistent (manifest : list record) :
  no_later_ancestor manifest.*1 →
  let g := sizes_to_graph manifest in
  graph_attrs g !! "total_size" = Some (sum_sizes manifest) ∧
  graph_attrs g !! "total_descendants" = Some (Z.of_nat (size (nodes g)) - 1).
Proof.
  intros Hfresh. cbn zeta.
  pose proof (foldl_add_record_total_size manifest (empty_graph, 0, 0)) as Hts.
  pose proof (foldl_add_record_count manifest (empty_graph, 0, 0) Hfresh) as Htd.
  rewrite sizes_to_graph_nodes. unfold sizes_to_graph, build in *.
  destruct (foldl add_record (empty_graph, 0, 0) manifest) as [[g ts] td].
  cbn in *. split.
  - rewrite lookup_insert_ne by done. rewrite lookup_insert_eq. f_equal. lia.
  - rewrite lookup_insert_eq. f_equal. rewrite map_size_empty in Htd.
    assert (Z.of_nat (size (nodes g)) - td = Z.of_nat 0 - 0) as E; [|lia].
    apply Htd. intros w q [a Ha]. by rewrite lookup_empty in Ha.
Qed.

Lemma totals_consistent_witness :
  let g := sizes_to_graph example_manifest in
  graph_attrs g !! "total_size" = Some (sum_sizes example_manifest) ∧
  graph_attrs g !! "total_descendants" = Some (Z.of_nat (size (nodes g)) - 1).
Proof.
  apply (totals_consistent example_manifest).
  cbn. repeat split. all: repeat constructor.
  all: intros [_ [k Hk]]; discriminate Hk.
Defined.

(** With the directory [a] listed after its file [a/b] the paths are
    distinct, the tree has three nodes, and the stored
    [total_descendants] is 3. *)
Lemma totals_directory_counted_twice :
  let g := sizes_to_graph dir_after_file_manifest in
  NoDup dir_after_file_manifest.*1 ∧
  size (nodes g) = 3%nat ∧
  graph_attrs g !! "total_descendants" = Some 3 ∧
  graph_attrs g !! "total_descendants" ≠ Some (Z.of_nat (size (nodes g)) - 1).
Proof.
  cbn zeta. split; [|by vm_compute].
  repeat constructor; rewrite ?elem_of_cons, ?elem_of_nil; naive_solver.
Qed.

(** ** The shape of the tree *)

Lemma foldl_add_record_nodes m st w :
  is_Some (nodes (foldl add_record st m).1.1 !! w) →
  is_Some (nodes st.1.1 !! w) ∨ ∃ r, r ∈ m ∧ below w r.1.
Proof.
  revert st. induction m as [|r m IH]; intros st; cbn; [by left|].
  intros Hw. apply IH in Hw as [Hw|(r' & Hin & Hb)].
  - apply add_record_nodes in Hw as [?|?]; [by left|right].
    exists r. split; [by left|done].
  - right. exists r'. split; [by right|done].
Qed.

Lemma sizes_to_graph_nodes_below m w :
  is_Some (nodes (sizes_to_graph m) !! w) → ∃ r, r ∈ m ∧ below w r.1.
Proof.
  rewrite sizes_to_graph_nodes. intros Hw.
  apply foldl_add_record_nodes in Hw as [[a Ha]|?]; [|done].
  cbn in Ha. by rewrite lookup_empty in Ha.
Qed.

Lemma tree_inv_parent g v :
  tree_inv g → is_Some (nodes g !! v) → tail v ≠ [] →
  edge g (parent v) v ∧ is_Some (nodes g !! parent v).
Proof.
  intros [He Hn Hends Hl _] Hv Hne.
  assert (v ∈ succs g (parent v)) as Hin by (by apply Hl).
  split; [done|]. by destruct (Hends _ _ Hin).
Qed.

Lemma tree_inv_reachable g v :
  tree_inv g → is_Some (nodes g !! v) → rtc (edge g) (root_of v) v.
Proof.
  intros Hinv. remember (length (tail v)) as k eqn:Hk.
  revert v Hk. induction k as [|k IH]; intros v Hk Hv.
  - destruct v as [r t]. destruct t; [|done]. apply rtc_refl.
  - assert (tail v ≠ []) as Hne by (by destruct (tail v)).
    destruct (tree_inv_parent g v Hinv Hv Hne) as [He Hp].
    eapply rtc_r; [|exact He].
    change (root_of v) with (root_of (parent v)). apply IH; [|done].
    rewrite parent_length. lia.
Qed.

(** C10 (as amended): after the build, every node with at least one
    path component has exactly one incoming edge, which comes from its
    parent path, itself a node; the nodes without components (["."], and
    ["/"] when the manifest has absolute paths) have no incoming edge;
    every edge leads to a path one component longer, so there is no
    cycle; and every node is reached from the root of its path, from
    ["."] when all the paths of the manifest are relative. *)
Theorem tree_structure (manifest : list record) :
  let g := sizes_to_graph manifest in
  (∀ v, is_Some (nodes g !! v) → tail v ≠ [] →
     is_Some (nodes g !! parent v) ∧ ∀ u, edge g u v ↔ u = parent v) ∧
  (∀ u, NoDup (succs g u)) ∧
  (∀ u v, edge g u v → tail v ≠ [] ∧ length (tail v) = S (length (tail u))) ∧
  (∀ v, is_Some (nodes g !! v) → rtc (edge g) (root_of v) v) ∧
  ((∀ r, r ∈ manifest → root r.1 = "") →
     ∀ v, is_Some (nodes g !! v) → rtc (edge g) ROOT v).
Proof.
  cbn zeta. pose proof (sizes_to_graph_inv manifest) as Hinv.
  split; [|split; [|split; [|split]]].
  - intros v Hv Hne. destruct (tree_inv_parent _ v Hinv Hv Hne) as [He Hp].
    split; [done|]. intros u. split; [|by intros ->].
    intros Hu. by destruct (inv_edge _ _ Hinv u v Hu).
  - apply Hinv.
  - intros u v He. destruct (inv_edge _ _ Hinv u v He) as [Hne ->].
    split; [done|]. rewrite parent_length. destruct (tail v); [done|]. cbn. lia.
  - intros v Hv. by apply tree_inv_reachable.
  - intros Hrel v Hv. pose proof (tree_inv_reachable _ v Hinv Hv) as Hr.
    destruct (sizes_to_graph_nodes_below _ _ Hv) as (r & Hin & [Hroot _]).
    unfold root_of in Hr. by rewrite Hroot, (Hrel r Hin) in Hr.
Qed.

(** With the absolute path [/a] in the manifest, the node ["/"] is in the
    graph, is not ["."], and has no incoming edge. *)
Lemma absolute_root_without_parent :
  let g := sizes_to_graph absolute_manifest in
  is_Some (nodes g !! mkPath "/" []) ∧
  mkPath "/" [] ≠ ROOT ∧
  ∀ u, ¬ edge g u (mkPath "/" []).
Proof.
  cbn zeta. split; [by vm_compute; eauto|]. split; [done|].
  intros u Hu.
  by destruct (inv_edge _ _ (sizes_to_graph_inv absolute_manifest) u _ Hu).
Qed.

(** ** The order on paths *)

Lemma compare_refl x : String.compare x x = Eq.
Proof. by apply OrderedTypeEx.String_as_OT.cmp_eq. Qed.

Lemma compare_lt_trans x y z :
  String.compare x y = Lt → String.compare y z = Lt → String.compare x z = Lt.
Proof.
  intros H1 H2. apply OrderedTypeEx.String_as_OT.cmp_lt.
  apply OrderedTypeEx.String_as_OT.cmp_lt in H1, H2.
  by eapply OrderedTypeEx.String_as_OT.lt_trans.
Qed.

Lemma compare_gt_lt x y : String.compare x y = Gt ↔ String.compare y x = Lt.
Proof.
  rewrite (String.compare_antisym y x). destruct (String.compare x y); cbn; split; done.
Qed.

Lemma parts_le_refl l : parts_le l l = true.
Proof. induction l as [|x l IH]; [done|]. cbn. by rewrite compare_refl. Qed.

Lemma parts_le_total a b : parts_le a b = true ∨ parts_le b a = true.
Proof.
  revert b. induction a as [|x a IH]; intros [|y b]; cbn; try tauto.
  rewrite (String.compare_antisym y x).
  destruct (String.compare x y); cbn; try tauto. apply IH.
Qed.

Lemma parts_le_antisym a b :
  parts_le a b = true → parts_le b a = true → a = b.
Proof.
  revert b. induction a as [|x a IH]; intros [|y b]; cbn; try done.
  rewrite (String.compare_antisym y x).
  destruct (String.compare x y) eqn:E; cbn; try done.
  apply OrderedTypeEx.String_as_OT.cmp_eq in E as ->. intros. f_equal. by apply IH.
Qed.

Lemma parts_le_trans a b c :
  parts_le a b = true → parts_le b c = true → parts_le a c = true.
Proof.
  revert b c. induction a as [|x a IH]; intros [|y b] [|z c]; cbn; try done.
  destruct (String.compare x y) eqn:E1; try done.
  - apply OrderedTypeEx.String_as_OT.cmp_eq in E1 as ->.
    destruct (String.compare y z); try done. apply IH.
  - destruct (String.compare y z) eqn:E2; try done.
    + apply OrderedTypeEx.String_as_OT.cmp_eq in E2 as ->. by rewrite E1.
    + by rewrite (compare_lt_trans _ _ _ E1 E2).
Qed.

Lemma parts_le_prefix a b : a `prefix_of` b → parts_le a b = true.
Proof.
  intros [k ->]. induction a as [|x a IH]; [done|]. cbn. by rewrite compare_refl.
Qed.

Lemma parts_le_extend a b k :
  parts_le a b = true → ¬ a `prefix_of` b →
  parts_le (a ++ k) b = true ∧ a ++ k ≠ b.
Proof.
  revert b. induction a as [|x a IH]; intros b Hle Hnp.
  { destruct Hnp. apply prefix_nil. }
  destruct b as [|y b]; [done|]. cbn in *.
  destruct (String.compare x y) eqn:E; try done.
  - apply OrderedTypeEx.String_as_OT.cmp_eq in E as ->.
    destruct (IH b Hle) as [H1 H2].
    + intros Hp. apply Hnp. by apply prefix_cons.
    + split; [done|]. by intros [= ?].
  - split; [done|]. intros [= -> _]. by rewrite compare_refl in E.
Qed.

Lemma parts_relative p : relative p → parts p = tail p.
Proof. unfold parts, relative. intros ->. done. Qed.

Lemma path_le_refl p : path_le p p.
Proof. apply parts_le_refl. Qed.

Lemma path_le_trans p q r : path_le p q → path_le q r → path_le p r.
Proof. apply parts_le_trans. Qed.

Lemma path_le_total p q : path_le p q ∨ path_le q p.
Proof. apply parts_le_total. Qed.

Lemma path_le_antisym p q :
  relative p → relative q → path_le p q → path_le q p → p = q.
Proof.
  unfold path_le. intros Hp Hq. rewrite !parts_relative by done.
  intros H1 H2. destruct p, q. unfold relative in *. cbn in *. subst.
  f_equal. by apply parts_le_antisym.
Qed.

#[global] Instance path_le_flip_trans : Transitive (flip path_le).
Proof. intros p q r H1 H2. by eapply path_le_trans. Qed.

#[global] Instance path_le_flip_total : Total (flip path_le).
Proof. intros p q. apply path_le_total. Qed.

#[global] Instance path_before_trans : Transitive path_before.
Proof.
  intros p q r (Hp & Hq & Hle1 & Hne1) (_ & Hr & Hle2 & Hne2).
  split; [done|]. split; [done|]. split; [by eapply path_le_trans|].
  intros ->. apply Hne1. by apply path_le_antisym.
Qed.

Lemma path_before_irrefl p : ¬ path_before p p.
Proof. by intros (_ & _ & _ & H). Qed.

Lemma below_relative u v : below u v → relative v → relative u.
Proof. unfold relative. intros [-> _]. done. Qed.

Lemma below_relative_r u v : below u v → relative u → relative v.
Proof. unfold relative. intros [<- _]. done. Qed.

Lemma below_path_le u v : relative v → below u v → path_le u v.
Proof.
  intros Hv Hb. unfold path_le.
  rewrite !parts_relative by eauto using below_relative.
  apply parts_le_prefix. by destruct Hb.
Qed.

Lemma below_antisym u v : below u v → below v u → u = v.
Proof.
  intros [Hr H1] [_ H2]. destruct u, v. cbn in *. subst. f_equal.
  by apply (anti_symm prefix).
Qed.

Lemma below_comparable a b c : below a c → below b c → below a b ∨ below b a.
Proof.
  intros [Ha H1] [Hb H2].
  destruct (prefix_weak_total _ _ _ H1 H2); [left|right]; split; congruence.
Qed.

(** A child comes after its parent, and before whatever comes after the
    parent outside its subtree. *)
Lemma child_after_parent n c :
  relative n → tail c ≠ [] → n = parent c → path_before n c.
Proof.
  intros Hn Hne ->. pose proof (below_parent c) as Hb.
  assert (relative c) by (by eapply below_relative_r).
  split; [done|]. split; [done|]. split; [by apply below_path_le|].
  by apply parent_ne.
Qed.

Lemma child_before n c t :
  path_before n t → ¬ below n t → tail c ≠ [] → n = parent c →
  path_before c t.
Proof.
  intros (Hn & Ht & Hle & Hne) Hnb Hc ->.
  assert (relative c) as Hrc by (eapply below_relative_r; [apply below_parent|done]).
  destruct (proj1 (parent_child (parent c) c Hc) eq_refl) as [Hroot [x Hx]].
  unfold path_le in Hle. rewrite !parts_relative in Hle by done.
  destruct (parts_le_extend _ _ [x] Hle) as [H1 H2].
  - intros Hp. apply Hnb. split; [|done]. unfold relative in *. congruence.
  - split; [done|]. split; [done|]. split.
    + unfold path_le. rewrite !parts_relative by done. by rewrite Hx.
    + intros <-. by rewrite Hx in H2.
Qed.

(** ** What the aggregate computation leaves unchanged *)

Lemma same_shape_refl g : same_shape g g.
Proof. by split. Qed.

Lemma same_shape_trans g1 g2 g3 :
  same_shape g1 g2 → same_shape g2 g3 → same_shape g1 g3.
Proof.
  intros (Ha & Hg & Hn) (Ha' & Hg' & Hn'). split; [congruence|].
  split; [congruence|]. intros w. by rewrite Hn', Hn.
Qed.

Lemma same_shape_set_attrs g n s d :
  is_Some (nodes g !! n) → same_shape g (set_attrs g n s d).
Proof.
  intros Hn. split; [done|]. split; [done|]. intros w. cbn.
  destruct (decide (w = n)) as [->|Hne].
  - rewrite lookup_insert_eq. split; [done | by eauto].
  - by rewrite lookup_insert_ne.
Qed.

Lemma same_shape_succs g g' u : same_shape g g' → succs g' u = succs g u.
Proof. intros (Ha & _). unfold succs. by rewrite Ha. Qed.

Lemma sum_children_shape (rec : graph → Path → result (graph * (Z * Z))) :
  (∀ g n g' r, rec g n = Ok (g', r) → same_shape g g') →
  ∀ children g s d g' r,
    sum_children rec g children s d = Ok (g', r) → same_shape g g'.
Proof.
  intros Hrec children. induction children as [|c children IH]; intros g s d g' r.
  - cbn. intros [= -> _]. apply same_shape_refl.
  - cbn. destruct (rec g c) as [[g1 [cs cd]]|e] eqn:Hc; [|done]. cbn.
    intros H. eapply same_shape_trans; [by eapply Hrec | by eapply IH].
Qed.

Lemma size_descendants_shape limit g n g' r :
  size_descendants limit g n = Ok (g', r) → same_shape g g'.
Proof.
  revert g n g' r. induction limit as [|limit IH]; intros g n g' r; [done|].
  cbn. destruct (nodes g !! n) as [data|] eqn:Hn; [|done].
  destruct (_ || _).
  - unfold successors. rewrite (proj2 (has_node_true g n)) by eauto. cbn.
    destruct (sum_children _ _ _ _ _) as [[g1 [s d]]|e] eqn:Hs; [|done]. cbn.
    intros [= <- _]. apply (sum_children_shape _ IH) in Hs.
    eapply same_shape_trans; [done|]. apply same_shape_set_attrs.
    apply Hs. eauto.
  - intros [= -> _]. apply same_shape_refl.
Qed.

Lemma node_descendants_shape limit g n g' d :
  node_descendants limit g n = Ok (g', d) → same_shape g g'.
Proof.
  unfold node_descendants.
  destruct (size_descendants limit g n) as [[g1 [s d1]]|e] eqn:H; [|done].
  cbn. intros [= <- _]. by eapply size_descendants_shape.
Qed.

Lemma yield_abort_if_shape limit max lim g n g' r :
  yield_abort_if limit max lim g n = Ok (g', r) → same_shape g g'.
Proof.
  unfold yield_abort_if.
  destruct (size_descendants limit g n) as [[g1 [s d]]|e] eqn:H; [|done].
  cbn. destruct (bool_decide (s < max)); cbn.
  - intros [= <- _]. by eapply size_descendants_shape.
  - destruct (density d s); cbn; [|done].
    intros [= <- _]. by eapply size_descendants_shape.
Qed.

Lemma yield_abort_if_keeps_edges limit max lim :
  keeps_edges (yield_abort_if limit max lim).
Proof. intros g n g' r H. by destruct (yield_abort_if_shape _ _ _ _ _ _ _ H). Qed.

(** ** One iteration of the walk *)

Lemma pop_Some {A} (l tv : list A) x : pop l = Some (tv, x) ↔ l = tv ++ [x].
Proof.
  unfold pop. split.
  - destruct (reverse l) as [|y l'] eqn:Hr; [done|]. intros [= <- <-].
    rewrite <- (reverse_involutive l), Hr. by rewrite reverse_cons.
  - intros ->. rewrite reverse_app, reverse_singleton. cbn [app].
    by rewrite reverse_involutive.
Qed.

Lemma pop_None {A} (l : list A) : pop l = None ↔ l = [].
Proof.
  unfold pop. split.
  - destruct (reverse l) as [|y l'] eqn:Hr; [|done]. intros _.
    by rewrite <- (reverse_involutive l), Hr.
  - by intros ->.
Qed.

Section shape.
Context {A : Type}.
Variables (limit : nat) (f : callback).
Variable body : graph → Path → A → result A.
Hypothesis f_edges : keeps_edges f.

(** Whatever the outcome of an iteration: the node is recorded as
    popped, the log grows by the messages about it, and the stack is what
    was left, with the children pushed when the iteration went through
    without skipping. *)
Lemma dfs_visit_shape (w : walk A) tv node w' oe :
  dfs_visit limit f body w tv node = (w', oe) →
  adj (w_graph w') = adj (w_graph w) ∧
  w_visited w' = w_visited w ++ [node] ∧
  ∃ y a : bool,
    w_log w' = w_log w ++ (if y then [Yielding node] else [])
                       ++ (if a then [Skipping node] else []) ∧
    (oe = None → ∃ g, f (w_graph w) node = Ok (g, (y, a))) ∧
    ((w_to_visit w' = tv ∧ (oe = None → a = true)) ∨
     (a = false ∧ oe = None ∧
      w_to_visit w' = tv ++ sorted_reverse (succs (w_graph w') node))).
Proof.
  unfold dfs_visit.
  destruct (f (w_graph w) node) as [[g [y a]]|e] eqn:Hf.
  2:{ intros [= <- <-]. cbn. split; [done|]. split; [done|].
      exists false, false. rewrite !app_nil_r. split; [done|].
      split; [done|]. left. done. }
  pose proof (f_edges _ _ _ _ Hf) as Hadj.
  destruct (if y then body g node (w_acc w) else Ok (w_acc w)) as [acc|e] eqn:Hb.
  2:{ intros [= <- <-]. cbn. split; [done|]. split; [done|].
      exists y, false. rewrite app_nil_r. split; [by destruct y; rewrite ?app_nil_r|].
      split; [done|]. left. done. }
  destruct a.
  - destruct (node_descendants limit g node) as [[g1 d]|e] eqn:Hd.
    + intros [= <- <-]. cbn. split.
      { destruct (node_descendants_shape _ _ _ _ _ Hd) as [-> _]. done. }
      split; [done|]. exists y, true. split; [by destruct y; rewrite <- ?app_assoc|].
      split; [by eauto|]. left. done.
    + intros [= <- <-]. cbn. split; [done|]. split; [done|].
      exists y, true. split; [by destruct y; rewrite <- ?app_assoc|].
      split; [done|]. left. done.
  - destruct (successors g node) as [children|e] eqn:Hs.
    + intros [= <- <-]. cbn. split; [done|]. split; [done|].
      exists y, false. rewrite app_nil_r. split; [by destruct y; rewrite ?app_nil_r|].
      split; [by eauto|]. right. split; [done|]. split; [done|].
      unfold successors in Hs. destruct (has_node g node); [|done].
      by injection Hs as <-.
    + intros [= <- <-]. cbn. split; [done|]. split; [done|].
      exists y, false. rewrite app_nil_r. split; [by destruct y; rewrite ?app_nil_r|].
      split; [done|]. left. done.
Qed.
End shape.

(** ** Lists of paths *)

Lemma skipped_app l1 l2 : skipped (l1 ++ l2) = skipped l1 ++ skipped l2.
Proof. apply omap_app. Qed.

Lemma yielded_app l1 l2 : yielded (l1 ++ l2) = yielded l1 ++ yielded l2.
Proof. apply omap_app. Qed.

Lemma skipped_new node (y a : bool) :
  skipped ((if y then [Yielding node] else [])
             ++ (if a then [Skipping node] else []))
  = if a then [node] else [].
Proof. by destruct y, a. Qed.

Lemma yielded_new node (y a : bool) :
  yielded ((if y then [Yielding node] else [])
             ++ (if a then [Skipping node] else []))
  = if y then [node] else [].
Proof. by destruct y, a. Qed.

Lemma sublist_snoc_if (b : bool) (l v : list Path) n :
  l `sublist_of` v → l ++ (if b then [n] else []) `sublist_of` v ++ [n].
Proof.
  intros H. apply sublist_app; [done|]. destruct b; [done|]. apply sublist_nil_l.
Qed.

Lemma incomparable_subseteq l k :
  (∀ x, x ∈ k → x ∈ l) → incomparable l → incomparable k.
Proof. intros Hsub Hl a b Ha Hb. apply Hl; by apply Hsub. Qed.

Lemma siblings_below a b :
  tail a ≠ [] → tail b ≠ [] → parent a = parent b → below a b → a = b.
Proof.
  intros Ha Hb Hp [Hr Hpre]. destruct a as [ra ta], b as [rb tb]. cbn in *.
  subst. f_equal. apply prefix_length_eq; [done|].
  apply (f_equal (λ p, length (tail p))) in Hp. rewrite !parent_length in Hp.
  cbn in Hp. destruct ta, tb; try done. cbn in *. lia.
Qed.

Lemma StronglySorted_strict (l : list Path) :
  StronglySorted (flip path_le) l → NoDup l → Forall relative l →
  StronglySorted (flip path_before) l.
Proof.
  induction 1 as [|x l Hs IH Hx]; intros Hnd Hrel; [constructor|].
  apply NoDup_cons in Hnd as [Hnin Hnd]. apply Forall_cons in Hrel as [Hrx Hrel].
  constructor; [by apply IH|].
  rewrite Forall_forall in *. intros y Hy. split; [by apply Hrel|].
  split; [done|]. split; [by apply Hx|]. by intros ->.
Qed.

Lemma sorted_reverse_perm xs : sorted_reverse xs ≡ₚ xs.
Proof. apply merge_sort_Permutation. Qed.

Lemma sorted_reverse_sorted xs :
  StronglySorted (flip path_le) (sorted_reverse xs).
Proof. apply StronglySorted_merge_sort; apply _. Qed.

Lemma sorted_reverse_elem xs x : x ∈ sorted_reverse xs ↔ x ∈ xs.
Proof. by rewrite sorted_reverse_perm. Qed.

(** ** The invariant of the walk *)

Section walk.
Context {A : Type}.
Variables (limit : nat) (f : callback).
Variable body : graph → Path → A → result A.
Hypothesis f_edges : keeps_edges f.
Variable g0 : graph.
Hypothesis g0_tree : tree_inv g0.

Lemma children_of node c :
  c ∈ succs g0 node → tail c ≠ [] ∧ node = parent c.
Proof. apply g0_tree. Qed.

Lemma walk_inv_visit (w : walk A) tv node w' oe :
  walk_inv g0 w →
  w_to_visit w = tv ++ [node] →
  dfs_visit limit f body w tv node = (w', oe) →
  walk_inv g0 w'.
Proof.
  intros [Hadj Hsrel Hvrel Hvis Hstk Hord Hinc Hskip Hyield] Hpop Hv.
  destruct (dfs_visit_shape limit f body f_edges w tv node w' oe Hv)
    as (Hadj' & Hvis' & y & a & Hlog' & _ & Hstack').
  rewrite Hpop in *.
  apply Forall_app in Hsrel as [Htvrel Hnrel].
  rewrite Forall_singleton in Hnrel.
  apply StronglySorted_app in Hstk as (Hnt & Htv & _).
  assert (∀ t, t ∈ tv → path_before node t) as Hnode_tv.
  { intros t Ht. apply (Hnt t node); [done|]. by apply list_elem_of_singleton. }
  assert (∀ v, v ∈ w_visited w → path_before v node) as Hv_node.
  { intros v Hin. apply Hord; [done|]. apply elem_of_app. right.
    by apply list_elem_of_singleton. }
  assert (∀ t, t ∈ tv ++ skipped (w_log w) → t ≠ node) as Hfresh.
  { intros t Ht ->. apply elem_of_app in Ht as [Ht|Ht].
    - by apply (path_before_irrefl node), Hnode_tv.
    - apply (path_before_irrefl node), Hv_node. by eapply elem_of_sublist. }
  assert (succs (w_graph w') node = succs g0 node) as Hsuccs.
  { unfold succs. by rewrite Hadj', Hadj. }
  assert (skipped (w_log w') = skipped (w_log w) ++ if a then [node] else [])
    as Hsk by (by rewrite Hlog', skipped_app, skipped_new).
  assert (yielded (w_log w') = yielded (w_log w) ++ if y then [node] else [])
    as Hyi by (by rewrite Hlog', yielded_app, yielded_new).
  assert (∀ c, c ∈ succs g0 node → relative c) as Hcrel.
  { intros c Hc. destruct (children_of _ _ Hc) as [_ Hpar].
    eapply below_relative_r; [apply below_parent|]. by rewrite <- Hpar. }
  split.
  - congruence.
  - destruct Hstack' as [[-> _]|(_ & _ & ->)]; [done|].
    apply Forall_app. split; [done|]. apply Forall_forall. intros c Hc.
    apply Hcrel. by rewrite <- sorted_reverse_elem, <- Hsuccs.
  - rewrite Hvis'. apply Forall_app. split; [done|]. by apply Forall_singleton.
  - rewrite Hvis'. apply StronglySorted_app_2; [|done|by repeat constructor].
    intros v x Hin Hx. apply list_elem_of_singleton in Hx as ->. by apply Hv_node.
  - destruct Hstack' as [[-> _]|(_ & _ & ->)]; [done|].
    rewrite Hsuccs. apply StronglySorted_app_2.
    + intros t c Ht Hc. rewrite sorted_reverse_elem in Hc.
      destruct (children_of _ _ Hc) as [Hne Hp]. unfold flip.
      eapply child_before; [by apply Hnode_tv| |done|done].
      intros Hb. apply (Hfresh t); [apply elem_of_app; by left|].
      symmetry. apply Hinc; [| |done]; rewrite !elem_of_app, ?list_elem_of_singleton;
        tauto.
    + done.
    + apply StronglySorted_strict.
      * apply sorted_reverse_sorted.
      * rewrite sorted_reverse_perm. apply g0_tree.
      * apply Forall_forall. intros c Hc. apply Hcrel.
        by apply sorted_reverse_elem.
  - rewrite Hvis'. intros v s Hin Hs.
    assert (path_before node s ∨ s ∈ tv) as Hcase.
    { destruct Hstack' as [[Heq _]|(_ & _ & Heq)]; rewrite Heq in Hs; [by right|].
      apply elem_of_app in Hs as [?|Hc]; [by right|left].
      rewrite Hsuccs in Hc. rewrite sorted_reverse_elem in Hc.
      destruct (children_of _ _ Hc) as [Hne Hp]. by apply child_after_parent. }
    apply elem_of_app in Hin as [Hin|Hin].
    + destruct Hcase as [Hlt|Ht].
      * etrans; [by apply Hv_node | done].
      * apply Hord; [done|]. apply elem_of_app. by left.
    + apply list_elem_of_singleton in Hin as ->.
      destruct Hcase as [Hlt|Ht]; [done | by apply Hnode_tv].
  - rewrite Hsk. destruct Hstack' as [[-> _]|(-> & _ & ->)].
    + eapply incomparable_subseteq; [|exact Hinc]. intros x.
      rewrite !elem_of_app, ?list_elem_of_singleton.
      destruct a; rewrite ?elem_of_nil, ?list_elem_of_singleton; tauto.
    + rewrite Hsuccs, app_nil_r. intros p q Hp Hq Hb.
      rewrite !elem_of_app, !sorted_reverse_elem in Hp, Hq.
      assert (∀ c t, c ∈ succs g0 node → t ∈ tv ++ skipped (w_log w) →
                ¬ (below c t ∨ below t c)) as Hmix.
      { intros c t Hc Ht Hbelow. destruct (children_of _ _ Hc) as [Hne Hpar].
        assert (below node c) as Hnc by (rewrite Hpar; apply below_parent).
        assert (node ∈ (tv ++ [node]) ++ skipped (w_log w)) as Hnin.
        { rewrite !elem_of_app, list_elem_of_singleton. tauto. }
        assert (t ∈ (tv ++ [node]) ++ skipped (w_log w)) as Htin.
        { rewrite !elem_of_app in *. tauto. }
        apply (Hfresh t Ht). destruct Hbelow as [Hct|Htc].
        - symmetry. apply Hinc; [done..|]. by eapply below_trans.
        - destruct (below_comparable _ _ _ Htc Hnc) as [?|?].
          + by apply Hinc.
          + symmetry. by apply Hinc. }
      destruct Hp as [[Hp|Hp]|Hp], Hq as [[Hq|Hq]|Hq].
      all: try (apply Hinc; [rewrite !elem_of_app; tauto..|done]).
      all: try (exfalso; eapply (Hmix p q); [done|rewrite elem_of_app; tauto|tauto]).
      all: try (exfalso; eapply (Hmix q p); [done|rewrite elem_of_app; tauto|tauto]).
      destruct (children_of _ _ Hp) as [Hpne Hpp].
      destruct (children_of _ _ Hq) as [Hqne Hqp].
      apply siblings_below; [done..|congruence|done].
  - rewrite Hsk, Hvis'. by apply sublist_snoc_if.
  - rewrite Hyi, Hvis'. by apply sublist_snoc_if.
Qed.

Lemma walk_inv_loop steps (w : walk A) w' st :
  walk_inv g0 w → dfs_loop limit f body steps w = (w', st) → walk_inv g0 w'.
Proof.
  revert w. induction steps as [|steps IH]; intros w Hinv; cbn.
  - destruct (pop (w_to_visit w)) as [[tv node]|]; by intros [= <- _].
  - destruct (pop (w_to_visit w)) as [[tv node]|] eqn:Hpop;
      [|by intros [= <- _]].
    apply pop_Some in Hpop.
    destruct (dfs_visit limit f body w tv node) as [w1 [e|]] eqn:Hv.
    + intros [= <- _]. by eapply walk_inv_visit.
    + apply IH. by eapply walk_inv_visit.
Qed.
End walk.

(** ** The walk of the selector *)

Lemma yield_zips_walk limit steps g max lim :
  let r := yield_zips limit steps g max lim in
  let w := (zips_walk limit steps g max lim).1 in
  zr_zips r = (w_acc w).1 ∧ zr_log r = w_log w ∧
  zr_visited r = w_visited w ∧ zr_graph r = w_graph w ∧
  zr_traversal r = (zips_walk limit steps g max lim).2.
Proof.
  cbn zeta. unfold yield_zips, zips_walk.
  destruct (dfs _ _ _ _ _ _ _) as [w st]. cbn [fst snd].
  destruct (w_acc w) as [zips c] eqn:E. by cbn.
Qed.

Lemma walk_inv_init {A} g0 g (acc : A) :
  adj g = adj g0 → walk_inv g0 (mkWalk g [ROOT] acc [] []).
Proof.
  intros Hadj. split; cbn.
  - done.
  - by repeat constructor.
  - constructor.
  - constructor.
  - by repeat constructor.
  - intros v s Hv. by apply elem_of_nil in Hv.
  - intros a b Ha Hb _. apply list_elem_of_singleton in Ha, Hb. congruence.
  - done.
  - done.
Qed.

Lemma walk_inv_nil {A} g0 (acc : A) : walk_inv g0 (mkWalk g0 [] acc [] []).
Proof.
  split; cbn.
  - done.
  - constructor.
  - constructor.
  - constructor.
  - constructor.
  - intros v s Hv. by apply elem_of_nil in Hv.
  - intros a b Ha. by apply elem_of_nil in Ha.
  - done.
  - done.
Qed.

Lemma zips_walk_unfold limit steps g max lim :
  zips_walk limit steps g max lim =
    match node_descendants limit g ROOT with
    | Raise e => (mkWalk g [] ([], mkCounters 0 0 0) [] [], Raised e)
    | Ok (g1, _) =>
        dfs_loop limit (yield_abort_if limit max lim) zips_body steps
          (mkWalk g1 [ROOT] ([], mkCounters 0 0 0) [] [])
    end.
Proof. reflexivity. Qed.

Lemma zips_walk_inv limit steps g max lim :
  tree_inv g → walk_inv g (zips_walk limit steps g max lim).1.
Proof.
  intros Htree. rewrite zips_walk_unfold.
  destruct (node_descendants limit g ROOT) as [[g1 d]|e] eqn:Hd.
  - destruct (dfs_loop _ _ _ _ _) as [w st] eqn:Hloop.
    eapply walk_inv_loop; [| |apply walk_inv_init|exact Hloop].
    + apply yield_abort_if_keeps_edges.
    + done.
    + by destruct (node_descendants_shape _ _ _ _ _ Hd) as [-> _].
  - apply walk_inv_nil.
Qed.

Lemma zips_body_Ok g node zips c acc :
  zips_body g node (zips, c) = Ok acc → acc.1 = zips ++ [node].
Proof.
  unfold zips_body. destruct (from_key (nodes g !! node)) as [d|]; [|done]. cbn.
  destruct (from_key (attr_descendants d)); [|done]. cbn.
  destruct (from_key (attr_size d)); [|done]. cbn. by intros [= <-].
Qed.

Lemma zips_visit limit f (w : walk (list Path * counters)) tv node w' oe :
  (w_acc w).1 = yielded (w_log w) →
  dfs_visit limit f zips_body w tv node = (w', oe) →
  (w_acc w').1 `sublist_of` yielded (w_log w') ∧
  (oe = None → (w_acc w').1 = yielded (w_log w')).
Proof.
  intros Hacc. unfold dfs_visit.
  destruct (f (w_graph w) node) as [[g [y a]]|e].
  2:{ intros [= <- <-]. cbn. by rewrite Hacc. }
  destruct y.
  - destruct (w_acc w) as [zips c] eqn:Hw. cbn in Hacc.
    destruct (zips_body g node (zips, c)) as [acc|e] eqn:Hb.
    + apply zips_body_Ok in Hb.
      assert (acc.1 = yielded (w_log w ++ [Yielding node])) as E.
      { by rewrite yielded_app, <- Hacc. }
      destruct a.
      * assert (acc.1 = yielded ((w_log w ++ [Yielding node]) ++ [Skipping node]))
          as E' by (by rewrite yielded_app, <- E, app_nil_r).
        destruct (node_descendants limit g node) as [[g1 d]|e];
          intros [= <- <-]; cbn; by rewrite E'.
      * destruct (successors g node); intros [= <- <-]; cbn; by rewrite E.
    + intros [= <- <-]. cbn. split; [|done]. rewrite yielded_app, Hacc.
      by apply sublist_inserts_r.
  - assert (yielded (w_log w ++ [Skipping node]) = yielded (w_log w)) as E.
    { by rewrite yielded_app, app_nil_r. }
    destruct a.
    + destruct (node_descendants limit g node) as [[g1 d]|e];
        intros [= <- <-]; cbn; by rewrite E, Hacc.
    + destruct (successors g node); intros [= <- <-]; cbn; by rewrite Hacc.
Qed.

Lemma zips_loop limit f steps (w : walk (list Path * counters)) w' st :
  (w_acc w).1 = yielded (w_log w) →
  dfs_loop limit f zips_body steps w = (w', st) →
  (w_acc w').1 `sublist_of` yielded (w_log w') ∧
  ((∀ e, st ≠ Raised e) → (w_acc w').1 = yielded (w_log w')).
Proof.
  revert w. induction steps as [|steps IH]; intros w Hacc; cbn.
  - destruct (pop (w_to_visit w)) as [[tv node]|]; intros [= <- <-];
      by rewrite Hacc.
  - destruct (pop (w_to_visit w)) as [[tv node]|] eqn:Hpop.
    2:{ intros [= <- <-]. by rewrite Hacc. }
    destruct (dfs_visit limit f zips_body w tv node) as [w1 [e|]] eqn:Hv.
    + intros [= <- <-]. split; [by eapply zips_visit|].
      intros Hne. by destruct (Hne e).
    + apply IH. by eapply zips_visit.
Qed.

Lemma zips_walk_yielded limit steps g max lim :
  let ws := zips_walk limit steps g max lim in
  (w_acc ws.1).1 `sublist_of` yielded (w_log ws.1) ∧
  ((∀ e, ws.2 ≠ Raised e) → (w_acc ws.1).1 = yielded (w_log ws.1)).
Proof.
  cbn zeta. rewrite zips_walk_unfold.
  destruct (node_descendants limit g ROOT) as [[g1 d]|e]; [|done].
  destruct (dfs_loop _ _ _ _ _) as [w st] eqn:Hloop.
  by eapply zips_loop in Hloop.
Qed.

(** ** The order of the output *)

Lemma StronglySorted_sublist {A} (R : relation A) (l k : list A) :
  k `sublist_of` l → StronglySorted R l → StronglySorted R k.
Proof.
  induction 1 as [|x k l Hsub IH|x k l Hsub IH]; intros Hs.
  - constructor.
  - apply StronglySorted_cons in Hs as [Hx Hs]. constructor; [by apply IH|].
    rewrite Forall_forall in *. intros y Hy. apply Hx. by eapply elem_of_sublist.
  - apply StronglySorted_cons in Hs as [_ Hs]. by apply IH.
Qed.

Lemma StronglySorted_impl {A} (R S : relation A) (l : list A) :
  (∀ x y, R x y → S x y) → StronglySorted R l → StronglySorted S l.
Proof.
  intros HRS. induction 1 as [|x l Hs IH Hx]; constructor; [done|].
  eapply Forall_impl; [done|]. intros y. apply HRS.
Qed.

Lemma path_before_lt p q : path_before p q → path_lt p q.
Proof. by intros (_ & _ & H). Qed.

Lemma sorted_occurs_before (l : list Path) a b :
  StronglySorted path_before l → a ∈ l → b ∈ l → path_before a b →
  occurs_before a b l.
Proof.
  intros Hs Ha Hb Hab. apply list_elem_of_split in Ha as (l1 & l2 & ->).
  apply StronglySorted_app in Hs as (H12 & _ & Hs2).
  apply StronglySorted_cons in Hs2 as [Hal2 _].
  apply elem_of_app in Hb as [Hb|Hb].
  - exfalso. apply (path_before_irrefl a). etrans; [done|].
    apply H12; [done|]. by left.
  - apply elem_of_cons in Hb as [->|Hb]; [by apply path_before_irrefl in Hab|].
    apply list_elem_of_split in Hb as (l2' & l3 & ->). by exists l1, l2', l3.
Qed.

Lemma pushed_descending {A} limit f (body : graph → Path → A → result A)
    (w : walk A) tv node w' :
  keeps_edges f →
  dfs_visit limit f body w tv node = (w', None) →
  Skipping node ∉ new_events w w' →
  ∃ pushed, w_to_visit w' = tv ++ pushed ∧
            pushed ≡ₚ succs (w_graph w') node ∧
            StronglySorted (flip path_le) pushed.
Proof.
  intros Hf Hv Hns.
  destruct (dfs_visit_shape limit f body Hf w tv node w' None Hv)
    as (_ & _ & y & a & Hlog & _ & Hstack).
  destruct Hstack as [[_ Ha]|(_ & _ & ->)].
  - exfalso. apply Hns. unfold new_events. rewrite Hlog, drop_app_length.
    rewrite Ha by done. apply elem_of_app. right. by left.
  - eexists. split; [done|]. split; [apply sorted_reverse_perm|].
    apply sorted_reverse_sorted.
Qed.

(** ** Leaves *)

Lemma size_descendants_leaf limit g n sz :
  leaf g n sz →
  size_descendants (S limit) g n = Ok (g, (sz, 0)).
Proof.
  intros [Hn Hs]. cbn. rewrite Hn. cbn.
  destruct (bool_decide (sz ≠ 0)) eqn:Hsz; cbn; [done|].
  apply bool_decide_eq_false in Hsz. assert (sz = 0) as -> by lia.
  unfold successors. rewrite (proj2 (has_node_true g n)) by eauto.
  rewrite Hs. cbn. do 2 f_equal. destruct g as [ns ad ga]. unfold set_attrs. cbn in *.
  f_equal. by apply insert_id.
Qed.

Lemma sum_children_leaf (rec : graph → Path → result (graph * (Z * Z))) m sz :
  (∀ g n g' r, rec g n = Ok (g', r) → leaf g m sz → leaf g' m sz) →
  ∀ children g s d g' r,
    sum_children rec g children s d = Ok (g', r) → leaf g m sz → leaf g' m sz.
Proof.
  intros Hrec children. induction children as [|c children IH]; intros g s d g' r.
  - cbn. by intros [= -> _].
  - cbn. destruct (rec g c) as [[g1 [cs cd]]|e] eqn:Hc; [|done]. cbn.
    intros H Hl. eapply IH; [done|]. by eapply Hrec.
Qed.

Lemma size_descendants_keeps_leaf limit g n g' r m sz :
  size_descendants limit g n = Ok (g', r) → leaf g m sz → leaf g' m sz.
Proof.
  revert g n g' r. induction limit as [|limit IH]; intros g n g' r; [done|].
  intros Hsd Hl. destruct (decide (n = m)) as [->|Hne].
  { rewrite (size_descendants_leaf limit g m sz Hl) in Hsd. by injection Hsd as <-. }
  cbn in Hsd. destruct (nodes g !! n) as [data|] eqn:Hn; [|done].
  destruct (_ || _).
  - unfold successors in Hsd. destruct (has_node g n); [|done]. cbn in Hsd.
    destruct (sum_children _ _ _ _ _) as [[g1 [s d]]|e] eqn:Hs; [|done].
    cbn in Hsd. injection Hsd as <- _.
    apply (sum_children_leaf _ m sz IH) in Hs; [|done].
    destruct Hs as [Hm Hsucc]. split; [|done]. cbn. by rewrite lookup_insert_ne.
  - by injection Hsd as <-.
Qed.

Lemma leaves_kept_refl g : leaves_kept g g.
Proof. by intros n sz. Qed.

Lemma leaves_kept_size_descendants limit g0 g n g' r :
  size_descendants limit g n = Ok (g', r) → leaves_kept g0 g → leaves_kept g0 g'.
Proof.
  intros Hsd Hk m sz Hl. eapply size_descendants_keeps_leaf; [done|]. by apply Hk.
Qed.

Lemma leaves_kept_node_descendants limit g0 g n g' d :
  node_descendants limit g n = Ok (g', d) → leaves_kept g0 g → leaves_kept g0 g'.
Proof.
  unfold node_descendants.
  destruct (size_descendants limit g n) as [[g1 [s d1]]|e] eqn:H; [|done].
  cbn. intros [= <- _]. by eapply leaves_kept_size_descendants.
Qed.

Lemma leaves_kept_yield_abort_if limit max lim g0 g n g' r :
  yield_abort_if limit max lim g n = Ok (g', r) →
  leaves_kept g0 g → leaves_kept g0 g'.
Proof.
  unfold yield_abort_if.
  destruct (size_descendants limit g n) as [[g1 [s d]]|e] eqn:H; [|done].
  cbn. destruct (bool_decide (s < max)); cbn.
  - intros [= <- _]. by eapply leaves_kept_size_descendants.
  - destruct (density d s); cbn; [|done].
    intros [= <- _]. by eapply leaves_kept_size_descendants.
Qed.

Lemma records_or_parents_add_node g p sz :
  records_or_parents g → records_or_parents (add_node g p sz).
Proof.
  intros H n a. cbn. destruct (decide (n = p)) as [->|Hne].
  - rewrite lookup_insert_eq. intros [= <-]. left. eauto.
  - rewrite lookup_insert_ne by done. apply H.
Qed.

Lemma records_or_parents_add_edge g u v :
  is_Some (nodes g !! v) →
  records_or_parents g → records_or_parents (add_edge g u v).
Proof.
  intros Hv H n a Hn.
  assert (succs g n ≠ [] ∨ n = u → succs (add_edge g u v) n ≠ []) as Hgrow.
  { intros Hc Hnil. assert (∀ x, x ∉ succs (add_edge g u v) n) as Hno.
    { intros x. rewrite Hnil. apply not_elem_of_nil. }
    destruct Hc as [Hc| ->].
    - destruct (succs g n) as [|x l] eqn:E; [done|].
      apply (Hno x), add_edge_succs_elem. left. rewrite E. by left.
    - apply (Hno v), add_edge_succs_elem. by right. }
  cbn in Hn. rewrite (ensure_node_present _ v) in Hn.
  2:{ apply ensure_node_lookup. by left. }
  unfold ensure_node in Hn. destruct (nodes g !! u) eqn:Hu.
  - destruct (H n a Hn) as [?|?]; [by left|right; apply Hgrow; by left].
  - destruct (decide (n = u)) as [->|Hne].
    + right. apply Hgrow. by right.
    + rewrite lookup_insert_ne in Hn by done.
      destruct (H n a Hn) as [?|?]; [by left|right; apply Hgrow; by left].
Qed.

Lemma records_or_parents_link g td c ps :
  is_Some (nodes g !! c) →
  records_or_parents g → records_or_parents (link_parents g td c ps).1.
Proof.
  revert g td c. induction ps as [|p ps IH]; intros g td c Hc H; [done|].
  cbn [link_parents]. destruct (has_node g p).
  - by apply records_or_parents_add_edge.
  - apply IH; [|by apply records_or_parents_add_edge].
    apply add_edge_nodes. right; by left.
Qed.

Lemma records_or_parents_build m st :
  records_or_parents st.1.1 →
  records_or_parents (foldl add_record st m).1.1.
Proof.
  revert st. induction m as [|[p sz] m IH]; intros [[g ts] td] H; [done|].
  cbn [foldl]. apply IH. cbn.
  pose proof (records_or_parents_link (add_node g p sz) (td + 1) p (parents p))
    as Hl.
  destruct (link_parents _ _ _ _) as [g' td']. apply Hl.
  - apply add_node_nodes. by right.
  - by apply records_or_parents_add_node.
Qed.

Lemma sizes_to_graph_leaf m n :
  is_Some (nodes (sizes_to_graph m) !! n) → succs (sizes_to_graph m) n = [] →
  ∃ sz, leaf (sizes_to_graph m) n sz.
Proof.
  intros [a Ha] Hs.
  assert (records_or_parents (sizes_to_graph m)) as H.
  { intros n' a'. rewrite sizes_to_graph_nodes, sizes_to_graph_succs.
    apply (records_or_parents_build m (empty_graph, 0, 0)).
    intros n'' a''. cbn. by rewrite lookup_empty. }
  destruct (H n a Ha) as [[sz ->]|?]; [|done]. by exists sz.
Qed.

(** ** What the walk decides about leaves *)

Lemma dfs_visit_graph {A} limit f (body : graph → Path → A → result A)
    (w : walk A) tv node w' oe :
  dfs_visit limit f body w tv node = (w', oe) →
  w_graph w' = w_graph w ∨
  ∃ g r, f (w_graph w) node = Ok (g, r) ∧
         (w_graph w' = g ∨ ∃ d, node_descendants limit g node = Ok (w_graph w', d)).
Proof.
  unfold dfs_visit.
  destruct (f (w_graph w) node) as [[g [y a]]|e] eqn:Hf;
    [|intros [= <- _]; by left].
  intros Hv. right. exists g, (y, a). split; [done|].
  destruct (if y then body g node (w_acc w) else Ok (w_acc w));
    [|injection Hv as <- _; by left].
  destruct a.
  - destruct (node_descendants limit g node) as [[g1 d]|e] eqn:Hd;
      injection Hv as <- _; [right; by exists d | by left].
  - destruct (successors g node); injection Hv as <- _; by left.
Qed.

Lemma yield_abort_if_leaf limit max lim g n sz g' y a :
  leaf g n sz →
  yield_abort_if limit max lim g n = Ok (g', (y, a)) →
  y = bool_decide (sz < max).
Proof.
  intros Hl Hy. destruct limit as [|limit]; [done|].
  rewrite (yield_abort_if_Ok _ _ _ _ _ _ _ _ (size_descendants_leaf limit g n sz Hl))
    in Hy.
  destruct (bool_decide (sz < max)); [by injection Hy as _ <- _|].
  destruct (density 0 sz); [|done]. by injection Hy as _ <- _.
Qed.

Lemma decided_visit {A} limit max lim (body : graph → Path → A → result A)
    g0 (w : walk A) tv node w' :
  tree_inv g0 → walk_inv g0 w → decided g0 max w →
  w_to_visit w = tv ++ [node] →
  dfs_visit limit (yield_abort_if limit max lim) body w tv node = (w', None) →
  decided g0 max w'.
Proof.
  intros Htree Hinv [Hkept Hdec] Hpop Hv.
  pose proof (yield_abort_if_keeps_edges limit max lim) as Hf.
  destruct (dfs_visit_shape limit _ body Hf w tv node w' None Hv)
    as (_ & Hvis' & y & a & Hlog' & Hfy & _).
  destruct (Hfy eq_refl) as [g Hg]. split.
  - destruct (dfs_visit_graph _ _ _ _ _ _ _ _ Hv) as [->|(g1 & r & Hg1 & Hw')];
      [done|].
    pose proof (leaves_kept_yield_abort_if _ _ _ _ _ _ _ _ Hg1 Hkept) as Hk1.
    destruct Hw' as [->|[d Hd]]; [done|].
    by eapply leaves_kept_node_descendants.
  - intros n sz Hl Hn. rewrite Hvis' in Hn.
    rewrite Hlog', yielded_app, yielded_new, elem_of_app.
    pose proof (wi_yielded _ _ Hinv) as Hsub.
    assert (∀ v, v ∈ w_visited w → v ≠ node) as Hfresh.
    { intros v Hin ->. apply (path_before_irrefl node).
      apply (wi_order _ _ Hinv); [done|]. rewrite Hpop, elem_of_app.
      right. by left. }
    apply elem_of_app in Hn as [Hn|Hn].
    + rewrite <- (Hdec n sz Hl Hn). split; [|by left].
      intros [?|Hin]; [done|]. destruct y; [|by apply elem_of_nil in Hin].
      apply list_elem_of_singleton in Hin. by apply Hfresh in Hn.
    + apply list_elem_of_singleton in Hn as ->.
      rewrite (yield_abort_if_leaf _ _ _ _ _ _ _ _ _ (Hkept _ _ Hl) Hg).
      case_bool_decide as Hlt.
      * split; [done|]. intros _. right. by left.
      * split; [|done]. intros [Hin|Hin]; [|by apply elem_of_nil in Hin].
        exfalso. eapply Hfresh; [|done]. by eapply elem_of_sublist.
Qed.

Lemma decided_loop {A} limit max lim (body : graph → Path → A → result A)
    g0 steps (w : walk A) w' st :
  tree_inv g0 → walk_inv g0 w → decided g0 max w →
  dfs_loop limit (yield_abort_if limit max lim) body steps w = (w', st) →
  (∀ e, st ≠ Raised e) →
  decided g0 max w'.
Proof.
  intros Htree. revert w. induction steps as [|steps IH]; intros w Hinv Hdec; cbn.
  - destruct (pop (w_to_visit w)) as [[tv node]|]; by intros [= <- _].
  - destruct (pop (w_to_visit w)) as [[tv node]|] eqn:Hpop;
      [|by intros [= <- _]].
    apply pop_Some in Hpop.
    destruct (dfs_visit _ _ _ w tv node) as [w1 [e|]] eqn:Hv.
    + intros [= _ <-] Hne. by destruct (Hne e).
    + apply IH.
      * eapply walk_inv_visit; [apply yield_abort_if_keeps_edges|done..].
      * by eapply decided_visit.
Qed.

Lemma StronglySorted_NoDup (l : list Path) :
  StronglySorted path_before l → NoDup l.
Proof.
  induction 1 as [|x l Hs IH Hx]; constructor; [|done].
  intros Hin. rewrite Forall_forall in Hx. by apply (path_before_irrefl x), Hx.
Qed.

Lemma zips_walk_decided limit steps g max lim :
  tree_inv g →
  (∀ e, (zips_walk limit steps g max lim).2 ≠ Raised e) →
  decided g max (zips_walk limit steps g max lim).1.
Proof.
  intros Htree. rewrite zips_walk_unfold.
  destruct (node_descendants limit g ROOT) as [[g1 d]|e] eqn:Hd.
  2:{ intros Hne. by destruct (Hne e). }
  destruct (dfs_loop _ _ _ _ _) as [w st] eqn:Hloop. cbn [fst snd].
  intros Hne. eapply decided_loop; [done| | |exact Hloop|done].
  - apply walk_inv_init.
    by destruct (node_descendants_shape _ _ _ _ _ Hd) as [-> _].
  - split; cbn.
    + eapply leaves_kept_node_descendants; [done|]. apply leaves_kept_refl.
    + intros n sz _ Hn. by apply elem_of_nil in Hn.
Qed.


(** ** Rounding never gives a NaN *)

Lemma shr_1_nonneg mrs : 0 ≤ shr_m mrs → 0 ≤ shr_m (shr_1 mrs).
Proof. destruct mrs as [[|[p|p|]|[p|p|]] r s]; cbn; lia. Qed.

Lemma iter_pos_nonneg p mrs :
  0 ≤ shr_m mrs → 0 ≤ shr_m (SpecFloat.iter_pos shr_1 p mrs).
Proof.
  revert mrs. induction p as [p IH|p IH|]; intros mrs H; cbn.
  - apply IH, IH. by apply shr_1_nonneg.
  - by apply IH, IH.
  - by apply shr_1_nonneg.
Qed.

Lemma shr_fexp_nonneg m e l :
  0 ≤ m → 0 ≤ shr_m (shr_fexp prec emax m e l).1.
Proof.
  intros Hm. unfold shr_fexp, shr.
  assert (0 ≤ shr_m (shr_record_of_loc m l)) as H0.
  { by destruct l as [|[]]. }
  destruct (_ - _); cbn; [done| |done]. by apply iter_pos_nonneg.
Qed.

Lemma round_nearest_even_nonneg m l : 0 ≤ m → 0 ≤ round_nearest_even m l.
Proof. intros H. destruct l as [|[]]; cbn; [done| |done|lia]. destruct (Z.even m); lia. Qed.

Lemma binary_round_aux_not_nan sx mx ex lx :
  0 ≤ mx → binary_round_aux prec emax sx mx ex lx ≠ S754_nan.
Proof.
  intros Hm. unfold binary_round_aux.
  pose proof (shr_fexp_nonneg mx ex lx Hm) as H1.
  destruct (shr_fexp prec emax mx ex lx) as [mrs' e']. cbn in H1.
  pose proof (shr_fexp_nonneg _ e' loc_Exact
                (round_nearest_even_nonneg _ (loc_of_shr_record mrs') H1)) as H2.
  destruct (shr_fexp prec emax _ e' loc_Exact) as [mrs'' e'']. cbn in H2.
  destruct (shr_m mrs''); [done| |lia]. by destruct (_ <=? _)%Z.
Qed.

Lemma binary_normalize_not_nan m e sz :
  binary_normalize prec emax m e sz ≠ S754_nan.
Proof.
  destruct m as [|p|p]; cbn; [done| |]; unfold binary_round;
    destruct (shl_align _ _ _); by apply binary_round_aux_not_nan.
Qed.

(** ** The density of a node without descendants *)

Lemma float_lt_zero_sign b lim :
  float_lt (S754_zero b) lim = float_lt (S754_zero false) lim.
Proof. destruct lim as [n|f]; [done|]. by destruct f. Qed.

Lemma density_zero_low s q lim :
  density 0 s = Ok q → positive_limit lim → float_lt q lim = true.
Proof.
  unfold density, truediv_TiB, positive_limit.
  pose proof (binary_normalize_not_nan s (-40) false) as Hnan.
  destruct (binary_normalize prec emax s (-40) false) as [b|b| |b m e];
    cbn; try done.
  intros [= <-]. by rewrite (float_lt_zero_sign b).
Qed.

Lemma yield_abort_if_leaf_skip limit max lim g n sz g' y a :
  positive_limit lim → leaf g n sz →
  yield_abort_if limit max lim g n = Ok (g', (y, a)) → a = true.
Proof.
  intros Hlim Hl Hy. destruct limit as [|limit]; [done|].
  rewrite (yield_abort_if_Ok _ _ _ _ _ _ _ _ (size_descendants_leaf limit g n sz Hl))
    in Hy.
  destruct (bool_decide (sz < max)); [by injection Hy as _ _ <-|].
  destruct (density 0 sz) as [q|] eqn:Hq; [|done]. injection Hy as _ _ <-.
  by eapply density_zero_low.
Qed.

Lemma yield_abort_if_yield limit max lim g n g' a :
  yield_abort_if limit max lim g n = Ok (g', (true, a)) → a = true.
Proof.
  unfold yield_abort_if.
  destruct (size_descendants limit g n) as [[g1 [s d]]|e]; [|done]. cbn.
  destruct (bool_decide (s < max)); cbn; [by intros [= _ <-]|].
  by destruct (density d s).
Qed.

(** ** The skipped subtrees cover the leaves *)

Lemma rtc_edge_below g x y : tree_inv g → rtc (edge g) x y → below x y.
Proof.
  intros Htree. induction 1 as [x|x y z Hxy _ IH]; [apply below_refl|].
  destruct (inv_edge _ _ Htree x y Hxy) as [_ ->].
  eapply below_trans; [apply below_parent|done].
Qed.

Lemma partition_visit {A} limit max lim (body : graph → Path → A → result A)
    g0 (w : walk A) tv node w' :
  positive_limit lim →
  tree_inv g0 → walk_inv g0 w → partition_inv g0 w →
  w_to_visit w = tv ++ [node] →
  dfs_visit limit (yield_abort_if limit max lim) body w tv node = (w', None) →
  partition_inv g0 w'.
Proof.
  intros Hlim Htree Hinv [Hkept Hcov Hleaves Hyield] Hpop Hv.
  pose proof (yield_abort_if_keeps_edges limit max lim) as Hf.
  destruct (dfs_visit_shape limit _ body Hf w tv node w' None Hv)
    as (Hadj' & Hvis' & y & a & Hlog' & Hfy & Hstack').
  destruct (Hfy eq_refl) as [g Hg].
  assert (∀ v, v ∈ w_visited w → v ≠ node) as Hfresh.
  { intros v Hin ->. apply (path_before_irrefl node).
    apply (wi_order _ _ Hinv); [done|]. rewrite Hpop, elem_of_app.
    right. by left. }
  assert (node ∉ skipped (w_log w)) as Hnskip.
  { intros Hin. eapply Hfresh; [|done]. eapply elem_of_sublist; [done|].
    apply Hinv. }
  assert (skipped (w_log w') = skipped (w_log w) ++ if a then [node] else [])
    as Hsk by (by rewrite Hlog', skipped_app, skipped_new).
  assert (yielded (w_log w') = yielded (w_log w) ++ if y then [node] else [])
    as Hyi by (by rewrite Hlog', yielded_app, yielded_new).
  assert (succs (w_graph w') node = succs g0 node) as Hsuccs.
  { unfold succs. by rewrite Hadj', (wi_adj _ _ Hinv). }
  assert (a = true → w_to_visit w' = tv) as Hst.
  { intros ->. by destruct Hstack' as [[? _]|(? & _)]. }
  assert (a = false →
          w_to_visit w' = tv ++ sorted_reverse (succs g0 node)) as Hsf.
  { intros ->. destruct Hstack' as [[_ ?]|(_ & _ & ->)]; [|by rewrite Hsuccs].
    by assert (false = true) by auto. }
  split.
  - destruct (dfs_visit_graph _ _ _ _ _ _ _ _ Hv) as [->|(g1 & r & Hg1 & Hw')];
      [done|].
    pose proof (leaves_kept_yield_abort_if _ _ _ _ _ _ _ _ Hg1 Hkept) as Hk1.
    destruct Hw' as [->|[d Hd]]; [done|].
    by eapply leaves_kept_node_descendants.
  - intros x Hx. rewrite Hsk, Hvis'.
    destruct (Hcov x Hx) as [(s & Hs & Hsx)|[Hxv Hxs]].
    + rewrite Hpop, !elem_of_app, list_elem_of_singleton in Hs.
      destruct a.
      * left. exists s. split; [|done]. rewrite (Hst eq_refl), !elem_of_app.
        rewrite list_elem_of_singleton. tauto.
      * rewrite app_nil_r, (Hsf eq_refl).
        destruct Hs as [[Hs| ->]|Hs].
        -- left. exists s. split; [|done]. rewrite !elem_of_app. tauto.
        -- apply rtc_inv in Hsx as [->|(c & Hc & Hcx)].
           ++ right. split; [|done]. apply elem_of_app. right. by left.
           ++ left. exists c. split; [|done]. rewrite !elem_of_app.
              left. right. by apply sorted_reverse_elem.
        -- left. exists s. split; [|done]. rewrite !elem_of_app. tauto.
    + right. split; [apply elem_of_app; by left|].
      rewrite elem_of_app. intros [?|Hin]; [done|].
      destruct a; [|by apply elem_of_nil in Hin].
      apply list_elem_of_singleton in Hin. by apply Hfresh in Hxv.
  - intros x sz Hl. rewrite Hvis', Hsk, !elem_of_app. intros [Hx|Hx].
    + left. by eapply Hleaves.
    + apply list_elem_of_singleton in Hx as ->. right.
      rewrite (yield_abort_if_leaf_skip _ _ _ _ _ _ _ _ _ Hlim (Hkept _ _ Hl) Hg).
      by left.
  - intros x. rewrite Hyi, Hsk, !elem_of_app. intros [Hx|Hx]; [left; by apply Hyield|].
    destruct y; [|by apply elem_of_nil in Hx]. right.
    by rewrite (yield_abort_if_yield _ _ _ _ _ _ _ Hg).
Qed.

Lemma partition_loop {A} limit max lim (body : graph → Path → A → result A)
    g0 steps (w : walk A) w' :
  positive_limit lim →
  tree_inv g0 → walk_inv g0 w → partition_inv g0 w →
  dfs_loop limit (yield_abort_if limit max lim) body steps w = (w', Finished) →
  partition_inv g0 w' ∧ w_to_visit w' = [].
Proof.
  intros Hlim Htree. revert w. induction steps as [|steps IH]; intros w Hinv Hp; cbn.
  - destruct (pop (w_to_visit w)) as [[tv node]|] eqn:Hpop; [done|].
    intros [= <-]. by apply pop_None in Hpop.
  - destruct (pop (w_to_visit w)) as [[tv node]|] eqn:Hpop.
    2:{ intros [= <-]. by apply pop_None in Hpop. }
    apply pop_Some in Hpop.
    destruct (dfs_visit _ _ _ w tv node) as [w1 [e|]] eqn:Hv; [done|].
    apply IH.
    + eapply walk_inv_visit; [apply yield_abort_if_keeps_edges|done..].
    + by eapply partition_visit.
Qed.

Lemma zips_walk_partition limit steps g max lim :
  positive_limit lim → tree_inv g →
  (zips_walk limit steps g max lim).2 = Finished →
  partition_inv g (zips_walk limit steps g max lim).1 ∧
  w_to_visit (zips_walk limit steps g max lim).1 = [].
Proof.
  intros Hlim Htree. rewrite zips_walk_unfold.
  destruct (node_descendants limit g ROOT) as [[g1 d]|e] eqn:Hd; [|done].
  destruct (dfs_loop _ _ _ _ _) as [w st] eqn:Hloop. cbn [fst snd].
  intros ->. eapply partition_loop; [done..| | |exact Hloop].
  - apply walk_inv_init.
    by destruct (node_descendants_shape _ _ _ _ _ Hd) as [-> _].
  - split; cbn.
    + eapply leaves_kept_node_descendants; [done|]. apply leaves_kept_refl.
    + intros x Hx. left. exists ROOT. split; [by left|done].
    + intros x sz _ Hx. by apply elem_of_nil in Hx.
    + intros x Hx. by apply elem_of_nil in Hx.
Qed.

(** With the default thresholds and a manifest of one file of 100 GiB,
    the traversal finishes, the file is a leaf of the tree, and nothing is
    yielded: the leaf lies in the subtree of no yielded root. *)
Lemma oversized_leaf_uncovered :
  let g := sizes_to_graph big_manifest in
  let r := yield_zips 10 10 g DEFAULT_MAX_ZIP_SIZE DEFAULT_LIMIT_PER_TIB in
  zr_traversal r = Finished ∧
  leaf g (rel ["big"]) 107374182400 ∧
  rel ["big"] ∈ big_manifest.*1 ∧
  ¬ ∃ z, z ∈ zr_zips r ∧ below z (rel ["big"]).
Proof.
  cbn zeta. split; [by vm_compute|]. split; [by split; vm_compute|].
  split; [by left|]. intros (z & Hz & _).
  assert (zr_zips (yield_zips 10 10 (sizes_to_graph big_manifest)
                     DEFAULT_MAX_ZIP_SIZE DEFAULT_LIMIT_PER_TIB) = []) as E
    by (by vm_compute).
  rewrite E in Hz. by apply elem_of_nil in Hz.
Qed.

(** ** A second run over the cached aggregates *)

Lemma attrs_sim_refl a : attrs_sim a a.
Proof. by repeat split. Qed.

Lemma attrs_sim_trans a b c : attrs_sim a b → attrs_sim b c → attrs_sim a c.
Proof.
  intros (Hs1 & Hd1 & Hn1) (Hs2 & Hd2 & Hn2). split; [congruence|]. split.
  - intros Ht. rewrite Hd1 by done. apply Hd2. by rewrite <- Hs1.
  - by rewrite Hn1.
Qed.

Lemma similar_refl g : similar g g.
Proof.
  split; [done|]. intros m. destruct (nodes g !! m); [apply attrs_sim_refl|done].
Qed.

Lemma similar_trans g1 g2 g3 : similar g1 g2 → similar g2 g3 → similar g1 g3.
Proof.
  intros [Ha1 H1] [Ha2 H2]. split; [congruence|]. intros m.
  specialize (H1 m). specialize (H2 m).
  destruct (nodes g1 !! m), (nodes g2 !! m), (nodes g3 !! m); try done.
  by eapply attrs_sim_trans.
Qed.

Lemma similar_succs g1 g2 n : similar g1 g2 → succs g2 n = succs g1 n.
Proof. intros [Ha _]. unfold succs. by rewrite Ha. Qed.

Lemma similar_dom g1 g2 n :
  similar g1 g2 → is_Some (nodes g2 !! n) ↔ is_Some (nodes g1 !! n).
Proof.
  intros [_ H]. specialize (H n).
  destruct (nodes g1 !! n), (nodes g2 !! n); done.
Qed.

Lemma similar_csize g1 g2 n : similar g1 g2 → csize g2 n = csize g1 n.
Proof.
  intros [_ H]. specialize (H n). unfold csize.
  destruct (nodes g1 !! n), (nodes g2 !! n); try done.
  destruct H as [-> _]. done.
Qed.

Lemma similar_sum_csize g1 g2 l : similar g1 g2 → sum_csize g2 l = sum_csize g1 l.
Proof.
  intros H. unfold sum_csize. induction l as [|c l IH]; [done|]. cbn.
  by rewrite (similar_csize g1 g2 c H), IH.
Qed.

Lemma similar_stored g1 g2 n : similar g1 g2 → stored g1 n → stored g2 n.
Proof.
  intros H (s & d & Hn & Hz). pose proof H as [_ Hm]. specialize (Hm n).
  rewrite Hn in Hm. destruct (nodes g2 !! n) as [[s2 d2]|] eqn:E; [|done].
  destruct Hm as (Hs & _ & Hd). cbn in *. subst s2.
  destruct d2 as [d2|]; [|discriminate (proj2 Hd eq_refl)].
  exists s, d2. split; [done|].
  rewrite (similar_succs g1 g2 n H), (similar_sum_csize g1 g2 _ H). auto.
Qed.

Lemma stored_zero g n s d :
  nodes g !! n = Some (mkAttrs (Some s) (Some d)) → stored g n →
  s = 0 → sum_csize g (succs g n) = 0.
Proof.
  intros Hn (s' & d' & Hn' & Hsum) ->. rewrite Hn in Hn'. injection Hn' as <- <-.
  destruct (succs g n) as [|c l] eqn:E; [done|]. symmetry. by apply Hsum.
Qed.

Lemma similar_settled g1 g2 n :
  similar g1 g2 → settled_below g1 n → settled_below g2 n.
Proof.
  intros H Hs m Hb Hm. apply (similar_stored g1 g2 m H), Hs; [done|].
  by apply (similar_dom g1 g2 m H).
Qed.

Lemma similar_set_attrs g1 g2 n s d1 d2 :
  similar g1 g2 → (s ≠ 0 → d1 = d2) →
  similar (set_attrs g1 n s d1) (set_attrs g2 n s d2).
Proof.
  intros [Ha H] Hd. split; [done|]. intros m. cbn.
  destruct (decide (m = n)) as [->|Hne].
  - rewrite !lookup_insert_eq. split; [done|]. cbn. split; [|done].
    intros Ht. apply bool_decide_eq_true in Ht. by rewrite Hd.
  - rewrite !lookup_insert_ne by done. apply H.
Qed.

Lemma similar_set_zero g n d0 d :
  nodes g !! n = Some (mkAttrs (Some 0) (Some d0)) →
  similar g (set_attrs g n 0 d).
Proof.
  intros Hn. split; [done|]. intros m. cbn.
  destruct (decide (m = n)) as [->|Hne].
  - rewrite lookup_insert_eq, Hn. by repeat split.
  - rewrite lookup_insert_ne by done.
    destruct (nodes g !! m); [apply attrs_sim_refl|done].
Qed.

Lemma similar_zero_node g1 g2 n d1 :
  similar g1 g2 → nodes g1 !! n = Some (mkAttrs (Some 0) (Some d1)) →
  ∃ d2, nodes g2 !! n = Some (mkAttrs (Some 0) (Some d2)).
Proof.
  intros [_ H] Hn. specialize (H n). rewrite Hn in H.
  destruct (nodes g2 !! n) as [[s2 [d2|]]|]; try done.
  - destruct H as (Hs & _). cbn in Hs. subst s2. eauto.
  - destruct H as (_ & _ & Hd). discriminate (proj2 Hd eq_refl).
Qed.

Lemma settled_below_child g g0 n c :
  tree_inv g0 → adj g = adj g0 → c ∈ succs g n →
  settled_below g n → settled_below g c.
Proof.
  intros Htree Ha Hc Hs m Hb. apply Hs.
  assert (succs g n = succs g0 n) as E by (unfold succs; by rewrite Ha).
  rewrite E in Hc. destruct (inv_edge _ _ Htree n c Hc) as [_ ->].
  eapply below_trans; [apply below_parent|done].
Qed.

Section settled.
Variable g0 : graph.
Hypothesis Htree : tree_inv g0.

Lemma sum_children_settled (rec : graph → Path → result (graph * (Z * Z))) :
  (∀ g n g' s d, adj g = adj g0 → settled_below g n →
     rec g n = Ok (g', (s, d)) → s = csize g n ∧ similar g g') →
  ∀ children g s d g' s' d',
    adj g = adj g0 → (∀ c, c ∈ children → settled_below g c) →
    sum_children rec g children s d = Ok (g', (s', d')) →
    s' = s + sum_csize g children ∧ similar g g'.
Proof.
  intros Hrec children.
  induction children as [|c children IH]; intros g s d g' s' d' Ha Hset.
  - cbn. intros [= -> -> ->]. split; [unfold sum_csize; cbn; lia | apply similar_refl].
  - cbn. destruct (rec g c) as [[g1 [cs cd]]|e] eqn:Hc; [|done]. cbn.
    intros H. destruct (Hrec _ _ _ _ _ Ha (Hset c (list_elem_of_here _ _)) Hc)
      as [-> Hsim].
    apply IH in H as [-> Hsim'].
    + split; [|by eapply similar_trans].
      rewrite (similar_sum_csize g g1 _ Hsim). unfold sum_csize. cbn. lia.
    + destruct Hsim as [-> _]. done.
    + intros c' Hc'. apply (similar_settled g g1 c' Hsim), Hset. by right.
Qed.

Lemma size_descendants_settled limit g n g' s d :
  adj g = adj g0 → settled_below g n →
  size_descendants limit g n = Ok (g', (s, d)) →
  s = csize g n ∧ similar g g'.
Proof.
  revert g n g' s d.
  induction limit as [|limit IH]; intros g n g' s d Ha Hset; [done|].
  cbn. destruct (nodes g !! n) as [data|] eqn:Hn; [|done].
  assert (stored g n) as Hst by (apply Hset; [apply below_refl | by rewrite Hn]).
  pose proof Hst as (s0 & d0 & Hn' & _).
  rewrite Hn in Hn'. injection Hn' as ->.
  pose proof (stored_zero g n s0 d0 Hn Hst) as Hz. cbn.
  unfold csize. rewrite Hn. cbn.
  destruct (bool_decide (s0 ≠ 0)) eqn:Hs0; cbn.
  - intros [= <- <- <-]. split; [done | apply similar_refl].
  - apply bool_decide_eq_false in Hs0. assert (s0 = 0) as -> by lia.
    unfold successors. rewrite (proj2 (has_node_true g n)) by eauto. cbn.
    destruct (sum_children _ _ _ _ _) as [[g1 [s1 d1]]|e] eqn:Hs; [|done]. cbn.
    intros [= <- <- <-].
    apply (sum_children_settled _ IH) in Hs as [-> Hsim]; [|done|].
    + unfold or_zero. cbn. rewrite (Hz eq_refl). split; [done|].
      eapply similar_trans; [done|].
      destruct (similar_zero_node g g1 n d0 Hsim Hn) as [d2 Hn2].
      by eapply similar_set_zero.
    + intros c Hc. by eapply settled_below_child.
Qed.
End settled.

Section similar.
Variable g0 : graph.
Hypothesis Htree : tree_inv g0.

Lemma sum_children_similar (rec : graph → Path → result (graph * (Z * Z))) :
  (∀ g n g' s d, adj g = adj g0 → settled_below g n →
     rec g n = Ok (g', (s, d)) → s = csize g n ∧ similar g g') →
  (∀ g1 g2 n g1' s d1, adj g1 = adj g0 → similar g1 g2 → settled_below g1 n →
     rec g1 n = Ok (g1', (s, d1)) →
     ∃ g2' d2, rec g2 n = Ok (g2', (s, d2)) ∧ similar g1' g2' ∧
               (s ≠ 0 → d2 = d1)) →
  ∀ children g1 g2 s d1 d2 g1' s' d1',
    adj g1 = adj g0 → similar g1 g2 →
    (∀ c, c ∈ children → settled_below g1 c) →
    sum_children rec g1 children s d1 = Ok (g1', (s', d1')) →
    ∃ g2' d2', sum_children rec g2 children s d2 = Ok (g2', (s', d2')) ∧
               similar g1' g2'.
Proof.
  intros Hval Hrec children.
  induction children as [|c children IH];
    intros g1 g2 s d1 d2 g1' s' d1' Ha Hsim Hset.
  - cbn. intros [= -> -> ->]. eauto.
  - cbn. destruct (rec g1 c) as [[ga [cs cd]]|e] eqn:Hc; [|done]. cbn.
    intros H. pose proof (Hset c (list_elem_of_here _ _)) as Hsc.
    destruct (Hval _ _ _ _ _ Ha Hsc Hc) as [_ Hstep].
    destruct (Hrec _ _ _ _ _ _ Ha Hsim Hsc Hc) as (gb & cd' & -> & Hsim' & _).
    cbn. eapply IH; [| done | | done].
    + destruct Hstep as [-> _]. done.
    + intros c' Hc'. apply (similar_settled g1 ga c' Hstep), Hset. by right.
Qed.

Lemma size_descendants_similar limit g1 g2 n g1' s d1 :
  adj g1 = adj g0 → similar g1 g2 → settled_below g1 n →
  size_descendants limit g1 n = Ok (g1', (s, d1)) →
  ∃ g2' d2, size_descendants limit g2 n = Ok (g2', (s, d2)) ∧
            similar g1' g2' ∧ (s ≠ 0 → d2 = d1).
Proof.
  revert g1 g2 n g1' s d1.
  induction limit as [|limit IH]; intros g1 g2 n g1' s d1 Ha Hsim Hset; [done|].
  cbn. destruct (nodes g1 !! n) as [data|] eqn:Hn; [|done].
  assert (stored g1 n) as Hst by (apply Hset; [apply below_refl | by rewrite Hn]).
  pose proof Hst as (s0 & d0 & Hn' & _).
  rewrite Hn in Hn'. injection Hn' as ->.
  pose proof (stored_zero g1 n s0 d0 Hn Hst) as Hz. cbn.
  pose proof Hsim as [_ Hm]. specialize (Hm n). rewrite Hn in Hm.
  destruct (nodes g2 !! n) as [[s2 d2]|] eqn:Hn2; [|done].
  destruct Hm as (Hs2 & Hd2 & Hnone). cbn in Hs2, Hd2, Hnone. subst s2. cbn.
  destruct (bool_decide (s0 ≠ 0)) eqn:Hs0; cbn.
  - intros [= <- <- <-]. rewrite <- Hd2 by done. cbn. eauto.
  - apply bool_decide_eq_false in Hs0. assert (s0 = 0) as -> by lia.
    rewrite orb_true_r.
    unfold successors. rewrite (proj2 (has_node_true g1 n)) by eauto.
    rewrite (proj2 (has_node_true g2 n)) by eauto. cbn.
    rewrite (similar_succs g1 g2 n Hsim).
    destruct (sum_children _ g1 _ _ _) as [[ga [sa da]]|e] eqn:Hsum; [|done].
    cbn. intros [= <- <- <-].
    assert (∀ c, c ∈ succs g1 n → settled_below g1 c) as Hch
      by (intros c Hc; by eapply settled_below_child).
    destruct (sum_children_settled g0 _
                (size_descendants_settled g0 Htree limit)
                _ _ _ _ _ _ _ Ha Hch Hsum) as [Hsa _].
    rewrite (Hz eq_refl) in Hsa. unfold or_zero in Hsa. cbn in Hsa. subst sa.
    destruct (sum_children_similar _
                (size_descendants_settled g0 Htree limit) IH
                _ _ g2 _ _ (or_zero d2) _ _ _ Ha Hsim Hch Hsum)
      as (gb & db & Hsum2 & Hsimab).
    unfold or_zero at 1. cbn. unfold or_zero at 1 in Hsum2. cbn in Hsum2.
    rewrite Hsum2. cbn. eexists _, _. split; [done|].
    split; [|done]. by apply similar_set_attrs.
Qed.
End similar.

(** ** What a call leaves alone *)

Lemma child_below g0 g u v :
  tree_inv g0 → adj g = adj g0 → v ∈ succs g u → below u v ∧ u ≠ v.
Proof.
  intros Htree Ha Hv.
  assert (succs g u = succs g0 u) as E by (unfold succs; by rewrite Ha).
  rewrite E in Hv. destruct (inv_edge _ _ Htree u v Hv) as [Hne ->].
  split; [apply below_parent | by apply parent_ne].
Qed.

Lemma sum_children_frame g0 (rec : graph → Path → result (graph * (Z * Z))) :
  (∀ g n g' r, adj g = adj g0 → rec g n = Ok (g', r) →
     adj g' = adj g ∧ ∀ m, ¬ below n m → nodes g' !! m = nodes g !! m) →
  ∀ children g s d g' r,
    adj g = adj g0 →
    sum_children rec g children s d = Ok (g', r) →
    adj g' = adj g ∧
    ∀ m, (∀ c, c ∈ children → ¬ below c m) → nodes g' !! m = nodes g !! m.
Proof.
  intros Hrec children.
  induction children as [|c children IH]; intros g s d g' r Ha.
  - cbn. by intros [= -> _].
  - cbn. destruct (rec g c) as [[g1 [cs cd]]|e] eqn:Hc; [|done]. cbn.
    intros H. destruct (Hrec _ _ _ _ Ha Hc) as [Ha1 Hf1].
    apply IH in H as [Ha2 Hf2]; [|congruence].
    split; [congruence|]. intros m Hm.
    rewrite Hf2, Hf1; [done| |].
    + apply Hm. by left.
    + intros c' Hc'. apply Hm. by right.
Qed.

Lemma size_descendants_frame g0 limit g n g' r :
  tree_inv g0 → adj g = adj g0 →
  size_descendants limit g n = Ok (g', r) →
  adj g' = adj g ∧ ∀ m, ¬ below n m → nodes g' !! m = nodes g !! m.
Proof.
  intros Htree. revert g n g' r.
  induction limit as [|limit IH]; intros g n g' r Ha; [done|].
  cbn. destruct (nodes g !! n) as [data|] eqn:Hn; [|done].
  destruct (_ || _).
  - unfold successors. rewrite (proj2 (has_node_true g n)) by eauto. cbn.
    destruct (sum_children _ _ _ _ _) as [[g1 [s d]]|e] eqn:Hs; [|done]. cbn.
    intros [= <- _].
    apply (sum_children_frame g0 _ IH) in Hs as [Ha1 Hf1]; [|done].
    split; [done|]. intros m Hm. cbn.
    rewrite lookup_insert_ne.
    2:{ intros ->. apply Hm, below_refl. }
    apply Hf1. intros c Hc Hb. apply Hm.
    destruct (child_below g0 g n c Htree Ha Hc) as [Hnc _].
    by eapply below_trans.
  - by intros [= -> _].
Qed.

Lemma size_descendants_returned limit g n g' s d :
  size_descendants limit g n = Ok (g', (s, d)) →
  nodes g' !! n = Some (mkAttrs (Some s) (Some d)).
Proof.
  destruct limit as [|limit]; [done|].
  cbn. destruct (nodes g !! n) as [[s0 d0]|] eqn:Hn; [|done]. cbn.
  destruct (_ || _) eqn:Hc.
  - destruct (successors g n); [|done]. cbn.
    destruct (sum_children _ _ _ _ _) as [[g1 [s1 d1]]|e]; [|done]. cbn.
    intros [= <- <- <-]. cbn. by rewrite lookup_insert_eq.
  - intros [= <- <- <-]. apply orb_false_iff in Hc as [Hd Hs].
    apply bool_decide_eq_false in Hd. apply negb_false_iff in Hs.
    destruct s0 as [s0|]; [|done]. destruct d0 as [d0|]; [|done]. done.
Qed.

(** ** The first pass over a tree of files *)

Lemma below_parent_of n m : below n m → n ≠ m → tail m ≠ [] ∧ below n (parent m).
Proof.
  intros [Hr [k Hk]] Hne. destruct n as [rn tn], m as [rm tm]. cbn in *. subst.
  destruct (decide (k = [])) as [->|Hk].
  { rewrite app_nil_r in Hne. done. }
  split; [by destruct tn, k|]. split; [done|]. cbn.
  destruct (exists_last Hk) as (k' & x & ->).
  exists k'. rewrite app_assoc, length_app. cbn.
  replace (length (tn ++ k') + 1 - 1)%nat with (length (tn ++ k')) by lia.
  by rewrite take_app_length.
Qed.

Lemma tree_inv_child_below g n m :
  tree_inv g → is_Some (nodes g !! m) → below n m → n ≠ m →
  ∃ c, c ∈ succs g n ∧ below c m.
Proof.
  intros Htree. remember (length (tail m)) as k eqn:Hk.
  revert m Hk. induction k as [|k IH]; intros m Hk Hm Hb Hne.
  - destruct (below_parent_of n m Hb Hne) as [Ht _]. by destruct (tail m).
  - destruct (below_parent_of n m Hb Hne) as [Ht Hbp].
    destruct (tree_inv_parent g m Htree Hm Ht) as [He Hp].
    destruct (decide (n = parent m)) as [->|Hnp].
    + exists m. split; [done | apply below_refl].
    + destruct (IH (parent m)) as (c & Hc & Hcb); try done.
      { rewrite parent_length. lia. }
      exists c. split; [done|].
      eapply below_trans; [done | apply below_parent].
Qed.

Lemma sum_csize_ext g g' l :
  (∀ c, c ∈ l → nodes g' !! c = nodes g !! c) → sum_csize g' l = sum_csize g l.
Proof.
  unfold sum_csize. induction l as [|c l IH]; intros H; [done|]. cbn.
  rewrite IH by (intros c' Hc'; apply H; by right).
  unfold csize. rewrite (H c) by (by left). done.
Qed.

Lemma settled_below_frame g0 g g' c :
  tree_inv g0 → adj g = adj g0 → adj g' = adj g →
  (∀ m, below c m → nodes g' !! m = nodes g !! m) →
  settled_below g c → settled_below g' c.
Proof.
  intros Htree Ha Ha' Hf Hs m Hb Hm.
  rewrite (Hf m Hb) in Hm. destruct (Hs m Hb Hm) as (s & d & Hn & Hz).
  exists s, d. split; [by rewrite Hf|].
  assert (succs g' m = succs g m) as -> by (unfold succs; by rewrite Ha').
  intros Hs0. rewrite (Hz Hs0). symmetry. apply sum_csize_ext. intros x Hx. apply Hf.
  destruct (child_below g0 g m x Htree Ha Hx) as [Hmx _].
  by eapply below_trans.
Qed.

Lemma siblings_disjoint c c' m :
  tail c ≠ [] → tail c' ≠ [] → parent c = parent c' →
  below c m → below c' m → c = c'.
Proof.
  intros Hc Hc' Hp Hb Hb'.
  destruct (below_comparable c c' m Hb Hb') as [H|H].
  - by apply siblings_below.
  - symmetry. by apply siblings_below.
Qed.

Section first_pass.
Variable g0 : graph.
Hypothesis Htree : tree_inv g0.
Hypothesis Hfiles : files_only g0.

Lemma sum_children_fresh (rec : graph → Path → result (graph * (Z * Z))) n :
  (∀ g c g' s d, adj g = adj g0 → fresh_below g0 g c →
     rec g c = Ok (g', (s, d)) →
     settled_below g' c ∧ adj g' = adj g ∧
     (∀ m, ¬ below c m → nodes g' !! m = nodes g !! m) ∧
     nodes g' !! c = Some (mkAttrs (Some s) (Some d))) →
  ∀ l g s d g' s' d',
    adj g = adj g0 → NoDup l →
    (∀ c, c ∈ l → tail c ≠ [] ∧ n = parent c) →
    (∀ c, c ∈ l → fresh_below g0 g c) →
    sum_children rec g l s d = Ok (g', (s', d')) →
    (∀ c, c ∈ l → settled_below g' c) ∧ s' = s + sum_csize g' l ∧
    adj g' = adj g ∧
    (∀ m, (∀ c, c ∈ l → ¬ below c m) → nodes g' !! m = nodes g !! m).
Proof.
  intros Hrec l.
  induction l as [|c l IH]; intros g s d g' s' d' Ha Hnd Hsib Hfresh.
  - cbn. intros [= -> -> ->]. unfold sum_csize. cbn.
    repeat split; [|lia]. intros c Hc. by apply elem_of_nil in Hc.
  - cbn. destruct (rec g c) as [[g1 [cs cd]]|e] eqn:Hc; [|done]. cbn.
    intros H. apply NoDup_cons in Hnd as [Hcl Hnd].
    destruct (Hsib c (list_elem_of_here _ _)) as [Hct Hcp].
    destruct (Hrec _ _ _ _ _ Ha (Hfresh c (list_elem_of_here _ _)) Hc)
      as (Hset1 & Ha1 & Hf1 & Hn1).
    assert (∀ c' m, c' ∈ l → below c' m → ¬ below c m) as Hdis.
    { intros c' m Hc' Hb' Hb. destruct (Hsib c') as [Hct' Hcp']; [by right|].
      assert (c = c') as -> by (eapply siblings_disjoint; [..|done|done];
                                  congruence).
      done. }
    apply IH in H as (Hset' & -> & Ha' & Hf'); try done.
    + split; [|split; [|split]].
      * intros x Hx. apply elem_of_cons in Hx as [->|Hx]; [|by apply Hset'].
        eapply (settled_below_frame g0 g1); [done|congruence|done| |done].
        intros m Hb. apply Hf'. intros c' Hc' Hb'. by eapply Hdis.
      * change (sum_csize g' (c :: l)) with (csize g' c + sum_csize g' l).
        assert (csize g' c = cs) as ->; [|unfold sum_csize; lia].
        unfold csize. rewrite Hf', Hn1; [done|].
        intros c' Hc' Hb'. eapply Hdis; [done..|apply below_refl].
      * congruence.
      * intros m Hm. rewrite Hf', Hf1; [done| |].
        -- apply Hm. by left.
        -- intros c' Hc'. apply Hm. by right.
    + congruence.
    + intros c' Hc'. apply Hsib. by right.
    + intros c' Hc' m Hb. rewrite Hf1 by (by eapply Hdis).
      apply (Hfresh c'); [by right | done].
Qed.

Lemma size_descendants_fresh limit g n g' s d :
  adj g = adj g0 → fresh_below g0 g n →
  size_descendants limit g n = Ok (g', (s, d)) →
  settled_below g' n.
Proof.
  revert g n g' s d.
  induction limit as [|limit IH]; intros g n g' s d Ha Hfresh H; [done|].
  assert (succs g n = succs g0 n) as E by (unfold succs; by rewrite Ha).
  pose proof (Hfresh n (below_refl n)) as Hn0.
  destruct (nodes g !! n) as [data|] eqn:Hn; [|by cbn in H; rewrite Hn in H].
  symmetry in Hn0. destruct (Hfiles n data Hn0) as [->|[[sz ->] Hleaf]].
  - cbn in H. rewrite Hn in H. cbn in H.
    unfold successors in H. rewrite (proj2 (has_node_true g n)) in H by eauto.
    cbn in H.
    destruct (sum_children _ _ _ _ _) as [[g1 [s1 d1]]|e] eqn:Hs; [|done].
    cbn in H. injection H as <- <- <-.
    pose proof (sum_children_shape _ (size_descendants_shape limit) _ _ _ _ _ _ Hs)
      as (_ & _ & Hdom).
    apply (sum_children_fresh _ n) in Hs as (Hset & Hs1 & Ha1 & Hf1); try done.
    + intros m Hb Hm. destruct (decide (m = n)) as [->|Hne].
      * exists s1, d1. split; [cbn; by rewrite lookup_insert_eq|]. intros _.
        assert (succs (set_attrs g1 n s1 d1) n = succs g n) as ->
          by (unfold succs; cbn; by rewrite Ha1).
        rewrite (sum_csize_ext g1); [unfold or_zero in Hs1; cbn in Hs1; lia|].
        intros c Hc. cbn. rewrite lookup_insert_ne; [done|].
        destruct (child_below g0 g n c Htree Ha Hc) as [_ Hnc]. done.
      * cbn in Hm. rewrite lookup_insert_ne in Hm by done.
        pose proof Hm as Hm1.
        apply Hdom in Hm. rewrite (Hfresh m Hb) in Hm.
        destruct (tree_inv_child_below g0 n m Htree Hm Hb (not_eq_sym Hne))
          as (c & Hc & Hcb).
        rewrite <- E in Hc.
        eapply (settled_below_frame g0 g1 _ c); [done|congruence|done| | |done|].
        -- intros m' Hb'. cbn. rewrite lookup_insert_ne; [done|].
           intros Heq. subst m'.
           destruct (child_below g0 g n c Htree Ha Hc) as [Hnc Hne'].
           apply Hne'. by apply below_antisym.
        -- by apply Hset.
        -- cbn. by rewrite lookup_insert_ne.
    + intros g2 c g2' s2 d2 Ha2 Hf2 Hc.
      destruct (size_descendants_frame g0 limit g2 c g2' _ Htree Ha2 Hc)
        as [Ha3 Hf3].
      split; [by eapply IH|]. split; [done|]. split; [done|].
      by eapply size_descendants_returned.
    + rewrite E. apply (inv_nodup _ _ Htree).
    + intros c Hc. rewrite E in Hc. apply (inv_edge _ _ Htree n c Hc).
    + intros c Hc m Hb. apply Hfresh.
      destruct (child_below g0 g n c Htree Ha Hc) as [Hnc _].
      by eapply below_trans.
  - rewrite (size_descendants_leaf limit g n sz) in H by (split; congruence).
    injection H as <- <- <-. intros m Hb Hm.
    destruct (decide (m = n)) as [->|Hne].
    + exists sz, 0. split; [done|]. by rewrite E, Hleaf.
    + rewrite (Hfresh m Hb) in Hm.
      destruct (tree_inv_child_below g0 n m Htree Hm Hb (not_eq_sym Hne))
        as (c & Hc & _).
      rewrite Hleaf in Hc. by apply elem_of_nil in Hc.
Qed.
End first_pass.

(** ** Trees of files *)

Lemma built_from_empty ps : built_from ps empty_graph.
Proof.
  split.
  - intros n a. cbn. by rewrite lookup_empty.
  - intros u v. unfold succs. cbn. rewrite lookup_empty. cbn.
    intros H. by apply elem_of_nil in H.
Qed.

Lemma built_from_add_node ps g p sz :
  p ∈ ps → built_from ps g → built_from ps (add_node g p sz).
Proof.
  intros Hp [Hn He]. split; [|done]. intros n a. cbn.
  destruct (decide (n = p)) as [->|Hne].
  - rewrite lookup_insert_eq. intros [= <-]. right. eauto.
  - rewrite lookup_insert_ne by done. apply Hn.
Qed.

Lemma ensure_node_attrs ns n w a :
  ensure_node ns n !! w = Some a → ns !! w = Some a ∨ a = mkAttrs None None.
Proof.
  unfold ensure_node. destruct (ns !! n); [by left|].
  destruct (decide (w = n)) as [->|Hne].
  - rewrite lookup_insert_eq. intros [= <-]. by right.
  - rewrite lookup_insert_ne by done. by left.
Qed.

Lemma built_from_add_edge ps g u v q :
  q ∈ ps → below v q → built_from ps g → built_from ps (add_edge g u v).
Proof.
  intros Hq Hb [Hn He]. split.
  - intros n a. cbn. intros H.
    apply ensure_node_attrs in H as [H| ->]; [|by left].
    apply ensure_node_attrs in H as [H| ->]; [|by left]. by apply Hn.
  - intros x y Hy. apply add_edge_succs_elem in Hy as [Hy|[-> ->]]; eauto.
Qed.

Lemma built_from_link ps g td c pl q :
  q ∈ ps → below c q → Forall (λ x, below x q) pl →
  built_from ps g → built_from ps (link_parents g td c pl).1.
Proof.
  intros Hq. revert g td c.
  induction pl as [|p pl IH]; intros g td c Hb Hpl H; [done|].
  cbn [link_parents]. apply Forall_cons in Hpl as [Hp Hpl].
  destruct (has_node g p).
  - by eapply built_from_add_edge.
  - apply IH; [done..|]. by eapply built_from_add_edge.
Qed.

Lemma built_from_foldl ps m st :
  Forall (λ r, r.1 ∈ ps) m →
  built_from ps st.1.1 → built_from ps (foldl add_record st m).1.1.
Proof.
  revert st. induction m as [|[p sz] m IH]; intros [[g ts] td] Hm H; [done|].
  apply Forall_cons in Hm as [Hp Hm]. cbn in Hp.
  cbn [foldl]. apply IH; [done|]. cbn.
  pose proof (built_from_link ps (add_node g p sz) (td + 1) p (parents p) p Hp
                (below_refl p)) as Hl.
  destruct (link_parents _ _ _ _) as [g' td']. apply Hl.
  - apply Forall_forall. intros x Hx. by apply below_parents.
  - by apply built_from_add_node.
Qed.

Lemma sizes_to_graph_built_from m : built_from m.*1 (sizes_to_graph m).
Proof.
  assert (built_from m.*1 (build m).1.1) as [Hn He].
  { apply (built_from_foldl _ m (empty_graph, 0, 0)); [|apply built_from_empty].
    apply Forall_forall. intros r Hr. by apply list_elem_of_fmap_2. }
  split; intros *; rewrite ?sizes_to_graph_succs, ?sizes_to_graph_nodes; eauto.
Qed.

Lemma sizes_to_graph_files_only m :
  records_are_leaves m.*1 → files_only (sizes_to_graph m).
Proof.
  intros Hleaves n a Hn.
  destruct (sizes_to_graph_built_from m) as [Hattr Hedge].
  destruct (Hattr n a Hn) as [->|[Hsz Hin]]; [by left|]. right.
  split; [done|].
  destruct (succs (sizes_to_graph m) n) as [|v l] eqn:E; [done|].
  assert (v ∈ succs (sizes_to_graph m) n) as Hv by (rewrite E; by left).
  destruct (Hedge n v Hv) as (p & Hp & Hb).
  destruct (child_below _ _ n v (sizes_to_graph_inv m) eq_refl Hv) as [Hnv Hne].
  assert (n = p) as -> by (apply Hleaves; [done..|by eapply below_trans]).
  destruct Hne. by apply below_antisym.
Qed.

(** ** Two runs over the same tree *)

Lemma density_zero_raises d : ∃ e, density d 0 = Raise e.
Proof. unfold density. cbn. destruct (float_of_int d) as [x|e]; cbn; eauto. Qed.

Lemma zips_body_returned g node acc s d :
  nodes g !! node = Some (mkAttrs (Some s) (Some d)) →
  ∃ acc', zips_body g node acc = Ok acc'.
Proof. intros Hn. destruct acc as [zips c]. unfold zips_body. rewrite Hn. cbn. eauto. Qed.

Lemma settled_below_root g n :
  relative n → settled_below g ROOT → settled_below g n.
Proof.
  intros Hn Hs m Hb. apply Hs. split; [|apply prefix_nil].
  cbn. symmetry. by apply (below_relative_r n m).
Qed.

Lemma dfs_visit_called {A} limit max lim (body : graph → Path → A → result A)
    (w : walk A) tv node w' :
  dfs_visit limit (yield_abort_if limit max lim) body w tv node = (w', None) →
  ∃ g s d, size_descendants limit (w_graph w) node = Ok (g, (s, d)).
Proof.
  unfold dfs_visit, yield_abort_if.
  destruct (size_descendants limit (w_graph w) node) as [[g [s d]]|e]; [eauto|].
  cbn. discriminate.
Qed.

Section two_runs.
Variable g0 : graph.
Hypothesis Htree : tree_inv g0.
Variables (limit : nat) (max : Z) (lim : number).

Lemma node_descendants_similar g1 g2 n g1' d1 :
  adj g1 = adj g0 → similar g1 g2 → settled_below g1 n →
  node_descendants limit g1 n = Ok (g1', d1) →
  ∃ g2' d2, node_descendants limit g2 n = Ok (g2', d2) ∧
            similar g1' g2' ∧ similar g1 g1'.
Proof.
  intros Ha Hsim Hset. unfold node_descendants.
  destruct (size_descendants limit g1 n) as [[ga [s da]]|e] eqn:Hsd; [|done].
  cbn. intros [= <- <-].
  destruct (size_descendants_similar g0 Htree _ _ _ _ _ _ _ Ha Hsim Hset Hsd)
    as (gb & db & -> & Hsimab & _).
  destruct (size_descendants_settled g0 Htree _ _ _ _ _ _ Ha Hset Hsd)
    as [_ Hstep].
  cbn. eauto.
Qed.

Lemma zips_visit_similar (w1 w2 : walk (list Path * counters)) tv node w1' :
  walk_inv g0 w1 → w_to_visit w1 = tv ++ [node] →
  settled_below (w_graph w1) ROOT →
  similar (w_graph w1) (w_graph w2) →
  w_log w2 = w_log w1 → w_visited w2 = w_visited w1 →
  dfs_visit limit (yield_abort_if limit max lim) zips_body w1 tv node
    = (w1', None) →
  ∃ w2', dfs_visit limit (yield_abort_if limit max lim) zips_body w2 tv node
           = (w2', None) ∧
         similar (w_graph w1') (w_graph w2') ∧
         w_to_visit w2' = w_to_visit w1' ∧ w_log w2' = w_log w1' ∧
         w_visited w2' = w_visited w1' ∧
         similar (w_graph w1) (w_graph w1').
Proof.
  intros Hinv Hstack Hset Hsim Hlog Hvis Hv.
  pose proof (wi_adj _ _ Hinv) as Ha.
  assert (relative node) as Hrel.
  { pose proof (wi_stack_rel _ _ Hinv) as Hr. rewrite Hstack in Hr.
    apply Forall_app in Hr as [_ Hr]. by rewrite Forall_singleton in Hr. }
  pose proof (settled_below_root _ _ Hrel Hset) as Hsn.
  destruct (dfs_visit_called _ _ _ _ _ _ _ _ Hv) as (ga & s & d1 & Hsd).
  destruct (size_descendants_settled g0 Htree _ _ _ _ _ _ Ha Hsn Hsd)
    as [Hs Hstep].
  destruct (size_descendants_similar g0 Htree _ _ _ _ _ _ _ Ha Hsim Hsn Hsd)
    as (gb & d2 & Hsd2 & Hsimab & Hd).
  pose proof (size_descendants_returned _ _ _ _ _ _ Hsd2) as Hret2.
  assert (adj ga = adj g0) as Haa by (destruct Hstep as [-> _]; done).
  pose proof (similar_settled _ _ _ Hstep Hsn) as Hsna.
  unfold dfs_visit in Hv |- *.
  rewrite (yield_abort_if_Ok _ _ _ _ _ _ _ _ Hsd) in Hv.
  rewrite (yield_abort_if_Ok _ _ _ _ _ _ _ _ Hsd2).
  destruct (bool_decide (s < max)) eqn:Hlt.
  - destruct (zips_body ga node (w_acc w1)) as [acc1|e] eqn:Hb1; [|done].
    destruct (zips_body_returned gb node (w_acc w2) s d2 Hret2) as [acc2 ->].
    destruct (node_descendants limit ga node) as [[ga' da]|e] eqn:Hnd; [|done].
    injection Hv as <-.
    destruct (node_descendants_similar _ _ _ _ _ Haa Hsimab Hsna Hnd)
      as (gb' & db & -> & Hsim' & Hstep').
    eexists. split; [done|]. cbn. rewrite Hlog, Hvis.
    do 4 (split; [done|]). by eapply similar_trans.
  - destruct (density d1 s) as [q|e] eqn:Hden; [|done].
    assert (s ≠ 0) as Hs0.
    { intros ->. destruct (density_zero_raises d1) as [e He]. congruence. }
    rewrite (Hd Hs0), Hden.
    destruct (float_lt q lim).
    + destruct (node_descendants limit ga node) as [[ga' da]|e] eqn:Hnd; [|done].
      injection Hv as <-.
      destruct (node_descendants_similar _ _ _ _ _ Haa Hsimab Hsna Hnd)
        as (gb' & db & -> & Hsim' & Hstep').
      eexists. split; [done|]. cbn. rewrite Hlog, Hvis.
      do 4 (split; [done|]). by eapply similar_trans.
    + unfold successors in Hv |- *.
      destruct (has_node ga node) eqn:Hh; [|done]. injection Hv as <-.
      rewrite (proj2 (has_node_true gb node))
        by (apply (similar_dom ga gb node Hsimab); by apply has_node_true).
      eexists. split; [done|]. cbn.
      rewrite Hlog, Hvis, (similar_succs ga gb node Hsimab). done.
Qed.

Lemma zips_loop_similar steps (w1 w2 : walk (list Path * counters)) w1' :
  walk_inv g0 w1 → settled_below (w_graph w1) ROOT →
  similar (w_graph w1) (w_graph w2) →
  w_to_visit w2 = w_to_visit w1 → w_log w2 = w_log w1 →
  w_visited w2 = w_visited w1 →
  dfs_loop limit (yield_abort_if limit max lim) zips_body steps w1
    = (w1', Finished) →
  ∃ w2', dfs_loop limit (yield_abort_if limit max lim) zips_body steps w2
           = (w2', Finished) ∧
         w_log w2' = w_log w1' ∧ w_visited w2' = w_visited w1' ∧
         similar (w_graph w1) (w_graph w1') ∧
         similar (w_graph w1') (w_graph w2').
Proof.
  revert w1 w2.
  induction steps as [|steps IH]; intros w1 w2 Hinv Hset Hsim Hst Hlog Hvis; cbn;
    rewrite Hst.
  - destruct (pop (w_to_visit w1)) as [[tv node]|]; [done|].
    intros [= <-]. eexists. split; [done|]. do 2 (split; [done|]).
    split; [apply similar_refl | done].
  - destruct (pop (w_to_visit w1)) as [[tv node]|] eqn:Hpop.
    2:{ intros [= <-]. eexists. split; [done|]. do 2 (split; [done|]).
        split; [apply similar_refl | done]. }
    apply pop_Some in Hpop.
    destruct (dfs_visit _ _ _ w1 tv node) as [wa [e|]] eqn:Hv; [done|].
    intros Hloop.
    destruct (zips_visit_similar w1 w2 tv node wa Hinv Hpop Hset Hsim Hlog Hvis Hv)
      as (wb & -> & Hsimab & Hst' & Hlog' & Hvis' & Hstep).
    destruct (IH wa wb) as (w2' & -> & ? & ? & Hstep' & ?); try done.
    + eapply walk_inv_visit; [apply yield_abort_if_keeps_edges|done..].
    + by eapply similar_settled.
    + eexists. split; [done|]. split; [congruence|]. split; [congruence|].
      split; [by eapply similar_trans | done].
Qed.
End two_runs.

Lemma records_are_leaves_dec ps :
  Forall (λ p, Forall (λ q, below p q → p = q) ps) ps → records_are_leaves ps.
Proof.
  intros H p q Hp Hq. rewrite Forall_forall in H. specialize (H p Hp).
  rewrite Forall_forall in H. by apply H.
Qed.



(** ** Calls of [size_descendants] *)

Lemma sum_children_mono (rec rec' : graph → Path → result (graph * (Z * Z))) :
  (∀ g n r, rec g n = Ok r → rec' g n = Ok r) →
  ∀ children g s d r,
    sum_children rec g children s d = Ok r →
    sum_children rec' g children s d = Ok r.
Proof.
  intros Hrec children.
  induction children as [|c children IH]; intros g s d r; [done|].
  cbn. destruct (rec g c) as [[g1 [cs cd]]|e] eqn:Hc; [|done].
  rewrite (Hrec _ _ _ Hc). cbn. apply IH.
Qed.

(** X2: a call of [size_descendants] on a tree changes nothing but the
    attributes of nodes in the subtree of its argument: the edges, the
    graph attributes, the set of nodes and the attributes of every node
    outside that subtree are as before. *)
Theorem size_descendants_stays_in_subtree g limit n g' r :
  tree_inv g →
  size_descendants limit g n = Ok (g', r) →
  adj g' = adj g ∧ graph_attrs g' = graph_attrs g ∧
  (∀ w, is_Some (nodes g' !! w) ↔ is_Some (nodes g !! w)) ∧
  (∀ m, ¬ below n m → nodes g' !! m = nodes g !! m).
Proof.
  intros Htree H.
  destruct (size_descendants_shape _ _ _ _ _ H) as (Ha & Hg & Hd).
  destruct (size_descendants_frame g limit g n g' r Htree eq_refl H) as [_ Hf].
  done.
Qed.

Lemma size_descendants_stays_in_subtree_witness :
  let g := sizes_to_graph example_manifest in
  let g' := graph_after 10 g (rel ["a"]) in
  size_descendants 10 g (rel ["a"]) = Ok (g', (100, 2)) ∧
  adj g' = adj g ∧ graph_attrs g' = graph_attrs g ∧
  (∀ w, is_Some (nodes g' !! w) ↔ is_Some (nodes g !! w)) ∧
  (∀ m, ¬ below (rel ["a"]) m → nodes g' !! m = nodes g !! m).
Proof.
  cbn zeta. split; [by vm_compute|].
  apply (size_descendants_stays_in_subtree _ 10 (rel ["a"]) _ (100, 2)).
  - apply sizes_to_graph_inv.
  - by vm_compute.
Defined.

(** X3: a call that returns stores the pair it returns on the node; when
    the size is not 0, a later call returns the same pair without changing
    the graph, at any depth of recursion left. *)
Theorem size_descendants_caches limit g n g' s d :
  size_descendants limit g n = Ok (g', (s, d)) →
  nodes g' !! n = Some (mkAttrs (Some s) (Some d)) ∧
  (s ≠ 0 → ∀ limit', size_descendants (S limit') g' n = Ok (g', (s, d))).
Proof.
  intros H. pose proof (size_descendants_returned _ _ _ _ _ _ H) as Hn.
  split; [done|]. intros Hs limit'. cbn. rewrite Hn. cbn.
  by rewrite bool_decide_eq_true_2.
Qed.

Lemma size_descendants_caches_witness :
  let g := sizes_to_graph example_manifest in
  let g' := graph_after 10 g (rel ["a"]) in
  size_descendants 10 g (rel ["a"]) = Ok (g', (100, 2)) ∧
  nodes g' !! rel ["a"] = Some (mkAttrs (Some 100) (Some 2)) ∧
  (100 ≠ 0 → ∀ limit', size_descendants (S limit') g' (rel ["a"])
                         = Ok (g', (100, 2))).
Proof.
  cbn zeta. split; [by vm_compute|].
  apply (size_descendants_caches 10 (sizes_to_graph example_manifest)).
  by vm_compute.
Defined.

(** X4: a result obtained within some depth of recursion is the result at
    any greater depth: only [RecursionError] depends on the limit. *)
Theorem size_descendants_limit_mono limit limit' g n r :
  (limit ≤ limit')%nat →
  size_descendants limit g n = Ok r → size_descendants limit' g n = Ok r.
Proof.
  revert limit' g n r.
  induction limit as [|limit IH]; intros limit' g n r Hle; [done|].
  destruct limit' as [|limit']; [lia|].
  cbn. destruct (nodes g !! n) as [data|]; [|done].
  destruct (_ || _); [|done].
  destruct (successors g n) as [children|]; [|done]. cbn.
  destruct (sum_children (size_descendants limit) _ _ _ _)
    as [[g1 [s1 d1]]|e] eqn:Hs; [|done].
  rewrite (sum_children_mono _ (size_descendants limit') (λ g n r, IH limit' g n r
             ltac:(lia)) _ _ _ _ _ Hs).
  done.
Qed.

Lemma size_descendants_limit_mono_witness :
  let g := sizes_to_graph example_manifest in
  (3 ≤ 1000)%nat ∧
  size_descendants 3 g ROOT = Ok (graph_after 3 g ROOT, (1000000000100, 5)) ∧
  size_descendants 1000 g ROOT = Ok (graph_after 3 g ROOT, (1000000000100, 5)).
Proof.
  cbn zeta.
  assert (size_descendants 3 (sizes_to_graph example_manifest) ROOT
          = Ok (graph_after 3 (sizes_to_graph example_manifest) ROOT,
                (1000000000100, 5))) as H by (by vm_compute).
  split; [lia|]. split; [exact H|].
  apply (size_descendants_limit_mono 3 1000); [lia | exact H].
Defined.

(** ** The aggregates a run leaves on the tree *)

Lemma zips_walk_settled (manifest : list record) limit steps max lim w :
  records_are_leaves manifest.*1 →
  zips_walk limit steps (sizes_to_graph manifest) max lim = (w, Finished) →
  ∃ gA dA,
    node_descendants limit (sizes_to_graph manifest) ROOT = Ok (gA, dA) ∧
    dfs_loop limit (yield_abort_if limit max lim) zips_body steps
      (mkWalk gA [ROOT] ([], mkCounters 0 0 0) [] []) = (w, Finished) ∧
    adj gA = adj (sizes_to_graph manifest) ∧
    (∀ n, is_Some (nodes gA !! n) ↔ is_Some (nodes (sizes_to_graph manifest) !! n)) ∧
    settled_below gA ROOT ∧ similar gA (w_graph w).
Proof.
  intros Hleaves Hrun. set (g := sizes_to_graph manifest) in *.
  pose proof (sizes_to_graph_inv manifest) as Htree. fold g in Htree.
  pose proof (sizes_to_graph_files_only manifest Hleaves) as Hfiles.
  fold g in Hfiles.
  rewrite zips_walk_unfold in Hrun.
  destruct (node_descendants limit g ROOT) as [[gA dA]|e] eqn:HdA; [|done].
  exists gA, dA. split; [done|]. split; [done|].
  assert (adj gA = adj g ∧
          (∀ n, is_Some (nodes gA !! n) ↔ is_Some (nodes g !! n)) ∧
          settled_below gA ROOT) as (HaA & Hdom & HsetA).
  { unfold node_descendants in HdA.
    destruct (size_descendants limit g ROOT) as [[gA' [sA dA']]|e] eqn:Hsd;
      [|done].
    cbn in HdA. injection HdA as -> ->.
    destruct (size_descendants_shape _ _ _ _ _ Hsd) as (Ha & _ & Hd).
    split; [done|]. split; [done|].
    eapply (size_descendants_fresh g Htree Hfiles); [| |exact Hsd]; done. }
  do 3 (split; [done|]).
  set (W1 := mkWalk gA [ROOT] (@nil Path, mkCounters 0 0 0) [] []) in *.
  assert (walk_inv g W1) as Hinv1 by (by apply walk_inv_init).
  destruct (zips_loop_similar g Htree limit max lim steps W1 W1 w Hinv1 HsetA
              (similar_refl gA) eq_refl eq_refl eq_refl Hrun)
    as (_ & _ & _ & _ & HsimA1 & _).
  exact HsimA1.
Qed.

(** X5: after a run that went through on the tree of a manifest of
    files, every node below ["."] carries both aggregates; the size of a
    node with children is the sum of the sizes of its children, a file
    has the size and the count of its record, and whatever
    [size_descendants] is called on afterwards, it returns the size that
    is stored. *)
Theorem aggregates_after_run (manifest : list record) limit steps max lim :
  let g := sizes_to_graph manifest in
  let r := yield_zips limit steps g max lim in
  records_are_leaves manifest.*1 →
  zr_traversal r = Finished →
  ∀ n, relative n → is_Some (nodes g !! n) →
    ∃ s d, nodes (zr_graph r) !! n = Some (mkAttrs (Some s) (Some d)) ∧
           (succs g n ≠ [] → s = sum_csize (zr_graph r) (succs g n)) ∧
           (∀ sz, leaf g n sz → s = sz ∧ d = 0) ∧
           (∀ limit' g' s' d',
              size_descendants limit' (zr_graph r) n = Ok (g', (s', d')) →
              s' = s).
Proof.
  cbn zeta. intros Hleaves Hfin n Hrel Hn.
  set (g := sizes_to_graph manifest) in *.
  pose proof (sizes_to_graph_inv manifest) as Htree. fold g in Htree.
  destruct (yield_zips_walk limit steps g max lim) as (_ & _ & _ & Hg & Ht).
  rewrite Hg. rewrite Ht in Hfin.
  pose proof (zips_walk_decided limit steps g max lim Htree) as [Hkept _].
  { by rewrite Hfin. }
  destruct (zips_walk limit steps g max lim) as [w st] eqn:Hrun.
  cbn [fst snd] in *. subst st.
  destruct (zips_walk_settled manifest limit steps max lim w Hleaves Hrun)
    as (gA & dA & _ & _ & HaA & Hdom & HsetA & Hsim).
  fold g in HaA, Hdom.
  pose proof (similar_settled _ _ _ Hsim HsetA) as Hset.
  assert (adj (w_graph w) = adj g) as Ha by (destruct Hsim as [-> _]; done).
  assert (succs (w_graph w) n = succs g n) as E by (unfold succs; by rewrite Ha).
  destruct (Hset n) as (s & d & Hattr & Hsum).
  { split; [by rewrite Hrel | apply prefix_nil]. }
  { apply (similar_dom _ _ n Hsim), Hdom, Hn. }
  exists s, d. split; [done|]. rewrite E in Hsum. split; [done|]. split.
  - intros sz Hleaf. destruct (Hkept n sz Hleaf) as [Hl _].
    rewrite Hattr in Hl. by injection Hl as -> ->.
  - intros limit' g' s' d' Hcall.
    destruct (size_descendants_settled g Htree limit' (w_graph w) n g' s' d' Ha)
      as [-> _]; [|done|].
    + by apply settled_below_root.
    + unfold csize. by rewrite Hattr.
Qed.

Lemma aggregates_after_run_witness :
  let g := sizes_to_graph example_manifest in
  let r := yield_zips 100 100 g 1000 (PyInt 1) in
  ∃ s d, nodes (zr_graph r) !! rel ["a"] = Some (mkAttrs (Some s) (Some d)) ∧
         (succs g (rel ["a"]) ≠ [] →
          s = sum_csize (zr_graph r) (succs g (rel ["a"]))) ∧
         (∀ sz, leaf g (rel ["a"]) sz → s = sz ∧ d = 0) ∧
         (∀ limit' g' s' d',
            size_descendants limit' (zr_graph r) (rel ["a"])
              = Ok (g', (s', d')) → s' = s).
Proof.
  cbn zeta.
  apply (aggregates_after_run example_manifest 100 100 1000 (PyInt 1)).
  - apply records_are_leaves_dec. apply (bool_decide_unpack _). vm_compute.
    exact I.
  - vm_compute. reflexivity.
  - reflexivity.
  - vm_compute. eauto.
Defined.

Section sizes.
Variable g0 : graph.
Hypothesis Htree : tree_inv g0.
Variables (limit : nat) (max : Z) (lim : number).

Lemma zips_visit_sizes (w : walk (list Path * counters)) tv node w' :
  walk_inv g0 w → w_to_visit w = tv ++ [node] →
  settled_below (w_graph w) ROOT →
  (∀ n, n ∈ w_visited w →
     (n ∈ yielded (w_log w) ↔ csize (w_graph w) n < max)) →
  dfs_visit limit (yield_abort_if limit max lim) zips_body w tv node
    = (w', None) →
  ∀ n, n ∈ w_visited w' →
    (n ∈ yielded (w_log w') ↔ csize (w_graph w') n < max).
Proof.
  intros Hinv Hstack Hset Hdec Hv n Hn.
  pose proof (wi_adj _ _ Hinv) as Ha.
  assert (relative node) as Hrel.
  { pose proof (wi_stack_rel _ _ Hinv) as Hr. rewrite Hstack in Hr.
    apply Forall_app in Hr as [_ Hr]. by rewrite Forall_singleton in Hr. }
  assert (node ∉ w_visited w) as Hfresh.
  { intros Hin. apply (path_before_irrefl node), (wi_order _ _ Hinv); [done|].
    rewrite Hstack. apply elem_of_app. right. by left. }
  destruct (dfs_visit_called _ _ _ _ _ _ _ _ Hv) as (ga & s & d & Hsd).
  destruct (size_descendants_settled g0 Htree _ _ _ _ _ _ Ha
              (settled_below_root _ _ Hrel Hset) Hsd) as [Hs _].
  destruct (zips_visit_similar g0 Htree limit max lim w w tv node w' Hinv Hstack
              Hset (similar_refl _) eq_refl eq_refl Hv)
    as (_ & _ & _ & _ & _ & _ & Hstep).
  destruct (dfs_visit_spec _ _ _ _ _ _ _ _ _ _ _ Hsd Hv) as (Hlog & _ & _ & Hvis).
  rewrite (similar_csize _ _ n Hstep), Hlog, yielded_app, yielded_new.
  rewrite Hvis in Hn. apply elem_of_app in Hn as [Hn|Hn].
  - rewrite <- (Hdec n Hn). rewrite elem_of_app. split; [|by left].
    intros [?|Hnew]; [done|]. destruct (bool_decide (s < max)).
    + apply list_elem_of_singleton in Hnew. by subst.
    + by apply elem_of_nil in Hnew.
  - apply list_elem_of_singleton in Hn as ->. rewrite <- Hs.
    rewrite elem_of_app. split.
    + intros [Hold|Hnew].
      * destruct Hfresh. by eapply elem_of_sublist, (wi_yielded _ _ Hinv).
      * destruct (bool_decide (s < max)) eqn:Hlt;
          [by apply bool_decide_eq_true in Hlt | by apply elem_of_nil in Hnew].
    + intros Hlt. right. rewrite bool_decide_eq_true_2 by done. by left.
Qed.

Lemma zips_loop_sizes steps (w : walk (list Path * counters)) w' :
  walk_inv g0 w → settled_below (w_graph w) ROOT →
  (∀ n, n ∈ w_visited w →
     (n ∈ yielded (w_log w) ↔ csize (w_graph w) n < max)) →
  dfs_loop limit (yield_abort_if limit max lim) zips_body steps w
    = (w', Finished) →
  ∀ n, n ∈ w_visited w' →
    (n ∈ yielded (w_log w') ↔ csize (w_graph w') n < max).
Proof.
  revert w. induction steps as [|steps IH]; intros w Hinv Hset Hdec; cbn.
  - destruct (pop (w_to_visit w)) as [[tv node]|]; [done|]. by intros [= <-].
  - destruct (pop (w_to_visit w)) as [[tv node]|] eqn:Hpop;
      [|by intros [= <-]].
    apply pop_Some in Hpop.
    destruct (dfs_visit _ _ _ w tv node) as [wa [e|]] eqn:Hv; [done|].
    apply IH.
    + eapply walk_inv_visit; [apply yield_abort_if_keeps_edges|done..].
    + destruct (zips_visit_similar g0 Htree limit max lim w w tv node wa Hinv
                  Hpop Hset (similar_refl _) eq_refl eq_refl Hv)
        as (_ & _ & _ & _ & _ & _ & Hstep).
      by eapply similar_settled.
    + by eapply zips_visit_sizes.
Qed.
End sizes.

(** X6: in a run that went through on the tree of a manifest of files,
    a node that was popped was yielded exactly when the size stored on it
    is below [max_zip_bytes]; so every path of the output has an
    aggregate size below the threshold. *)
Theorem yielded_iff_small (manifest : list record) limit steps max lim :
  let g := sizes_to_graph manifest in
  let r := yield_zips limit steps g max lim in
  records_are_leaves manifest.*1 →
  zr_traversal r = Finished →
  (∀ n, n ∈ zr_visited r → (n ∈ zr_zips r ↔ csize (zr_graph r) n < max)) ∧
  (∀ z, z ∈ zr_zips r → csize (zr_graph r) z < max).
Proof.
  cbn zeta. intros Hleaves Hfin.
  set (g := sizes_to_graph manifest) in *.
  pose proof (sizes_to_graph_inv manifest) as Htree. fold g in Htree.
  destruct (yield_zips_walk limit steps g max lim) as (Hz & Hl & Hv & Hg & Ht).
  rewrite Hz, Hv, Hg. rewrite Ht in Hfin.
  pose proof (zips_walk_yielded limit steps g max lim) as [_ Hy].
  pose proof (zips_walk_inv limit steps g max lim Htree) as Hinv.
  cbn zeta in Hy. clear Hz Hl Hv Hg Ht.
  destruct (zips_walk limit steps g max lim) as [w st] eqn:Hrun.
  cbn [fst snd] in *. subst st. rewrite Hy by done.
  destruct (zips_walk_settled manifest limit steps max lim w Hleaves Hrun)
    as (gA & dA & _ & Hloop & HaA & _ & HsetA & _).
  fold g in HaA.
  assert (∀ n, n ∈ w_visited w →
            (n ∈ yielded (w_log w) ↔ csize (w_graph w) n < max)) as Hdec.
  { eapply (zips_loop_sizes g Htree limit max lim steps); [| | |exact Hloop].
    - by apply walk_inv_init.
    - done.
    - intros n Hn. by apply elem_of_nil in Hn. }
  split; [done|]. intros z Hz. apply Hdec; [|done].
  by eapply elem_of_sublist, (wi_yielded _ _ Hinv).
Qed.

Lemma yielded_iff_small_witness :
  let g := sizes_to_graph example_manifest in
  let r := yield_zips 100 100 g 1000 (PyInt 1) in
  zr_zips r = [rel ["a"]] ∧
  (∀ n, n ∈ zr_visited r → (n ∈ zr_zips r ↔ csize (zr_graph r) n < 1000)) ∧
  (∀ z, z ∈ zr_zips r → csize (zr_graph r) z < 1000).
Proof.
  cbn zeta. split; [by vm_compute|].
  apply (yielded_iff_small example_manifest 100 100 1000 (PyInt 1)).
  - apply records_are_leaves_dec. apply (bool_decide_unpack _). vm_compute.
    exact I.
  - vm_compute. reflexivity.
Defined.

(** ** The counters of [yield_zips] *)

Lemma zips_body_count g node acc acc' :
  zips_body g node acc = Ok acc' →
  archive_count acc.2 = Z.of_nat (length acc.1) →
  archive_count acc'.2 = Z.of_nat (length acc'.1).
Proof.
  destruct acc as [zips c]. unfold zips_body.
  destruct (from_key (nodes g !! node)) as [d|]; [|done]. cbn.
  destruct (from_key (attr_descendants d)); [|done]. cbn.
  destruct (from_key (attr_size d)); [|done]. cbn. intros [= <-] H. cbn.
  rewrite length_app. cbn. lia.
Qed.

Lemma zips_visit_count limit f (w : walk (list Path * counters)) tv node w' oe :
  archive_count (w_acc w).2 = Z.of_nat (length (w_acc w).1) →
  dfs_visit limit f zips_body w tv node = (w', oe) →
  archive_count (w_acc w').2 = Z.of_nat (length (w_acc w').1).
Proof.
  intros Hacc. unfold dfs_visit.
  destruct (f (w_graph w) node) as [[g [y a]]|e]; [|by intros [= <- _]].
  assert (∀ acc, (if y then zips_body g node (w_acc w) else Ok (w_acc w)) = Ok acc →
                 archive_count acc.2 = Z.of_nat (length acc.1)) as Hbody.
  { intros acc. destruct y; [|by intros [= <-]].
    intros Hb. by eapply zips_body_count. }
  destruct (if y then _ else _) as [acc|e]; [|by intros [= <- _]].
  specialize (Hbody acc eq_refl). destruct a.
  - destruct (node_descendants limit g node) as [[g1 d1]|e]; by intros [= <- _].
  - destruct (successors g node); by intros [= <- _].
Qed.

Lemma zips_loop_count limit f steps (w : walk (list Path * counters)) w' st :
  archive_count (w_acc w).2 = Z.of_nat (length (w_acc w).1) →
  dfs_loop limit f zips_body steps w = (w', st) →
  archive_count (w_acc w').2 = Z.of_nat (length (w_acc w').1).
Proof.
  revert w. induction steps as [|steps IH]; intros w Hacc; cbn.
  - destruct (pop (w_to_visit w)) as [[tv node]|]; by intros [= <- _].
  - destruct (pop (w_to_visit w)) as [[tv node]|]; [|by intros [= <- _]].
    destruct (dfs_visit limit f zips_body w tv node) as [w1 [e|]] eqn:Hv.
    + intros [= <- _]. by eapply zips_visit_count.
    + apply IH. by eapply zips_visit_count.
Qed.

(** X7: however a run of [yield_zips] ends, the counter [archive_count]
    is the number of paths the run has yielded. *)
Theorem archive_count_is_output_length limit steps g max lim :
  let r := yield_zips limit steps g max lim in
  archive_count (zr_counters r) = Z.of_nat (length (zr_zips r)).
Proof.
  cbn zeta. unfold yield_zips. fold (zips_walk limit steps g max lim).
  rewrite zips_walk_unfold.
  destruct (node_descendants limit g ROOT) as [[g1 d]|e]; [|done].
  destruct (dfs_loop _ _ _ _ _) as [w st] eqn:Hloop.
  apply zips_loop_count in Hloop; [|done].
  by destruct (w_acc w) as [zips c].
Qed.

Lemma sum_csize_snoc g l x : sum_csize g (l ++ [x]) = sum_csize g l + csize g x.
Proof.
  unfold sum_csize. induction l as [|c l IH]; cbn; [lia|]. rewrite IH. lia.
Qed.

Lemma zips_body_size g node acc s d :
  nodes g !! node = Some (mkAttrs (Some s) (Some d)) →
  ∃ acc', zips_body g node acc = Ok acc' ∧ acc'.1 = acc.1 ++ [node] ∧
          archived_size acc'.2 = archived_size acc.2 + s.
Proof.
  intros Hn. destruct acc as [zips c]. unfold zips_body. rewrite Hn. cbn. eauto.
Qed.

Section archived.
Variable g0 : graph.
Hypothesis Htree : tree_inv g0.
Variables (limit : nat) (max : Z) (lim : number).

Lemma zips_visit_archived (w : walk (list Path * counters)) tv node w' :
  walk_inv g0 w → w_to_visit w = tv ++ [node] →
  settled_below (w_graph w) ROOT →
  archived_size (w_acc w).2 = sum_csize (w_graph w) (w_acc w).1 →
  dfs_visit limit (yield_abort_if limit max lim) zips_body w tv node
    = (w', None) →
  archived_size (w_acc w').2 = sum_csize (w_graph w') (w_acc w').1.
Proof.
  intros Hinv Hstack Hset Hacc Hv.
  pose proof (wi_adj _ _ Hinv) as Ha.
  assert (relative node) as Hrel.
  { pose proof (wi_stack_rel _ _ Hinv) as Hr. rewrite Hstack in Hr.
    apply Forall_app in Hr as [_ Hr]. by rewrite Forall_singleton in Hr. }
  destruct (dfs_visit_called _ _ _ _ _ _ _ _ Hv) as (ga & s & d & Hsd).
  destruct (size_descendants_settled g0 Htree _ _ _ _ _ _ Ha
              (settled_below_root _ _ Hrel Hset) Hsd) as [Hs _].
  destruct (zips_visit_similar g0 Htree limit max lim w w tv node w' Hinv Hstack
              Hset (similar_refl _) eq_refl eq_refl Hv)
    as (_ & _ & _ & _ & _ & _ & Hstep).
  destruct (dfs_visit_spec _ _ _ _ _ _ _ _ _ _ _ Hsd Hv) as (_ & Hbody & _ & _).
  rewrite (similar_sum_csize _ _ _ Hstep).
  destruct (bool_decide (s < max)); [|by rewrite Hbody].
  destruct (zips_body_size ga node (w_acc w) s d
              (size_descendants_returned _ _ _ _ _ _ Hsd))
    as (acc & Hb & Hz & Hsz).
  rewrite Hb in Hbody. injection Hbody as <-.
  rewrite Hz, Hsz, sum_csize_snoc, Hacc, Hs. done.
Qed.

Lemma zips_loop_archived steps (w : walk (list Path * counters)) w' :
  walk_inv g0 w → settled_below (w_graph w) ROOT →
  archived_size (w_acc w).2 = sum_csize (w_graph w) (w_acc w).1 →
  dfs_loop limit (yield_abort_if limit max lim) zips_body steps w
    = (w', Finished) →
  archived_size (w_acc w').2 = sum_csize (w_graph w') (w_acc w').1.
Proof.
  revert w. induction steps as [|steps IH]; intros w Hinv Hset Hacc; cbn.
  - destruct (pop (w_to_visit w)) as [[tv node]|]; [done|]. by intros [= <-].
  - destruct (pop (w_to_visit w)) as [[tv node]|] eqn:Hpop;
      [|by intros [= <-]].
    apply pop_Some in Hpop.
    destruct (dfs_visit _ _ _ w tv node) as [wa [e|]] eqn:Hv; [done|].
    apply IH.
    + eapply walk_inv_visit; [apply yield_abort_if_keeps_edges|done..].
    + destruct (zips_visit_similar g0 Htree limit max lim w w tv node wa Hinv
                  Hpop Hset (similar_refl _) eq_refl eq_refl Hv)
        as (_ & _ & _ & _ & _ & _ & Hstep).
      by eapply similar_settled.
    + by eapply zips_visit_archived.
Qed.
End archived.

(** X8: after a run that went through on the tree of a manifest of
    files, the counter [archived_size] is the sum of the sizes stored on
    the paths that were yielded. *)
Theorem archived_size_is_output_size (manifest : list record)
    limit steps max lim :
  let g := sizes_to_graph manifest in
  let r := yield_zips limit steps g max lim in
  records_are_leaves manifest.*1 →
  zr_traversal r = Finished →
  archived_size (zr_counters r) = sum_csize (zr_graph r) (zr_zips r).
Proof.
  cbn zeta. intros Hleaves.
  set (g := sizes_to_graph manifest) in *.
  pose proof (sizes_to_graph_inv manifest) as Htree. fold g in Htree.
  unfold yield_zips. fold (zips_walk limit steps g max lim).
  destruct (zips_walk limit steps g max lim) as [w st] eqn:Hrun.
  destruct (w_acc w) as [zips c] eqn:Hacc. cbn. intros ->.
  destruct (zips_walk_settled manifest limit steps max lim w Hleaves Hrun)
    as (gA & dA & _ & Hloop & HaA & _ & HsetA & _).
  fold g in HaA.
  apply (zips_loop_archived g Htree limit max lim steps) in Hloop; try done.
  - by rewrite Hacc in Hloop.
  - by apply walk_inv_init.
Qed.

Lemma archived_size_is_output_size_witness :
  let g := sizes_to_graph example_manifest in
  let r := yield_zips 100 100 g 1000 (PyInt 1) in
  zr_zips r = [rel ["a"]] ∧
  archived_size (zr_counters r) = sum_csize (zr_graph r) (zr_zips r).
Proof.
  cbn zeta. split; [by vm_compute|].
  apply (archived_size_is_output_size example_manifest 100 100 1000 (PyInt 1)).
  - apply records_are_leaves_dec. apply (bool_decide_unpack _). vm_compute.
    exact I.
  - vm_compute. reflexivity.
Defined.

(** ** What a run leaves of the graph *)

Lemma zips_visit_same_shape {A} limit max lim
    (body : graph → Path → A → result A) (w : walk A) tv node w' oe :
  dfs_visit limit (yield_abort_if limit max lim) body w tv node = (w', oe) →
  same_shape (w_graph w) (w_graph w').
Proof.
  intros Hv.
  destruct (dfs_visit_graph _ _ _ _ _ _ _ _ Hv) as [->|(g & r & Hf & Hg)];
    [apply same_shape_refl|].
  apply yield_abort_if_shape in Hf.
  destruct Hg as [->|[d Hd]]; [done|].
  eapply same_shape_trans; [done|]. by eapply node_descendants_shape.
Qed.

Lemma zips_loop_same_shape {A} limit max lim
    (body : graph → Path → A → result A) steps (w : walk A) w' st :
  dfs_loop limit (yield_abort_if limit max lim) body steps w = (w', st) →
  same_shape (w_graph w) (w_graph w').
Proof.
  revert w. induction steps as [|steps IH]; intros w; cbn.
  - destruct (pop (w_to_visit w)) as [[tv node]|]; intros [= <- _];
      apply same_shape_refl.
  - destruct (pop (w_to_visit w)) as [[tv node]|];
      [|intros [= <- _]; apply same_shape_refl].
    destruct (dfs_visit _ _ _ w tv node) as [w1 [e|]] eqn:Hv.
    + intros [= <- _]. by eapply zips_visit_same_shape.
    + intros Hloop. eapply same_shape_trans; [by eapply zips_visit_same_shape|].
      by apply IH.
Qed.

Lemma zips_walk_same_shape limit steps g max lim :
  same_shape g (w_graph (zips_walk limit steps g max lim).1).
Proof.
  rewrite zips_walk_unfold.
  destruct (node_descendants limit g ROOT) as [[g1 d]|e] eqn:Hd;
    [|apply same_shape_refl].
  destruct (dfs_loop _ _ _ _ _) as [w st] eqn:Hloop. cbn [fst].
  eapply same_shape_trans; [by eapply node_descendants_shape|].
  by apply zips_loop_same_shape in Hloop.
Qed.

(** X9: when the traversal of [yield_zips] does not end by an exception,
    the graph it leaves has the edges, the graph attributes and the nodes
    it was given: a run changes only the aggregates stored on the
    nodes. *)
Theorem run_keeps_shape limit steps g max lim :
  let r := yield_zips limit steps g max lim in
  (∀ e, zr_traversal r ≠ Raised e) →
  adj (zr_graph r) = adj g ∧ graph_attrs (zr_graph r) = graph_attrs g ∧
  ∀ n, is_Some (nodes (zr_graph r) !! n) ↔ is_Some (nodes g !! n).
Proof.
  cbn zeta. intros _.
  destruct (yield_zips_walk limit steps g max lim) as (_ & _ & _ & -> & _).
  apply zips_walk_same_shape.
Qed.

Lemma run_keeps_shape_witness :
  let g := sizes_to_graph example_manifest in
  let r := yield_zips 100 100 g 1000 (PyInt 1) in
  zr_traversal r = Finished ∧
  nodes (zr_graph r) !! rel ["a"] = Some (mkAttrs (Some 100) (Some 2)) ∧
  adj (zr_graph r) = adj g ∧ graph_attrs (zr_graph r) = graph_attrs g ∧
  ∀ n, is_Some (nodes (zr_graph r) !! n) ↔ is_Some (nodes g !! n).
Proof.
  cbn zeta. split; [by vm_compute|]. split; [by vm_compute|].
  apply (run_keeps_shape 100 100 (sizes_to_graph example_manifest) 1000 (PyInt 1)).
  intros e. vm_compute. discriminate.
Defined.

Lemma sizes_to_graph_totals m :
  graph_attrs (sizes_to_graph m) !! "total_size" = Some (sum_sizes m) ∧
  is_Some (graph_attrs (sizes_to_graph m) !! "total_descendants").
Proof.
  pose proof (foldl_add_record_total_size m (empty_graph, 0, 0)) as Hts.
  unfold sizes_to_graph, build in *.
  destruct (foldl add_record (empty_graph, 0, 0) m) as [[g ts] td].
  cbn in *. split.
  - rewrite lookup_insert_ne by done. rewrite lookup_insert_eq. f_equal. lia.
  - rewrite lookup_insert_eq. eauto.
Qed.

(** X10: a run over the tree of a manifest whose traversal went through
    ends with [ZeroDivisionError], raised by the statistics computed after
    the last path was yielded, exactly when the sizes of the manifest add
    up to 0. *)
Theorem zero_total_raises_at_end (manifest : list record) limit steps max lim :
  let r := yield_zips limit steps (sizes_to_graph manifest) max lim in
  zr_traversal r = Finished →
  (zr_status r = Raised ZeroDivisionError ↔ sum_sizes manifest = 0).
Proof.
  cbn zeta. set (g := sizes_to_graph manifest).
  pose proof (zips_walk_same_shape limit steps g max lim) as (_ & Hattrs & _).
  destruct (sizes_to_graph_totals manifest) as [Hts [td Htd]]. fold g in Hts, Htd.
  unfold yield_zips. fold (zips_walk limit steps g max lim).
  destruct (zips_walk limit steps g max lim) as [w st].
  destruct (w_acc w) as [zips c]. cbn in *. intros ->.
  unfold final_per_TiB. rewrite Hattrs, Hts, Htd. cbn.
  unfold int_truediv_check. case_bool_decide as Hz.
  - split; [done|]. intros _. done.
  - split; [|done]. case_bool_decide; [|done]. intros [=].
Qed.

Lemma zero_total_raises_at_end_witness :
  let r := yield_zips 10 10 (sizes_to_graph zero_manifest) DEFAULT_MAX_ZIP_SIZE
             DEFAULT_LIMIT_PER_TIB in
  zr_zips r = [ROOT] ∧
  (zr_status r = Raised ZeroDivisionError ↔ sum_sizes zero_manifest = 0).
Proof.
  cbn zeta. split; [by vm_compute|].
  apply (zero_total_raises_at_end zero_manifest 10 10).
  vm_compute. reflexivity.
Defined.

(** ** The nodes of the tree and their attributes *)

Lemma tree_inv_ancestor g w v :
  tree_inv g → is_Some (nodes g !! v) → below w v → is_Some (nodes g !! w).
Proof.
  intros Htree. remember (length (tail v)) as k eqn:Hk.
  revert v Hk. induction k as [|k IH]; intros v Hk Hv Hb;
    (destruct (decide (w = v)) as [->|Hne]; [done|]);
    destruct (below_parent_of w v Hb Hne) as [Ht Hbp].
  - by destruct (tail v).
  - destruct (tree_inv_parent g v Htree Hv Ht) as [_ Hp].
    apply (IH (parent v)); [|done..]. rewrite parent_length. lia.
Qed.

Lemma ensure_node_keeps ns n w a :
  ns !! w = Some a → ensure_node ns n !! w = Some a.
Proof.
  intros Hw. unfold ensure_node. destruct (ns !! n) eqn:Hn; [done|].
  rewrite lookup_insert_ne; [done|]. intros ->. congruence.
Qed.

Lemma link_parents_attrs g td c ps w a :
  nodes g !! w = Some a → nodes (link_parents g td c ps).1 !! w = Some a.
Proof.
  revert g td c. induction ps as [|p ps IH]; intros g td c Hw; [done|].
  assert (nodes (add_edge g p c) !! w = Some a) as Hstep
    by (cbn; by do 2 apply ensure_node_keeps).
  cbn [link_parents]. destruct (has_node g p); [done|]. by apply IH.
Qed.

Lemma add_record_attrs_new st p sz :
  nodes (add_record st (p, sz)).1.1 !! p = Some (mkAttrs (Some sz) (Some 0)).
Proof.
  destruct st as [[g ts] td]. cbn.
  pose proof (link_parents_attrs (add_node g p sz) (td + 1) p (parents p) p
                (mkAttrs (Some sz) (Some 0))) as H.
  destruct (link_parents _ _ _ _) as [g' td']. apply H.
  cbn. by rewrite lookup_insert_eq.
Qed.

Lemma add_record_attrs_old st r w a :
  r.1 ≠ w → nodes st.1.1 !! w = Some a →
  nodes (add_record st r).1.1 !! w = Some a.
Proof.
  destruct st as [[g ts] td], r as [p sz]. cbn. intros Hne Hw.
  pose proof (link_parents_attrs (add_node g p sz) (td + 1) p (parents p) w a)
    as H.
  destruct (link_parents _ _ _ _) as [g' td']. apply H.
  cbn. by rewrite lookup_insert_ne.
Qed.

Lemma foldl_add_record_attrs m st w a :
  w ∉ m.*1 → nodes st.1.1 !! w = Some a →
  nodes (foldl add_record st m).1.1 !! w = Some a.
Proof.
  revert st. induction m as [|r m IH]; intros st Hnot Hw; [done|].
  cbn [foldl]. rewrite fmap_cons, not_elem_of_cons in Hnot.
  destruct Hnot as [Hne Hnot].
  apply IH; [done|]. apply add_record_attrs_old; [done|done].
Qed.

Lemma sizes_to_graph_ancestor (manifest : list record) w :
  (∃ r, r ∈ manifest ∧ below w r.1) →
  is_Some (nodes (sizes_to_graph manifest) !! w).
Proof.
  intros ([p sz] & Hin & Hb). cbn in Hb.
  apply (tree_inv_ancestor _ w p (sizes_to_graph_inv manifest)); [|done].
  rewrite sizes_to_graph_nodes. unfold build.
  apply list_elem_of_split in Hin as (m1 & m2 & ->).
  rewrite foldl_app. cbn [foldl].
  set (st := foldl add_record (empty_graph, 0, 0) m1).
  pose proof (add_record_attrs_new st p sz) as Hnew.
  assert (∀ m st', is_Some (nodes st'.1.1 !! p) →
                   is_Some (nodes (foldl add_record st' m).1.1 !! p)) as Hkeep.
  { induction m as [|r m IH]; intros st' Hp; [done|]. cbn [foldl]. apply IH.
    destruct (decide (r.1 = p)) as [<-|Hne].
    - destruct r as [q sq]. by rewrite add_record_attrs_new.
    - destruct Hp as [a Ha]. rewrite (add_record_attrs_old st' r p a); eauto. }
  apply Hkeep. by rewrite Hnew.
Qed.

Lemma nodes_are_ancestors_root (manifest : list record) :
  (∃ r, r ∈ manifest ∧ relative r.1) →
  is_Some (nodes (sizes_to_graph manifest) !! ROOT).
Proof.
  intros (r & Hin & Hrel). apply sizes_to_graph_ancestor. exists r.
  split; [done|]. split; [by rewrite Hrel | apply prefix_nil].
Qed.

(** X11: the nodes of the tree built from a manifest are the paths of
    its records and all their ancestors, and nothing else. *)
Theorem nodes_are_ancestors (manifest : list record) w :
  is_Some (nodes (sizes_to_graph manifest) !! w) ↔
  ∃ r, r ∈ manifest ∧ below w r.1.
Proof.
  split; [apply sizes_to_graph_nodes_below | apply sizes_to_graph_ancestor].
Qed.

(** X12: in the tree built from a manifest, the path of a record carries
    the size of the last record with that path and 0 descendants, and a
    node that is the path of no record carries no attribute. *)
Theorem node_attributes (manifest : list record) :
  let g := sizes_to_graph manifest in
  (∀ m1 p sz m2, manifest = m1 ++ (p, sz) :: m2 → p ∉ m2.*1 →
     nodes g !! p = Some (mkAttrs (Some sz) (Some 0))) ∧
  (∀ n, is_Some (nodes g !! n) → n ∉ manifest.*1 →
     nodes g !! n = Some (mkAttrs None None)).
Proof.
  cbn zeta. split.
  - intros m1 p sz m2 -> Hlast. rewrite sizes_to_graph_nodes. unfold build.
    rewrite foldl_app. cbn [foldl].
    apply foldl_add_record_attrs; [done|]. apply add_record_attrs_new.
  - intros n [a Ha] Hnot.
    destruct (sizes_to_graph_built_from manifest) as [Hattr _].
    destruct (Hattr n a Ha) as [->|[_ Hin]]; done.
Qed.

(** ** The exceptions of a run *)

Lemma density_raises d s e :
  density d s = Raise e → e = ZeroDivisionError ∨ e = OverflowError.
Proof.
  unfold density, truediv_TiB, float_of_int, float_truediv.
  destruct (binary_normalize prec emax s (-40) false); cbn;
    destruct (binary_normalize prec emax d 0 false); cbn;
    intros [= <-]; auto.
Qed.

Section raises.
Variable g0 : graph.
Hypothesis Htree : tree_inv g0.

Lemma sum_children_raises (rec : graph → Path → result (graph * (Z * Z))) :
  (∀ g n e, same_shape g0 g → is_Some (nodes g0 !! n) →
     rec g n = Raise e → e = RecursionError) →
  (∀ g n g' r, rec g n = Ok (g', r) → same_shape g g') →
  ∀ children g s d e,
    same_shape g0 g → (∀ c, c ∈ children → is_Some (nodes g0 !! c)) →
    sum_children rec g children s d = Raise e → e = RecursionError.
Proof.
  intros Hraise Hshape children.
  induction children as [|c children IH]; intros g s d e Hg Hch; [done|].
  cbn. destruct (rec g c) as [[g1 [cs cd]]|e'] eqn:Hc; cbn.
  - apply IH.
    + eapply same_shape_trans; [done|]. by eapply Hshape.
    + intros c' Hc'. apply Hch. by right.
  - intros [= <-]. eapply Hraise; [done| |done]. apply Hch. by left.
Qed.

Lemma size_descendants_raises limit g n e :
  same_shape g0 g → is_Some (nodes g0 !! n) →
  size_descendants limit g n = Raise e → e = RecursionError.
Proof.
  revert g n e. induction limit as [|limit IH]; intros g n e Hg Hn.
  - by intros [= <-].
  - cbn. pose proof Hg as (_ & _ & Hdom).
    destruct (nodes g !! n) as [data|] eqn:Hd.
    2:{ apply Hdom in Hn. rewrite Hd in Hn. by destruct Hn. }
    destruct (_ || _); [|done].
    unfold successors. rewrite (proj2 (has_node_true g n)) by eauto. cbn.
    destruct (sum_children _ _ _ _ _) as [[g1 [s d]]|e'] eqn:Hs; [done|].
    cbn. intros [= <-].
    eapply (sum_children_raises _ IH (size_descendants_shape limit));
      [done| |done].
    intros c Hc. rewrite (same_shape_succs g0 g n Hg) in Hc.
    by destruct (inv_ends _ _ Htree n c Hc).
Qed.

Lemma zips_visit_raises limit max lim (w : walk (list Path * counters))
    tv node w' e :
  same_shape g0 (w_graph w) → is_Some (nodes g0 !! node) →
  dfs_visit limit (yield_abort_if limit max lim) zips_body w tv node
    = (w', Some e) →
  e = RecursionError ∨ e = ZeroDivisionError ∨ e = OverflowError.
Proof.
  intros Hg Hn. unfold dfs_visit.
  destruct (size_descendants limit (w_graph w) node) as [[ga [s d]]|e']
    eqn:Hsd.
  2:{ unfold yield_abort_if. rewrite Hsd. cbn. intros [= _ <-]. left.
      by eapply size_descendants_raises. }
  rewrite (yield_abort_if_Ok _ _ _ _ _ _ _ _ Hsd).
  assert (same_shape g0 ga) as Hga
    by (eapply same_shape_trans; [done|]; by eapply size_descendants_shape).
  assert (∀ e1, node_descendants limit ga node = Raise e1 →
                e1 = RecursionError) as Hnd.
  { intros e1. unfold node_descendants.
    destruct (size_descendants limit ga node) as [[gb [sb db]]|e2] eqn:Hsd2;
      [done|].
    cbn. intros [= <-]. by eapply size_descendants_raises. }
  assert (has_node ga node = true) as Hh.
  { apply has_node_true. destruct Hga as (_ & _ & Hdom). by apply Hdom. }
  destruct (bool_decide (s < max)).
  - destruct (zips_body_returned ga node (w_acc w) s d
                (size_descendants_returned _ _ _ _ _ _ Hsd)) as [acc ->].
    destruct (node_descendants limit ga node) as [[g1 d1]|e1] eqn:Hd1; [done|].
    intros [= _ <-]. left. by eapply Hnd.
  - destruct (density d s) as [q|e1] eqn:Hden.
    2:{ intros [= _ <-]. right. by eapply density_raises. }
    destruct (float_lt q lim).
    + destruct (node_descendants limit ga node) as [[g1 d1]|e1] eqn:Hd1;
        [done|].
      intros [= _ <-]. left. by eapply Hnd.
    + unfold successors. by rewrite Hh.
Qed.

Lemma zips_loop_raises limit max lim steps (w : walk (list Path * counters))
    w' e :
  walk_inv g0 w → same_shape g0 (w_graph w) →
  Forall (λ n, is_Some (nodes g0 !! n)) (w_to_visit w) →
  dfs_loop limit (yield_abort_if limit max lim) zips_body steps w
    = (w', Raised e) →
  e = RecursionError ∨ e = ZeroDivisionError ∨ e = OverflowError.
Proof.
  revert w. induction steps as [|steps IH]; intros w Hinv Hg Hst; cbn.
  - by destruct (pop (w_to_visit w)) as [[tv node]|].
  - destruct (pop (w_to_visit w)) as [[tv node]|] eqn:Hpop; [|done].
    apply pop_Some in Hpop. rewrite Hpop in Hst.
    apply Forall_app in Hst as [Htv Hnode]. rewrite Forall_singleton in Hnode.
    destruct (dfs_visit _ _ _ w tv node) as [wa [e'|]] eqn:Hv.
    + intros [= _ <-]. by eapply zips_visit_raises.
    + pose proof (zips_visit_same_shape _ _ _ _ _ _ _ _ _ Hv) as Hstep.
      apply IH.
      * eapply walk_inv_visit; [apply yield_abort_if_keeps_edges|done..].
      * by eapply same_shape_trans.
      * destruct (dfs_visit_shape limit _ zips_body
                    (yield_abort_if_keeps_edges limit max lim) w tv node wa None Hv)
          as (_ & _ & y & a & _ & _ & [[-> _]|(_ & _ & ->)]); [done|].
        apply Forall_app. split; [done|]. apply Forall_forall. intros c Hc.
        rewrite sorted_reverse_elem in Hc.
        rewrite (same_shape_succs g0 (w_graph wa) node) in Hc
          by (by eapply same_shape_trans).
        by destruct (inv_ends _ _ Htree node c Hc).
Qed.
End raises.

(** X13: when no record of the manifest has a relative path, as when the
    manifest is empty, the tree has no node ["."] and a run raises
    [KeyError] before it pops or yields anything. *)
Theorem no_relative_path_key_error (manifest : list record)
    limit steps max lim :
  (∀ r, r ∈ manifest → ¬ relative r.1) →
  let r := yield_zips (S limit) steps (sizes_to_graph manifest) max lim in
  zr_traversal r = Raised KeyError ∧ zr_status r = Raised KeyError ∧
  zr_zips r = [] ∧ zr_visited r = [] ∧ zr_log r = [].
Proof.
  intros Habs. cbn zeta.
  assert (nodes (sizes_to_graph manifest) !! ROOT = None) as Hroot.
  { apply eq_None_not_Some. intros Hn.
    apply sizes_to_graph_nodes_below in Hn as (r & Hin & [Hr _]).
    apply (Habs r Hin). unfold relative. by rewrite <- Hr. }
  unfold yield_zips. fold (zips_walk (S limit) steps (sizes_to_graph manifest) max lim).
  rewrite zips_walk_unfold. unfold node_descendants.
  cbn [size_descendants]. rewrite Hroot. done.
Qed.

Lemma no_relative_path_key_error_witness :
  let r := yield_zips 10 10 (sizes_to_graph absolute_manifest)
             DEFAULT_MAX_ZIP_SIZE DEFAULT_LIMIT_PER_TIB in
  zr_traversal r = Raised KeyError ∧ zr_status r = Raised KeyError ∧
  zr_zips r = [] ∧ zr_visited r = [] ∧ zr_log r = [].
Proof.
  apply (no_relative_path_key_error absolute_manifest 9 10).
  intros r Hr. apply list_elem_of_singleton in Hr as ->. by vm_compute.
Defined.

(** X14: over the tree of a manifest with at least one relative path,
    the traversal of [yield_zips] raises nothing but [RecursionError],
    [ZeroDivisionError] or [OverflowError]: no node or attribute it looks
    up is missing. *)
Theorem traversal_exceptions (manifest : list record) limit steps max lim e :
  (∃ r, r ∈ manifest ∧ relative r.1) →
  zr_traversal (yield_zips limit steps (sizes_to_graph manifest) max lim)
    = Raised e →
  e = RecursionError ∨ e = ZeroDivisionError ∨ e = OverflowError.
Proof.
  intros (r & Hin & Hrel).
  set (g := sizes_to_graph manifest).
  pose proof (sizes_to_graph_inv manifest) as Htree. fold g in Htree.
  assert (is_Some (nodes g !! ROOT)) as Hroot.
  { apply nodes_are_ancestors_root. eauto. }
  destruct (yield_zips_walk limit steps g max lim) as (_ & _ & _ & _ & ->).
  rewrite zips_walk_unfold.
  destruct (node_descendants limit g ROOT) as [[gA dA]|e'] eqn:HdA.
  - destruct (dfs_loop _ _ _ _ _) as [w st] eqn:Hloop. cbn [snd]. intros ->.
    pose proof (node_descendants_shape _ _ _ _ _ HdA) as HgA.
    eapply (zips_loop_raises g Htree); [| | |exact Hloop].
    + apply walk_inv_init. by destruct HgA as [-> _].
    + done.
    + by repeat constructor.
  - cbn. intros [= <-]. left. unfold node_descendants in HdA.
    destruct (size_descendants limit g ROOT) as [[gb [sb db]]|e2] eqn:Hsd;
      [done|].
    cbn in HdA. injection HdA as <-.
    eapply (size_descendants_raises g Htree); [apply same_shape_refl|done..].
Qed.

Lemma traversal_exceptions_witness :
  (∃ r, r ∈ example_manifest ∧ relative r.1) ∧
  zr_traversal (yield_zips 1 10 (sizes_to_graph example_manifest)
                  DEFAULT_MAX_ZIP_SIZE DEFAULT_LIMIT_PER_TIB)
    = Raised RecursionError ∧
  (RecursionError = RecursionError ∨ RecursionError = ZeroDivisionError ∨
   RecursionError = OverflowError).
Proof.
  assert (∃ r, r ∈ example_manifest ∧ relative r.1) as Hrel.
  { exists (rel ["a"; "x.txt"], 50). split; [by left | reflexivity]. }
  split; [exact Hrel|]. split; [by vm_compute|].
  apply (traversal_exceptions example_manifest 1 10 DEFAULT_MAX_ZIP_SIZE
           DEFAULT_LIMIT_PER_TIB RecursionError Hrel).
  by vm_compute.
Defined.

(** ** The length of the traversal *)

Lemma zips_loop_unfinished g0 limit max lim steps
    (w : walk (list Path * counters)) w' :
  same_shape g0 (w_graph w) →
  Forall (λ n, is_Some (nodes g0 !! n)) (w_visited w) →
  dfs_loop limit (yield_abort_if limit max lim) zips_body steps w
    = (w', Unfinished) →
  length (w_visited w') = (length (w_visited w) + steps)%nat ∧
  Forall (λ n, is_Some (nodes g0 !! n)) (w_visited w').
Proof.
  revert w. induction steps as [|steps IH]; intros w Hg Hvis; cbn.
  - destruct (pop (w_to_visit w)) as [[tv node]|]; [|done].
    intros [= <-]. split; [lia|done].
  - destruct (pop (w_to_visit w)) as [[tv node]|]; [|done].
    destruct (dfs_visit _ _ _ w tv node) as [wa [e|]] eqn:Hv; [done|].
    intros Hloop.
    destruct (dfs_visit_called _ _ _ _ _ _ _ _ Hv) as (ga & s & d & Hsd).
    destruct (dfs_visit_shape limit _ zips_body
                (yield_abort_if_keeps_edges limit max lim) w tv node wa None Hv)
      as (_ & Hvis' & _).
    apply IH in Hloop as [Hlen Hall].
    + split; [|done]. rewrite Hlen, Hvis', length_app. cbn. lia.
    + eapply same_shape_trans; [done|]. by eapply zips_visit_same_shape.
    + rewrite Hvis'. apply Forall_app. split; [done|]. apply Forall_singleton.
      destruct Hg as (_ & _ & Hdom). apply Hdom.
      destruct limit as [|limit']; [done|]. cbn in Hsd.
      by destruct (nodes (w_graph w) !! node).
Qed.

Lemma NoDup_nodes_length (g : graph) (l : list Path) :
  NoDup l → Forall (λ n, is_Some (nodes g !! n)) l →
  (length l ≤ size (nodes g))%nat.
Proof.
  intros Hnd Hall. rewrite <- length_map_to_list.
  rewrite <- (length_fmap fst (map_to_list (nodes g))).
  apply submseteq_length, NoDup_submseteq; [done|].
  intros x Hx. rewrite Forall_forall in Hall. destruct (Hall x Hx) as [a Ha].
  apply list_elem_of_fmap. exists (x, a). split; [done|].
  by apply elem_of_map_to_list.
Qed.

(** X15: the traversal ends: given more iterations than the tree has
    nodes, the loop of [dfs] is not cut short, since no node is popped
    twice. *)
Theorem traversal_terminates (manifest : list record) limit steps max lim :
  let g := sizes_to_graph manifest in
  (size (nodes g) < steps)%nat →
  zr_traversal (yield_zips limit steps g max lim) ≠ Unfinished.
Proof.
  cbn zeta. intros Hsteps.
  set (g := sizes_to_graph manifest) in *.
  pose proof (sizes_to_graph_inv manifest) as Htree. fold g in Htree.
  destruct (yield_zips_walk limit steps g max lim) as (_ & _ & _ & _ & ->).
  pose proof (zips_walk_inv limit steps g max lim Htree) as Hinv.
  rewrite zips_walk_unfold in Hinv |- *.
  destruct (node_descendants limit g ROOT) as [[gA dA]|e] eqn:HdA; [|done].
  destruct (dfs_loop _ _ _ _ _) as [w st] eqn:Hloop. cbn [fst snd] in *.
  intros ->.
  apply (zips_loop_unfinished g) in Hloop as [Hlen Hall].
  - cbn in Hlen.
    pose proof (StronglySorted_NoDup _ (wi_visited _ _ Hinv)) as Hnd.
    pose proof (NoDup_nodes_length g _ Hnd Hall). lia.
  - by eapply node_descendants_shape.
  - constructor.
Qed.

Lemma traversal_terminates_witness :
  let g := sizes_to_graph example_manifest in
  (size (nodes g) < 7)%nat ∧
  zr_traversal (yield_zips 10 7 g DEFAULT_MAX_ZIP_SIZE DEFAULT_LIMIT_PER_TIB)
    ≠ Unfinished.
Proof.
  cbn zeta.
  assert (size (nodes (sizes_to_graph example_manifest)) < 7)%nat as H
    by (vm_compute; lia).
  split; [exact H|].
  apply (traversal_terminates example_manifest 10 7 DEFAULT_MAX_ZIP_SIZE
           DEFAULT_LIMIT_PER_TIB H).
Defined.

(** ** [dfs] with its default arguments *)

Section default_walk.
Variable g0 : graph.
Hypothesis Htree : tree_inv g0.
Variable limit : nat.

Lemma default_visit (w : walk ()) tv node :
  is_Some (nodes (w_graph w) !! node) →
  dfs_visit limit (λ g _, Ok (g, (true, false))) idle_body w tv node =
    (mkWalk (w_graph w) (tv ++ sorted_reverse (succs (w_graph w) node)) (w_acc w)
       (w_log w ++ [Yielding node]) (w_visited w ++ [node]), None).
Proof.
  intros Hn. unfold dfs_visit, idle_body, successors.
  by rewrite (proj2 (has_node_true _ _) Hn).
Qed.

Lemma default_loop steps (w : walk ()) w' :
  same_shape g0 (w_graph w) →
  Forall (λ n, is_Some (nodes g0 !! n)) (w_to_visit w) →
  Forall (λ n, is_Some (nodes g0 !! n)) (w_visited w) →
  yielded (w_log w) = w_visited w → skipped (w_log w) = [] →
  (∀ x, relative x → is_Some (nodes g0 !! x) →
     (∃ s, s ∈ w_to_visit w ∧ below s x) ∨ x ∈ w_visited w) →
  dfs_loop limit (λ g _, Ok (g, (true, false))) idle_body steps w
    = (w', Finished) →
  yielded (w_log w') = w_visited w' ∧ skipped (w_log w') = [] ∧
  Forall (λ n, is_Some (nodes g0 !! n)) (w_visited w') ∧
  (∀ x, relative x → is_Some (nodes g0 !! x) → x ∈ w_visited w').
Proof.
  revert w.
  induction steps as [|steps IH]; intros w Hg Hst Hvis Hy Hs Hcov;
    cbn [dfs_loop].
  - destruct (pop (w_to_visit w)) as [[tv node]|] eqn:Hpop; [done|].
    intros [= <-]. apply pop_None in Hpop. do 3 (split; [done|]).
    intros x Hx Hn. destruct (Hcov x Hx Hn) as [(s & Hin & _)|?]; [|done].
    rewrite Hpop in Hin. by apply elem_of_nil in Hin.
  - destruct (pop (w_to_visit w)) as [[tv node]|] eqn:Hpop.
    2:{ intros [= <-]. apply pop_None in Hpop. do 3 (split; [done|]).
        intros x Hx Hn. destruct (Hcov x Hx Hn) as [(s & Hin & _)|?]; [|done].
        rewrite Hpop in Hin. by apply elem_of_nil in Hin. }
    apply pop_Some in Hpop. rewrite Hpop in Hst, Hcov.
    apply Forall_app in Hst as [Htv Hnode]. rewrite Forall_singleton in Hnode.
    pose proof Hg as (_ & _ & Hdom).
    rewrite default_visit by (by apply Hdom).
    assert (succs (w_graph w) node = succs g0 node) as E
      by (by apply same_shape_succs).
    apply IH; cbn.
    + done.
    + apply Forall_app. split; [done|]. apply Forall_forall. intros c Hc.
      rewrite sorted_reverse_elem, E in Hc.
      by destruct (inv_ends _ _ Htree node c Hc).
    + apply Forall_app. split; [done|]. by apply Forall_singleton.
    + by rewrite yielded_app, Hy.
    + by rewrite skipped_app, Hs.
    + intros x Hx Hn. destruct (Hcov x Hx Hn) as [(s & Hin & Hb)|Hin].
      * apply elem_of_app in Hin as [Hin|Hin].
        { left. exists s. split; [|done]. apply elem_of_app. by left. }
        apply list_elem_of_singleton in Hin as ->.
        destruct (decide (node = x)) as [->|Hne].
        { right. apply elem_of_app. right. by left. }
        destruct (tree_inv_child_below g0 node x Htree Hn Hb Hne)
          as (c & Hc & Hcb).
        left. exists c. split; [|done]. apply elem_of_app. right.
        by rewrite sorted_reverse_elem, E.
      * right. apply elem_of_app. by left.
Qed.
End default_walk.

(** X16: called without a start node and without a callback, [dfs]
    starts at ["."], skips no subtree and, when it goes through, yields
    every node of the tree below ["."] once, in ascending order of
    path. *)
Theorem dfs_defaults_enumerate (manifest : list record) limit steps w :
  let g := sizes_to_graph manifest in
  dfs limit steps g None None idle_body () = (w, Finished) →
  yielded (w_log w) = w_visited w ∧ skipped (w_log w) = [] ∧
  StronglySorted path_before (w_visited w) ∧
  (∀ x, x ∈ w_visited w ↔ relative x ∧ is_Some (nodes g !! x)).
Proof.
  cbn zeta. set (g := sizes_to_graph manifest).
  pose proof (sizes_to_graph_inv manifest) as Htree. fold g in Htree.
  unfold dfs. cbn [default].
  destruct (node_descendants limit g ROOT) as [[gA dA]|e] eqn:HdA; [|done].
  intros Hloop.
  pose proof (node_descendants_shape _ _ _ _ _ HdA) as HgA.
  assert (is_Some (nodes g !! ROOT)) as Hroot.
  { unfold node_descendants in HdA. destruct limit as [|limit']; [done|].
    cbn in HdA. by destruct (nodes g !! ROOT). }
  assert (walk_inv g w) as Hinv.
  { eapply (walk_inv_loop limit _ idle_body); [| |apply walk_inv_init |exact Hloop].
    - by intros ? ? ? ? [= <- _].
    - done.
    - by destruct HgA as [-> _]. }
  apply (default_loop g Htree) in Hloop as (Hy & Hs & Hall & Hcov); cbn.
  - do 2 (split; [done|]). split; [apply (wi_visited _ _ Hinv)|].
    intros x. split; [|intros [? ?]; by apply Hcov].
    intros Hx. rewrite Forall_forall in Hall. split; [|by apply Hall].
    pose proof (wi_visited_rel _ _ Hinv) as Hrel. rewrite Forall_forall in Hrel.
    by apply Hrel.
  - done.
  - by repeat constructor.
  - constructor.
  - done.
  - done.
  - intros x Hx _. left. exists ROOT. split; [by left|].
    split; [by rewrite Hx | apply prefix_nil].
Qed.

Lemma dfs_defaults_enumerate_witness :
  let g := sizes_to_graph example_manifest in
  let w := (dfs 10 10 g None None idle_body ()).1 in
  w_visited w = [ROOT; rel ["a"]; rel ["a"; "x.txt"]; rel ["a"; "y.txt"];
                 rel ["b"]; rel ["b"; "z.txt"]] ∧
  yielded (w_log w) = w_visited w ∧ skipped (w_log w) = [] ∧
  StronglySorted path_before (w_visited w) ∧
  (∀ x, x ∈ w_visited w ↔ relative x ∧ is_Some (nodes g !! x)).
Proof.
  cbn zeta. split; [by vm_compute|].
  apply (dfs_defaults_enumerate example_manifest 10 10).
  by vm_compute.
Defined.

(** ** Files and streams *)

(** X17: whatever [ensure_file] yields fits the mode: the standard input
    only for a mode that reads and does not write, the standard output
    only for a mode that writes and does not read, a file to open only for
    a string or path that is neither empty nor ["-"], and the object
    itself only when it has the methods that the mode needs. *)
Theorem ensure_file_respects_mode obj mode s :
  ensure_file obj mode = inr s →
  match s with
  | Stdin => should_read mode = true ∧ should_write mode = false
  | Stdout => should_write mode = true ∧ should_read mode = false
  | Opened o m =>
      o = obj ∧ obj_str_or_pathlike obj = true ∧
      obj_falsy obj = false ∧ obj_is_dash obj = false
  | Given o =>
      o = obj ∧ obj_str_or_pathlike obj = false ∧
      (should_read mode = true → obj_has_read obj = true) ∧
      (should_write mode = true → obj_has_write obj = true)
  end.
Proof.
  unfold ensure_file. destruct (mode_or_r mode) as [c m].
  destruct (obj_falsy obj) eqn:Hf, (obj_is_dash obj) eqn:Hd;
    destruct (should_read mode) eqn:Hr, (should_write mode) eqn:Hw;
    destruct (obj_str_or_pathlike obj) eqn:Hp;
    destruct (obj_has_read obj) eqn:Hhr, (obj_has_write obj) eqn:Hhw;
    cbn; intros [= <-]; done.
Qed.

Lemma ensure_file_respects_mode_witness :
  ensure_file (PyStr "-") (Some "w") = inr Stdout ∧
  should_write (Some "w") = true ∧ should_read (Some "w") = false.
Proof.
  split; [reflexivity|].
  apply (ensure_file_respects_mode (PyStr "-") (Some "w") Stdout).
  reflexivity.
Defined.

(** X18: for reading, [ensure_file] opens its argument only when
    [is_path] holds of it, and it opens every string that [is_path]
    accepts except the empty one: the empty string counts as a path for
    [is_path], and as the standard input for [ensure_file]. *)
Theorem is_path_and_ensure_file :
  (∀ obj m, ensure_file obj (Some "r") = inr (Opened obj m) →
     is_path obj = true ∧ m = "r") ∧
  (∀ s, is_path (PyStr s) = true → s ≠ "" →
     ensure_file (PyStr s) (Some "r") = inr (Opened (PyStr s) "r")) ∧
  is_path (PyStr "") = true ∧ ensure_file (PyStr "") (Some "r") = inr Stdin.
Proof.
  split; [|split; [|done]].
  - intros obj m. unfold ensure_file. cbn.
    destruct obj as [|s|pl tr ed hr hw]; cbn.
    + done.
    + repeat case_bool_decide; cbn; try done. by intros [= <-].
    + destruct tr, ed, pl, hr; cbn; try done; by intros [= <-].
  - intros s Hp Hne. cbn in Hp. apply bool_decide_eq_true in Hp.
    unfold ensure_file. cbn.
    repeat case_bool_decide; cbn; done.
Qed.

(** ** The totals of the first call *)

Lemma sum_over_add f h l :
  sum_over (λ c, f c + h c) l = sum_over f l + sum_over h l.
Proof. unfold sum_over. induction l as [|c l IH]; cbn; lia. Qed.

Lemma sum_over_cons f x l : sum_over f (x :: l) = f x + sum_over f l.
Proof. reflexivity. Qed.

Lemma sum_over_zero l : sum_over (λ _, 0) l = 0.
Proof. unfold sum_over. induction l as [|c l IH]; cbn; lia. Qed.

Lemma sum_over_ext f h l :
  (∀ c, c ∈ l → f c = h c) → sum_over f l = sum_over h l.
Proof.
  unfold sum_over. induction l as [|c l IH]; intros H; [done|]. cbn.
  rewrite (H c) by (by left). rewrite IH; [done|]. intros c' Hc'. apply H.
  by right.
Qed.

Lemma children_hit (cs : list Path) n x (v : Z) :
  NoDup cs → (∀ c, c ∈ cs → tail c ≠ [] ∧ n = parent c) →
  sum_over (λ c, if bool_decide (below c x) then v else 0) cs =
    if bool_decide (Exists (λ c, below c x) cs) then v else 0.
Proof.
  unfold sum_over. induction cs as [|c cs IH]; intros Hnd Hsib.
  - rewrite bool_decide_eq_false_2; [done|]. by intros H%Exists_nil.
  - apply NoDup_cons in Hnd as [Hc Hnd]. cbn [foldr].
    rewrite IH; [|done|intros c' Hc'; apply Hsib; by right].
    destruct (Hsib c) as [Hct Hcp]; [by left|].
    destruct (decide (below c x)) as [Hb|Hb].
    + rewrite (bool_decide_eq_true_2 (below c x)) by done.
      rewrite (bool_decide_eq_true_2 (Exists _ (c :: cs)))
        by (by apply Exists_cons_hd).
      rewrite bool_decide_eq_false_2; [lia|].
      rewrite Exists_exists. intros (c' & Hc' & Hb').
      destruct (Hsib c') as [Hct' Hcp']; [by right|].
      assert (c = c') as -> by (eapply siblings_disjoint; [..|done|done];
                                  congruence).
      done.
    + rewrite (bool_decide_eq_false_2 (below c x)) by done.
      destruct (decide (Exists (λ c0, below c0 x) cs)) as [He|He].
      * rewrite !bool_decide_eq_true_2; [lia|by apply Exists_cons_tl|done].
      * rewrite !bool_decide_eq_false_2; [lia| |done].
        rewrite Exists_cons. tauto.
Qed.

Lemma sum_below_children g (l : list Path) wt n :
  tree_inv g → NoDup l → Forall (λ x, is_Some (nodes g !! x)) l →
  sum_below l wt n =
    (if bool_decide (n ∈ l) then wt n else 0)
    + sum_over (sum_below l wt) (succs g n).
Proof.
  intros Htree. unfold sum_below.
  induction l as [|x l IH]; intros Hnd Hall.
  - rewrite bool_decide_eq_false_2 by apply not_elem_of_nil.
    change (0 = 0 + sum_over (λ _, 0) (succs g n)).
    by rewrite sum_over_zero.
  - apply NoDup_cons in Hnd as [Hx Hnd]. apply Forall_cons in Hall as [Hxn Hall].
    rewrite sum_over_cons.
    rewrite (sum_over_ext _ (λ c, (if bool_decide (below c x) then wt x else 0)
               + sum_over (λ x0, if bool_decide (below c x0) then wt x0 else 0) l)
               (succs g n)) by done.
    rewrite sum_over_add, (children_hit _ n x (wt x));
      [|apply (inv_nodup _ _ Htree)|apply (inv_edge _ _ Htree)].
    rewrite IH by done.
    destruct (decide (x = n)) as [->|Hne].
    + rewrite (bool_decide_eq_true_2 (below n n)) by apply below_refl.
      rewrite (bool_decide_eq_true_2 (n ∈ n :: l)) by (by left).
      rewrite (bool_decide_eq_false_2 (n ∈ l)) by done.
      rewrite bool_decide_eq_false_2; [lia|].
      rewrite Exists_exists. intros (c & Hc & Hb).
      destruct (child_below g g n c Htree eq_refl Hc) as [Hnc Hne].
      apply Hne. by apply below_antisym.
    + assert (bool_decide (n ∈ x :: l) = bool_decide (n ∈ l)) as ->.
      { apply bool_decide_ext. rewrite elem_of_cons. naive_solver. }
      assert (bool_decide (below n x)
              = bool_decide (Exists (λ c, below c x) (succs g n))) as ->; [|lia].
      apply bool_decide_ext. rewrite Exists_exists. split.
      * intros Hb.
        destruct (tree_inv_child_below g n x Htree Hxn Hb (not_eq_sym Hne))
          as (c & Hc & Hcb). eauto.
      * intros (c & Hc & Hb).
        destruct (child_below g g n c Htree eq_refl Hc) as [Hnc _].
        by eapply below_trans.
Qed.

Lemma subtree_sum_children g wt n :
  tree_inv g → is_Some (nodes g !! n) →
  subtree_sum g wt n = wt n + sum_over (subtree_sum g wt) (succs g n).
Proof.
  intros Htree [a Ha]. unfold subtree_sum.
  rewrite (sum_below_children g _ wt n Htree).
  - rewrite bool_decide_eq_true_2; [done|].
    apply list_elem_of_fmap. exists (n, a). split; [done|].
    by apply elem_of_map_to_list.
  - apply NoDup_fst_map_to_list.
  - apply Forall_forall. intros x Hx.
    apply list_elem_of_fmap in Hx as ([y b] & -> & Hy).
    apply elem_of_map_to_list in Hy. cbn. eauto.
Qed.

(** ** Leaves and the log *)

Lemma elem_of_skipped n log : n ∈ skipped log ↔ Skipping n ∈ log.
Proof.
  unfold skipped. rewrite list_elem_of_omap. split.
  - intros ([m|m] & Hin & Heq); [done|]. by injection Heq as ->.
  - intros Hin. by exists (Skipping n).
Qed.






(** ** The children of a node that is not skipped *)

Lemma dfs_visit_pushes {A} limit (f : callback)
    (body : graph → Path → A → result A) (w : walk A) tv node g' y acc' :
  f (w_graph w) node = Ok (g', (y, false)) →
  (if y then body g' node (w_acc w) else Ok (w_acc w)) = Ok acc' →
  is_Some (nodes g' !! node) →
  dfs_visit limit f body w tv node =
    (mkWalk g' (tv ++ sorted_reverse (succs g' node)) acc'
       (if y then w_log w ++ [Yielding node] else w_log w)
       (w_visited w ++ [node]), None).
Proof.
  intros Hf Hb Hn. unfold dfs_visit. rewrite Hf, Hb.
  unfold successors. by rewrite (proj2 (has_node_true g' node) Hn).
Qed.

Section children.
Context {A : Type}.
Variables (limit : nat) (f : callback).
Variable body : graph → Path → A → result A.
Hypothesis f_edges : keeps_edges f.
Variable g0 : graph.

Lemma children_popped_visit (w : walk A) tv node w' :
  adj (w_graph w) = adj g0 →
  w_to_visit w = tv ++ [node] →
  (∀ n c, n ∈ w_visited w → n ∉ skipped (w_log w) → c ∈ succs g0 n →
          c ∈ w_visited w ∨ c ∈ w_to_visit w) →
  dfs_visit limit f body w tv node = (w', None) →
  ∀ n c, n ∈ w_visited w' → n ∉ skipped (w_log w') → c ∈ succs g0 n →
         c ∈ w_visited w' ∨ c ∈ w_to_visit w'.
Proof.
  intros Ha Hpop Hinv Hv n c Hn Hns Hc.
  destruct (dfs_visit_shape limit f body f_edges w tv node w' None Hv)
    as (Ha' & Hvis' & y & a & Hlog' & _ & Hstack').
  rewrite Hlog', skipped_app, skipped_new, not_elem_of_app in Hns.
  destruct Hns as [Hns Hnew].
  assert (∀ x, x ∈ tv → x ∈ w_to_visit w') as Htv.
  { intros x Hx. destruct Hstack' as [[-> _]|(_ & _ & ->)]; [done|].
    apply elem_of_app. by left. }
  rewrite Hvis' in Hn |- *. apply elem_of_app in Hn as [Hn|Hn].
  - destruct (Hinv n c Hn Hns Hc) as [Hin|Hin].
    + left. apply elem_of_app. by left.
    + rewrite Hpop in Hin. apply elem_of_app in Hin as [Hin|Hin]; [right; auto|].
      left. apply elem_of_app. by right.
  - apply list_elem_of_singleton in Hn as ->. right.
    destruct Hstack' as [[_ Habort]|(_ & _ & ->)].
    + rewrite Habort in Hnew by done. destruct Hnew. by left.
    + apply elem_of_app. right. rewrite sorted_reverse_elem.
      unfold succs in *. by rewrite Ha', Ha.
Qed.

Lemma visited_prefix_loop steps (w : walk A) w' st :
  dfs_loop limit f body steps w = (w', st) →
  w_visited w `prefix_of` w_visited w'.
Proof.
  revert w. induction steps as [|steps IH]; intros w; cbn.
  - destruct (pop (w_to_visit w)) as [[tv node]|]; by intros [= <- _].
  - destruct (pop (w_to_visit w)) as [[tv node]|]; [|by intros [= <- _]].
    destruct (dfs_visit limit f body w tv node) as [w1 [e|]] eqn:Hv.
    + intros [= <- _].
      destruct (dfs_visit_shape limit f body f_edges w tv node w1 (Some e) Hv)
        as (_ & -> & _).
      by apply prefix_app_r.
    + intros Hloop.
      destruct (dfs_visit_shape limit f body f_edges w tv node w1 None Hv)
        as (_ & Hvis1 & _).
      etrans; [|by apply IH]. rewrite Hvis1. by apply prefix_app_r.
Qed.

Lemma children_popped_loop steps (w : walk A) w' :
  adj (w_graph w) = adj g0 →
  (∀ n c, n ∈ w_visited w → n ∉ skipped (w_log w) → c ∈ succs g0 n →
          c ∈ w_visited w ∨ c ∈ w_to_visit w) →
  dfs_loop limit f body steps w = (w', Finished) →
  ∀ n c, n ∈ w_visited w' → n ∉ skipped (w_log w') → c ∈ succs g0 n →
         c ∈ w_visited w'.
Proof.
  revert w. induction steps as [|steps IH]; intros w Ha Hinv; cbn.
  - destruct (pop (w_to_visit w)) as [[tv node]|] eqn:Hpop; [done|].
    intros [= <-]. apply pop_None in Hpop.
    intros n c Hn Hns Hc. destruct (Hinv n c Hn Hns Hc) as [?|Hin]; [done|].
    rewrite Hpop in Hin. by apply elem_of_nil in Hin.
  - destruct (pop (w_to_visit w)) as [[tv node]|] eqn:Hpop.
    2:{ intros [= <-]. apply pop_None in Hpop.
        intros n c Hn Hns Hc. destruct (Hinv n c Hn Hns Hc) as [?|Hin]; [done|].
        rewrite Hpop in Hin. by apply elem_of_nil in Hin. }
    apply pop_Some in Hpop.
    destruct (dfs_visit limit f body w tv node) as [w1 [e|]] eqn:Hv; [done|].
    destruct (dfs_visit_shape limit f body f_edges w tv node w1 None Hv)
      as (Ha1 & _).
    apply IH; [congruence|]. by eapply children_popped_visit.
Qed.

Lemma first_popped steps g (acc : A) n w' :
  dfs_loop limit f body steps (mkWalk g [n] acc [] []) = (w', Finished) →
  head (w_visited w') = Some n.
Proof.
  destruct steps as [|steps]; [done|]. cbn.
  destruct (dfs_visit limit f body _ [] n) as [w1 [e|]] eqn:Hv; [done|].
  intros Hloop.
  destruct (dfs_visit_shape limit f body f_edges _ [] n w1 None Hv)
    as (_ & Hvis1 & _).
  apply visited_prefix_loop in Hloop as [k Hk]. rewrite Hk, Hvis1. done.
Qed.
End children.

(** C8: an iteration of [dfs] in which the callback asks for no skip
    pushes all the children of the node, in descending path order, on top
    of what was left of the stack; and in a traversal that goes through,
    the first node popped is ["."], the nodes are popped in strictly
    ascending path order, every child of a popped node that is not skipped
    is popped too, and the paths yielded are popped nodes in the order in
    which they were popped, so that of two siblings the smaller one is
    popped, and yielded, first. *)
Theorem children_ascending (manifest : list record) limit steps max lim :
  let g := sizes_to_graph manifest in
  let r := yield_zips limit steps g max lim in
  (∀ A (f : callback) (body : graph → Path → A → result A) (w : walk A)
     tv node g' y acc',
     f (w_graph w) node = Ok (g', (y, false)) →
     (if y then body g' node (w_acc w) else Ok (w_acc w)) = Ok acc' →
     is_Some (nodes g' !! node) →
     ∃ w', dfs_visit limit f body w tv node = (w', None) ∧
           w_to_visit w' = tv ++ sorted_reverse (succs g' node) ∧
           sorted_reverse (succs g' node) ≡ₚ succs g' node ∧
           StronglySorted (flip path_le) (sorted_reverse (succs g' node))) ∧
  (zr_traversal r = Finished →
   head (zr_visited r) = Some ROOT ∧
   StronglySorted path_lt (zr_visited r) ∧
   (∀ node c, node ∈ zr_visited r → Skipping node ∉ zr_log r →
              c ∈ succs g node → c ∈ zr_visited r) ∧
   (∀ a b, parent a = parent b → a ∈ zr_visited r → b ∈ zr_visited r →
           path_lt a b → occurs_before a b (zr_visited r)) ∧
   zr_zips r `sublist_of` zr_visited r ∧
   StronglySorted path_lt (zr_zips r) ∧
   (∀ a b, parent a = parent b → a ∈ zr_zips r → b ∈ zr_zips r →
           path_lt a b → occurs_before a b (zr_zips r))).
Proof.
  cbn zeta. split.
  { intros A f body w tv node g' y acc' Hf Hb Hn. eexists.
    split; [by apply dfs_visit_pushes|]. cbn.
    split; [done|]. split; [apply sorted_reverse_perm|].
    apply sorted_reverse_sorted. }
  set (g := sizes_to_graph manifest).
  pose proof (sizes_to_graph_inv manifest) as Htree. fold g in Htree.
  destruct (yield_zips_walk limit steps g max lim) as (-> & -> & -> & _ & ->).
  pose proof (zips_walk_inv limit steps g max lim Htree) as Hinv.
  destruct (zips_walk_yielded limit steps g max lim) as [Hsub _].
  intros Hfin.
  assert (head (w_visited (zips_walk limit steps g max lim).1) = Some ROOT ∧
          ∀ n c, n ∈ w_visited (zips_walk limit steps g max lim).1 →
                 n ∉ skipped (w_log (zips_walk limit steps g max lim).1) →
                 c ∈ succs g n →
                 c ∈ w_visited (zips_walk limit steps g max lim).1)
    as [Hhead Hchildren].
  { revert Hfin. rewrite zips_walk_unfold.
    destruct (node_descendants limit g ROOT) as [[g1 d]|e] eqn:Hd; [|done].
    destruct (dfs_loop _ _ _ _ _) as [w st] eqn:Hloop. cbn [fst snd].
    intros ->.
    split.
    - eapply (first_popped limit _ zips_body
                (yield_abort_if_keeps_edges limit max lim)), Hloop.
    - eapply (children_popped_loop limit _ zips_body
                (yield_abort_if_keeps_edges limit max lim) g); [| |exact Hloop].
      + cbn. by destruct (node_descendants_shape _ _ _ _ _ Hd) as [-> _].
      + intros n c Hn. by apply elem_of_nil in Hn. }
  set (w := (zips_walk limit steps g max lim).1) in *.
  assert ((w_acc w).1 `sublist_of` w_visited w) as Hzv.
  { etrans; [exact Hsub|]. apply Hinv. }
  assert (StronglySorted path_before (w_acc w).1) as Hzs.
  { eapply StronglySorted_sublist; [exact Hzv|]. apply Hinv. }
  pose proof (wi_visited_rel _ _ Hinv) as Hrel. rewrite Forall_forall in Hrel.
  split; [done|]. split.
  { eapply StronglySorted_impl; [apply path_before_lt|]. apply Hinv. }
  split.
  { intros node c Hn Hns Hc. eapply Hchildren; [done| |done].
    by rewrite elem_of_skipped. }
  split.
  { intros a b _ Ha Hb Hlt. apply sorted_occurs_before; [apply Hinv|done..|].
    split; [|split; [|done]]; by apply Hrel. }
  split; [done|]. split.
  { eapply StronglySorted_impl; [apply path_before_lt|done]. }
  intros a b _ Ha Hb Hlt. apply sorted_occurs_before; [done..|].
  split; [|split; [|done]]; apply Hrel; by eapply elem_of_sublist.
Qed.

Lemma children_ascending_witness :
  let g := sizes_to_graph example_manifest in
  let r := yield_zips 100 100 g 60 (PyInt 1) in
  let g' := graph_after 100 g (rel ["a"]) in
  zr_traversal r = Finished ∧
  zr_zips r = [rel ["a"; "x.txt"]; rel ["a"; "y.txt"]] ∧
  sorted_reverse (succs g' (rel ["a"]))
    = [rel ["a"; "y.txt"]; rel ["a"; "x.txt"]] ∧
  (∃ w', dfs_visit 100 (yield_abort_if 100 60 (PyInt 1)) idle_body
           example_walk [rel ["b"]] (rel ["a"]) = (w', None) ∧
         w_to_visit w' = [rel ["b"]] ++ sorted_reverse (succs g' (rel ["a"])) ∧
         sorted_reverse (succs g' (rel ["a"])) ≡ₚ succs g' (rel ["a"]) ∧
         StronglySorted (flip path_le) (sorted_reverse (succs g' (rel ["a"])))) ∧
  head (zr_visited r) = Some ROOT ∧
  StronglySorted path_lt (zr_visited r) ∧
  (∀ node c, node ∈ zr_visited r → Skipping node ∉ zr_log r →
             c ∈ succs g node → c ∈ zr_visited r) ∧
  (∀ a b, parent a = parent b → a ∈ zr_visited r → b ∈ zr_visited r →
          path_lt a b → occurs_before a b (zr_visited r)) ∧
  zr_zips r `sublist_of` zr_visited r ∧
  StronglySorted path_lt (zr_zips r) ∧
  (∀ a b, parent a = parent b → a ∈ zr_zips r → b ∈ zr_zips r →
          path_lt a b → occurs_before a b (zr_zips r)).
Proof.
  cbn zeta.
  destruct (children_ascending example_manifest 100 100 60 (PyInt 1))
    as [Hstep Hrun].
  split; [by vm_compute|]. split; [by vm_compute|]. split; [by vm_compute|].
  split.
  - apply (Hstep unit (yield_abort_if 100 60 (PyInt 1)) idle_body example_walk
             [rel ["b"]] (rel ["a"])
             (graph_after 100 (sizes_to_graph example_manifest) (rel ["a"]))
             false tt).
    + by vm_compute.
    + reflexivity.
    + vm_compute. eauto.
  - apply Hrun. by vm_compute.
Defined.

(** ** What was decided about the nodes that were popped *)

Lemma attrs_sim_sym a b : attrs_sim a b → attrs_sim b a.
Proof.
  intros (Hs & Hd & Hn). split; [done|]. split; [|done].
  intros Ht. symmetry. apply Hd. by rewrite Hs.
Qed.

Lemma similar_sym g1 g2 : similar g1 g2 → similar g2 g1.
Proof.
  intros [Ha H]. split; [done|]. intros m. specialize (H m).
  destruct (nodes g1 !! m), (nodes g2 !! m); try done. by apply attrs_sim_sym.
Qed.

Lemma similar_attrs g1 g2 n s d :
  similar g1 g2 → nodes g1 !! n = Some (mkAttrs (Some s) (Some d)) →
  ∃ d2, nodes g2 !! n = Some (mkAttrs (Some s) (Some d2)) ∧ (s ≠ 0 → d2 = d).
Proof.
  intros [_ H] Hn. specialize (H n). rewrite Hn in H.
  destruct (nodes g2 !! n) as [[s2 d2]|]; [|done].
  destruct H as (Hs & Hd & Hnone). cbn in *. subst s2.
  destruct d2 as [d2|]; [|discriminate (proj2 Hnone eq_refl)].
  exists d2. split; [done|]. intros Hs.
  assert (Some d = Some d2) as [= ->]; [|done].
  apply Hd. by apply bool_decide_eq_true.
Qed.

Lemma low_density_nonzero lim d s : low_density lim d s = true → s ≠ 0.
Proof.
  unfold low_density. intros H ->.
  destruct (density_zero_raises d) as [e He]. by rewrite He in H.
Qed.

Section decisions.
Variable g0 : graph.
Hypothesis Htree : tree_inv g0.
Variables (limit : nat) (max : Z) (lim : number).

Lemma zips_visit_decisions (w : walk (list Path * counters)) tv node w' :
  walk_inv g0 w → w_to_visit w = tv ++ [node] →
  settled_below (w_graph w) ROOT →
  (∀ n, n ∈ w_visited w →
     ∃ sz d, nodes (w_graph w) !! n = Some (mkAttrs (Some sz) (Some d)) ∧
             (n ∈ yielded (w_log w) ↔ sz < max) ∧
             (n ∈ skipped (w_log w) → n ∉ yielded (w_log w) →
              low_density lim d sz = true)) →
  dfs_visit limit (yield_abort_if limit max lim) zips_body w tv node
    = (w', None) →
  ∀ n, n ∈ w_visited w' →
    ∃ sz d, nodes (w_graph w') !! n = Some (mkAttrs (Some sz) (Some d)) ∧
            (n ∈ yielded (w_log w') ↔ sz < max) ∧
            (n ∈ skipped (w_log w') → n ∉ yielded (w_log w') →
             low_density lim d sz = true).
Proof.
  intros Hinv Hstack Hset Hdec Hv n Hn.
  pose proof (wi_adj _ _ Hinv) as Ha.
  assert (relative node) as Hrel.
  { pose proof (wi_stack_rel _ _ Hinv) as Hr. rewrite Hstack in Hr.
    apply Forall_app in Hr as [_ Hr]. by rewrite Forall_singleton in Hr. }
  assert (node ∉ w_visited w) as Hfresh.
  { intros Hin. apply (path_before_irrefl node), (wi_order _ _ Hinv); [done|].
    rewrite Hstack. apply elem_of_app. right. by left. }
  destruct (dfs_visit_called _ _ _ _ _ _ _ _ Hv) as (ga & s & d & Hsd).
  destruct (size_descendants_settled g0 Htree _ _ _ _ _ _ Ha
              (settled_below_root _ _ Hrel Hset) Hsd) as [_ Hsim1].
  destruct (zips_visit_similar g0 Htree limit max lim w w tv node w' Hinv Hstack
              Hset (similar_refl _) eq_refl eq_refl Hv)
    as (_ & _ & _ & _ & _ & _ & Hstep).
  destruct (dfs_visit_spec _ _ _ _ _ _ _ _ _ _ _ Hsd Hv) as (Hlog & _ & _ & Hvis).
  rewrite Hlog, yielded_app, yielded_new, skipped_app, skipped_new.
  rewrite Hvis in Hn. apply elem_of_app in Hn as [Hn|Hn].
  - destruct (Hdec n Hn) as (sz & dn & Hattr & Hy & Hlow).
    destruct (similar_attrs _ _ n sz dn Hstep Hattr) as (d2 & Hattr' & Hd2).
    assert (n ≠ node) as Hne by (by intros ->).
    exists sz, d2. split; [done|]. split.
    + rewrite <- Hy. rewrite elem_of_app. split; [|by left].
      intros [?|Hnew]; [done|]. destruct (bool_decide (s < max)).
      * by apply list_elem_of_singleton in Hnew.
      * by apply elem_of_nil in Hnew.
    + rewrite !elem_of_app. intros Hsk Hny.
      assert (n ∈ skipped (w_log w)) as Hsk'.
      { destruct Hsk as [?|Hnew]; [done|].
        destruct (_ || _); [by apply list_elem_of_singleton in Hnew
                           | by apply elem_of_nil in Hnew]. }
      assert (low_density lim dn sz = true) as Hl.
      { apply Hlow; [done|]. intros Hin. apply Hny. by left. }
      by rewrite (Hd2 (low_density_nonzero _ _ _ Hl)).
  - apply list_elem_of_singleton in Hn as ->.
    pose proof (size_descendants_returned _ _ _ _ _ _ Hsd) as Hret.
    destruct (similar_attrs _ _ node s d (similar_sym _ _ Hsim1) Hret)
      as (d1 & Hattr1 & Hd1).
    destruct (similar_attrs _ _ node s d1 Hstep Hattr1) as (d2 & Hattr2 & Hd2).
    exists s, d2. split; [done|].
    assert (node ∉ yielded (w_log w)) as Hny.
    { intros Hin. apply Hfresh. by eapply elem_of_sublist, (wi_yielded _ _ Hinv). }
    split.
    + rewrite elem_of_app. split.
      * intros [?|Hnew]; [done|].
        destruct (bool_decide (s < max)) eqn:Hlt;
          [by apply bool_decide_eq_true in Hlt | by apply elem_of_nil in Hnew].
      * intros Hlt. right. rewrite bool_decide_eq_true_2 by done. by left.
    + rewrite !elem_of_app. intros Hsk Hnew.
      destruct (bool_decide (s < max)) eqn:Hlt.
      { destruct Hnew. right. by left. }
      cbn in Hsk. destruct (low_density lim d s) eqn:Hl.
      * pose proof (low_density_nonzero _ _ _ Hl) as Hs0.
        by rewrite (Hd2 Hs0), (Hd1 Hs0).
      * destruct Hsk as [Hsk|Hsk]; [|by apply elem_of_nil in Hsk].
        destruct Hfresh. by eapply elem_of_sublist, (wi_skipped _ _ Hinv).
Qed.

Lemma zips_loop_decisions steps (w : walk (list Path * counters)) w' :
  walk_inv g0 w → settled_below (w_graph w) ROOT →
  (∀ n, n ∈ w_visited w →
     ∃ sz d, nodes (w_graph w) !! n = Some (mkAttrs (Some sz) (Some d)) ∧
             (n ∈ yielded (w_log w) ↔ sz < max) ∧
             (n ∈ skipped (w_log w) → n ∉ yielded (w_log w) →
              low_density lim d sz = true)) →
  dfs_loop limit (yield_abort_if limit max lim) zips_body steps w
    = (w', Finished) →
  ∀ n, n ∈ w_visited w' →
    ∃ sz d, nodes (w_graph w') !! n = Some (mkAttrs (Some sz) (Some d)) ∧
            (n ∈ yielded (w_log w') ↔ sz < max) ∧
            (n ∈ skipped (w_log w') → n ∉ yielded (w_log w') →
             low_density lim d sz = true).
Proof.
  revert w. induction steps as [|steps IH]; intros w Hinv Hset Hdec; cbn.
  - destruct (pop (w_to_visit w)) as [[tv node]|]; [done|]. by intros [= <-].
  - destruct (pop (w_to_visit w)) as [[tv node]|] eqn:Hpop;
      [|by intros [= <-]].
    apply pop_Some in Hpop.
    destruct (dfs_visit _ _ _ w tv node) as [wa [e|]] eqn:Hv; [done|].
    apply IH.
    + eapply walk_inv_visit; [apply yield_abort_if_keeps_edges|done..].
    + destruct (zips_visit_similar g0 Htree limit max lim w w tv node wa Hinv
                  Hpop Hset (similar_refl _) eq_refl eq_refl Hv)
        as (_ & _ & _ & _ & _ & _ & Hstep).
      by eapply similar_settled.
    + by eapply zips_visit_decisions.
Qed.
End decisions.

(** C1 (as amended): for any manifest and a positive density threshold,
    when the traversal finishes the subtrees that were skipped are
    pairwise disjoint and every leaf of the tree below ["."] lies in
    exactly one of them; the paths yielded are among the roots of these
    subtrees, so no leaf lies under two yielded roots, and a leaf lies
    under no yielded root exactly when the subtree that holds it was
    skipped without being yielded; and when the manifest lists files
    only, the root of a skipped subtree was yielded exactly when the size
    stored on it is below [max_zip_bytes], and, when it was not yielded,
    its density is below the threshold. *)
Theorem skipped_partition (manifest : list record) limit steps max lim :
  let g := sizes_to_graph manifest in
  let r := yield_zips limit steps g max lim in
  positive_limit lim →
  zr_traversal r = Finished →
  incomparable (skipped (zr_log r)) ∧
  NoDup (skipped (zr_log r)) ∧
  zr_zips r = yielded (zr_log r) ∧
  (∀ z, z ∈ zr_zips r → z ∈ skipped (zr_log r)) ∧
  (∀ x, is_Some (nodes g !! x) → succs g x = [] → relative x →
     ∃ s, s ∈ skipped (zr_log r) ∧ below s x ∧
          (∀ s', s' ∈ skipped (zr_log r) → below s' x → s' = s) ∧
          (∀ z, z ∈ zr_zips r → below z x → z = s)) ∧
  (records_are_leaves manifest.*1 →
   ∀ s, s ∈ skipped (zr_log r) →
     ∃ sz d, nodes (zr_graph r) !! s = Some (mkAttrs (Some sz) (Some d)) ∧
             (s ∈ zr_zips r ↔ sz < max) ∧
             (s ∉ zr_zips r → max ≤ sz ∧ low_density lim d sz = true)).
Proof.
  cbn zeta.
  destruct (yield_zips_walk limit steps (sizes_to_graph manifest) max lim)
    as (-> & -> & _ & -> & ->).
  intros Hlim Hfin.
  pose proof (sizes_to_graph_inv manifest) as Htree.
  pose proof (zips_walk_inv limit steps _ max lim Htree) as Hinv.
  destruct (zips_walk_yielded limit steps (sizes_to_graph manifest) max lim)
    as [_ Heq].
  destruct (zips_walk_partition limit steps _ max lim Hlim Htree Hfin)
    as [[_ Hcov Hleaves Hyield] Hstack].
  assert (records_are_leaves manifest.*1 →
          ∀ n, n ∈ w_visited (zips_walk limit steps (sizes_to_graph manifest)
                                max lim).1 →
            ∃ sz d,
              nodes (w_graph (zips_walk limit steps (sizes_to_graph manifest)
                                max lim).1) !! n
                = Some (mkAttrs (Some sz) (Some d)) ∧
              (n ∈ yielded (w_log (zips_walk limit steps
                                     (sizes_to_graph manifest) max lim).1)
               ↔ sz < max) ∧
              (n ∈ skipped (w_log (zips_walk limit steps
                                     (sizes_to_graph manifest) max lim).1) →
               n ∉ yielded (w_log (zips_walk limit steps
                                     (sizes_to_graph manifest) max lim).1) →
               low_density lim d sz = true)) as Hdecided.
  { intros Hfiles.
    destruct (zips_walk limit steps (sizes_to_graph manifest) max lim)
      as [w0 st0] eqn:Hrun.
    cbn [fst snd] in *. subst st0.
    destruct (zips_walk_settled manifest limit steps max lim w0 Hfiles Hrun)
      as (gA & dA & _ & Hloop & HaA & _ & HsetA & _).
    eapply (zips_loop_decisions _ Htree limit max lim steps); [| | |exact Hloop].
    - by apply walk_inv_init.
    - done.
    - intros n Hn. by apply elem_of_nil in Hn. }
  set (w := (zips_walk limit steps (sizes_to_graph manifest) max lim).1) in *.
  assert (incomparable (skipped (w_log w))) as Hinc.
  { eapply incomparable_subseteq; [|apply Hinv]. intros x Hx.
    apply elem_of_app. by right. }
  assert ((w_acc w).1 = yielded (w_log w)) as Hz.
  { apply Heq. intros e. by rewrite Hfin. }
  split; [done|]. split.
  { apply StronglySorted_NoDup. eapply StronglySorted_sublist; apply Hinv. }
  split; [done|]. split.
  { intros z. rewrite Hz. apply Hyield. }
  split.
  - intros x Hx Hsx Hrel.
    destruct (sizes_to_graph_leaf manifest x Hx Hsx) as [sz Hleaf].
    assert (rtc (edge (sizes_to_graph manifest)) ROOT x) as Hreach.
    { pose proof (tree_inv_reachable _ x Htree Hx) as Hr.
      unfold root_of in Hr. by rewrite Hrel in Hr. }
    assert (∃ s, s ∈ skipped (w_log w) ∧ below s x) as (s & Hs & Hb).
    { destruct (Hcov x Hreach) as [(s & Hs & Hr)|[Hv Hns]].
      - rewrite Hstack in Hs. exists s. split; [done|]. by eapply rtc_edge_below.
      - destruct Hns. by eapply Hleaves. }
    assert (∀ s', s' ∈ skipped (w_log w) → below s' x → s' = s) as Huniq.
    { intros s' Hs' Hb'. destruct (below_comparable _ _ _ Hb Hb') as [?|?].
      - symmetry. by apply Hinc.
      - by apply Hinc. }
    exists s. split; [done|]. split; [done|]. split; [done|].
    intros z Hzin. apply Huniq. rewrite Hz in Hzin. by apply Hyield.
  - intros Hfiles s Hs.
    destruct (Hdecided Hfiles s) as (sz & d & Hattr & Hy & Hlow).
    { by eapply elem_of_sublist, (wi_skipped _ _ Hinv). }
    exists sz, d. split; [done|]. rewrite Hz. split; [done|].
    intros Hny. split; [|by apply Hlow].
    destruct (decide (sz < max)) as [Hlt|?]; [|lia].
    destruct Hny. by apply Hy.
Qed.

Lemma skipped_partition_witness :
  let g := sizes_to_graph example_manifest in
  let r := yield_zips 100 100 g 1000 (PyInt 1) in
  zr_zips r = [rel ["a"]] ∧
  skipped (zr_log r) = [rel ["a"]; rel ["b"; "z.txt"]] ∧
  incomparable (skipped (zr_log r)) ∧
  NoDup (skipped (zr_log r)) ∧
  zr_zips r = yielded (zr_log r) ∧
  (∀ z, z ∈ zr_zips r → z ∈ skipped (zr_log r)) ∧
  (∀ x, is_Some (nodes g !! x) → succs g x = [] → relative x →
     ∃ s, s ∈ skipped (zr_log r) ∧ below s x ∧
          (∀ s', s' ∈ skipped (zr_log r) → below s' x → s' = s) ∧
          (∀ z, z ∈ zr_zips r → below z x → z = s)) ∧
  (∀ s, s ∈ skipped (zr_log r) →
     ∃ sz d, nodes (zr_graph r) !! s = Some (mkAttrs (Some sz) (Some d)) ∧
             (s ∈ zr_zips r ↔ sz < 1000) ∧
             (s ∉ zr_zips r → 1000 ≤ sz ∧ low_density (PyInt 1) d sz = true)).
Proof.
  cbn zeta. split; [by vm_compute|]. split; [by vm_compute|].
  destruct (skipped_partition example_manifest 100 100 1000 (PyInt 1))
    as (H1 & H2 & H3 & H4 & H5 & H6).
  - reflexivity.
  - vm_compute. reflexivity.
  - do 5 (split; [assumption|]). apply H6.
    apply records_are_leaves_dec. apply (bool_decide_unpack _). vm_compute.
    exact I.
Defined.

(** ** The totals that the first call computes *)

Section totals.
Variable g0 : graph.
Hypothesis Htree : tree_inv g0.
Hypothesis Hfiles : files_only g0.

Lemma sum_children_totals (rec : graph → Path → result (graph * (Z * Z))) n :
  (∀ g c g' s d, adj g = adj g0 → fresh_below g0 g c →
     rec g c = Ok (g', (s, d)) →
     s = subtree_size g0 c ∧ d = subtree_nodes g0 c - 1 ∧ adj g' = adj g ∧
     (∀ m, ¬ below c m → nodes g' !! m = nodes g !! m)) →
  ∀ l g s d g' s' d',
    adj g = adj g0 → NoDup l →
    (∀ c, c ∈ l → tail c ≠ [] ∧ n = parent c) →
    (∀ c, c ∈ l → fresh_below g0 g c) →
    sum_children rec g l s d = Ok (g', (s', d')) →
    s' = s + sum_over (subtree_size g0) l ∧
    d' = d + sum_over (subtree_nodes g0) l.
Proof.
  intros Hrec l.
  induction l as [|c l IH]; intros g s d g' s' d' Ha Hnd Hsib Hfresh.
  - cbn. intros [= -> -> ->]. unfold sum_over. cbn. lia.
  - cbn. destruct (rec g c) as [[g1 [cs cd]]|e] eqn:Hc; [|done]. cbn.
    intros H. apply NoDup_cons in Hnd as [Hcl Hnd].
    destruct (Hsib c (list_elem_of_here _ _)) as [Hct Hcp].
    destruct (Hrec _ _ _ _ _ Ha (Hfresh c (list_elem_of_here _ _)) Hc)
      as (-> & -> & Ha1 & Hf1).
    apply IH in H as [-> ->]; try done.
    + unfold sum_over. cbn. lia.
    + congruence.
    + intros c' Hc'. apply Hsib. by right.
    + intros c' Hc' m Hb. rewrite Hf1; [apply (Hfresh c'); [by right|done]|].
      intros Hb'. destruct (Hsib c') as [Hct' Hcp']; [by right|].
      assert (c = c') as -> by (eapply siblings_disjoint; [..|done|done];
                                  congruence).
      done.
Qed.

Lemma size_descendants_totals limit g n g' s d :
  adj g = adj g0 → fresh_below g0 g n →
  size_descendants limit g n = Ok (g', (s, d)) →
  s = subtree_size g0 n ∧ d = subtree_nodes g0 n - 1.
Proof.
  revert g n g' s d.
  induction limit as [|limit IH]; intros g n g' s d Ha Hfresh H; [done|].
  assert (succs g n = succs g0 n) as E by (unfold succs; by rewrite Ha).
  pose proof (Hfresh n (below_refl n)) as Hn0.
  destruct (nodes g !! n) as [data|] eqn:Hn; [|by cbn in H; rewrite Hn in H].
  symmetry in Hn0.
  assert (is_Some (nodes g0 !! n)) as Hnode by eauto.
  unfold subtree_size, subtree_nodes.
  rewrite !(subtree_sum_children g0 _ n Htree Hnode).
  change (subtree_sum g0 (csize g0)) with (subtree_size g0).
  change (subtree_sum g0 (λ _, 1)) with (subtree_nodes g0).
  destruct (Hfiles n data Hn0) as [->|[[sz ->] Hleaf]].
  - cbn in H. rewrite Hn in H. cbn in H.
    unfold successors in H. rewrite (proj2 (has_node_true g n)) in H by eauto.
    cbn in H.
    destruct (sum_children _ _ _ _ _) as [[g1 [s1 d1]]|e] eqn:Hs; [|done].
    cbn in H. injection H as <- <- <-.
    apply (sum_children_totals _ n) in Hs as [-> ->]; try done.
    + assert (csize g0 n = 0) as -> by (unfold csize; by rewrite Hn0).
      rewrite E. unfold or_zero. cbn. lia.
    + intros g2 c g2' s2 d2 Ha2 Hf2 Hc.
      destruct (IH _ _ _ _ _ Ha2 Hf2 Hc) as [-> ->].
      destruct (size_descendants_frame g0 limit g2 c g2' _ Htree Ha2 Hc)
        as [Ha3 Hf3].
      done.
    + rewrite E. apply (inv_nodup _ _ Htree).
    + intros c Hc. rewrite E in Hc. apply (inv_edge _ _ Htree n c Hc).
    + intros c Hc m Hb. apply Hfresh.
      destruct (child_below g0 g n c Htree Ha Hc) as [Hnc _].
      by eapply below_trans.
  - rewrite (size_descendants_leaf limit g n sz) in H by (split; congruence).
    injection H as <- <- <-.
    assert (csize g0 n = sz) as -> by (unfold csize; by rewrite Hn0).
    rewrite Hleaf. unfold sum_over. cbn. lia.
Qed.
End totals.



(** ** The totals of the root and the totals of the build *)

Lemma pair_sum_perm (l k : list (Path * attrs)) :
  l ≡ₚ k →
  foldr (λ xa acc, default 0 (attr_size xa.2) + acc) 0 l
  = foldr (λ xa acc, default 0 (attr_size xa.2) + acc) 0 k.
Proof. induction 1; cbn; lia. Qed.

Lemma size_sum_insert ns p a :
  ns !! p = None → size_sum (<[p:=a]> ns) = default 0 (attr_size a) + size_sum ns.
Proof.
  intros Hp. unfold size_sum.
  by rewrite (pair_sum_perm _ _ (map_to_list_insert ns p a Hp)).
Qed.

Lemma size_sum_ensure_node ns n : size_sum (ensure_node ns n) = size_sum ns.
Proof.
  unfold ensure_node. destruct (ns !! n) eqn:Hn; [done|].
  by rewrite size_sum_insert.
Qed.

Lemma size_sum_link_parents g td c ps :
  size_sum (nodes (link_parents g td c ps).1) = size_sum (nodes g).
Proof.
  revert g td c. induction ps as [|p ps IH]; intros g td c; [done|].
  assert (size_sum (nodes (add_edge g p c)) = size_sum (nodes g)) as Hstep
    by (cbn; by rewrite !size_sum_ensure_node).
  cbn [link_parents]. destruct (has_node g p); [done|]. by rewrite IH.
Qed.

Lemma add_record_size_sum st r :
  nodes st.1.1 !! r.1 = None →
  size_sum (nodes (add_record st r).1.1) - (add_record st r).1.2
  = size_sum (nodes st.1.1) - st.1.2.
Proof.
  destruct st as [[g ts] td], r as [p sz]. cbn. intros Hp.
  pose proof (size_sum_link_parents (add_node g p sz) (td + 1) p (parents p)) as H.
  destruct (link_parents _ _ _ _) as [g' td']. cbn in *.
  rewrite H, size_sum_insert by done. cbn. lia.
Qed.

Lemma foldl_add_record_size_sum m st :
  no_later_ancestor m.*1 →
  (∀ w q, is_Some (nodes st.1.1 !! w) → q ∈ m.*1 → q ≠ w) →
  size_sum (nodes (foldl add_record st m).1.1) - (foldl add_record st m).1.2
  = size_sum (nodes st.1.1) - st.1.2.
Proof.
  revert st. induction m as [|r m IH]; intros st Hfresh Hst; [done|].
  cbn in Hfresh. destruct Hfresh as [Hr Hfresh]. cbn [foldl].
  trans (size_sum (nodes (add_record st r).1.1) - (add_record st r).1.2).
  - apply IH; [done|]. intros w q Hw Hq.
    apply add_record_nodes in Hw as [Hw|Hw].
    + apply Hst; [done|]. rewrite fmap_cons. by right.
    + rewrite Forall_forall in Hr. intros ->. by eapply Hr.
  - apply add_record_size_sum. apply eq_None_not_Some. intros Hs.
    eapply (Hst r.1 r.1); [done| |done]. rewrite fmap_cons. by left.
Qed.

Lemma size_sum_keys (g : graph) (l : list (Path * attrs)) :
  Forall (λ xa, nodes g !! xa.1 = Some xa.2) l →
  foldr (λ xa acc, default 0 (attr_size xa.2) + acc) 0 l
  = sum_over (csize g) l.*1.
Proof.
  unfold sum_over. induction l as [|[x a] l IH]; intros Hall; [done|].
  apply Forall_cons in Hall as [Hx Hall]. cbn in Hx.
  rewrite fmap_cons. cbn [foldr fst snd]. rewrite IH by done.
  f_equal. unfold csize. by rewrite Hx.
Qed.

Lemma sum_below_all l wt n :
  Forall (below n) l → sum_below l wt n = sum_over wt l.
Proof.
  unfold sum_below, sum_over. induction l as [|x l IH]; intros Hall; [done|].
  apply Forall_cons in Hall as [Hx Hall]. cbn.
  by rewrite IH, bool_decide_eq_true_2.
Qed.

Lemma sum_over_one (l : list Path) : sum_over (λ _, 1) l = Z.of_nat (length l).
Proof. unfold sum_over. induction l as [|x l IH]; cbn; lia. Qed.

Lemma no_later_ancestor_leaves ps :
  records_are_leaves ps → NoDup ps → no_later_ancestor ps.
Proof.
  induction ps as [|p ps IH]; intros Hl Hnd; [done|].
  apply NoDup_cons in Hnd as [Hp Hnd]. split.
  - apply Forall_forall. intros q Hq Hb.
    assert (q = p) as -> by (apply Hl; [by right|by left|done]). done.
  - apply IH; [|done]. intros a b Ha Hb. apply Hl; by right.
Qed.

(** X20: for a manifest of files with distinct relative paths, what the
    first call of [size_descendants] on ["."] returns is what the build
    stored on the graph: [total_size] and [total_descendants]. *)
Theorem root_totals (manifest : list record) limit g' s d :
  let g := sizes_to_graph manifest in
  records_are_leaves manifest.*1 → NoDup manifest.*1 →
  (∀ r, r ∈ manifest → relative r.1) →
  size_descendants limit g ROOT = Ok (g', (s, d)) →
  graph_attrs g !! "total_size" = Some s ∧
  graph_attrs g !! "total_descendants" = Some d.
Proof.
  cbn zeta. intros Hleaves Hnd Hrel Hcall.
  set (g := sizes_to_graph manifest) in *.
  pose proof (no_later_ancestor_leaves _ Hleaves Hnd) as Hfresh.
  destruct (size_descendants_totals g (sizes_to_graph_inv manifest)
              (sizes_to_graph_files_only manifest Hleaves) limit g ROOT g' s d
              eq_refl (λ m _, eq_refl) Hcall) as [-> ->].
  assert (Forall (below ROOT) (map_to_list (nodes g)).*1) as Hall.
  { apply Forall_forall. intros x Hx.
    apply list_elem_of_fmap in Hx as ([y a] & -> & Hy).
    apply elem_of_map_to_list in Hy. cbn.
    destruct (sizes_to_graph_nodes_below manifest y) as (r & Hin & [Hr _]);
      [by eauto|].
    split; [|apply prefix_nil]. cbn. rewrite Hr. symmetry. by apply Hrel. }
  unfold subtree_size, subtree_nodes, subtree_sum.
  rewrite !sum_below_all, sum_over_one, length_fmap, length_map_to_list by done.
  rewrite <- (size_sum_keys g).
  2:{ apply Forall_forall. intros [x a] Hx. by apply elem_of_map_to_list in Hx. }
  fold (size_sum (nodes g)).
  pose proof (foldl_add_record_total_size manifest (empty_graph, 0, 0)) as Hts.
  pose proof (foldl_add_record_count manifest (empty_graph, 0, 0) Hfresh) as Htd.
  pose proof (foldl_add_record_size_sum manifest (empty_graph, 0, 0) Hfresh)
    as Hss.
  subst g. rewrite sizes_to_graph_nodes. unfold sizes_to_graph, build in *.
  destruct (foldl add_record (empty_graph, 0, 0) manifest) as [[g ts] td].
  cbn in *.
  assert (∀ w q : Path, is_Some ((∅ : gmap Path attrs) !! w) →
                        q ∈ manifest.*1 → q ≠ w) as Hempty.
  { intros w q [a Ha]. by rewrite lookup_empty in Ha. }
  specialize (Htd Hempty). specialize (Hss Hempty).
  rewrite map_size_empty in Htd. unfold size_sum in Hss at 2.
  rewrite map_to_list_empty in Hss. cbn in Hss. split.
  - rewrite lookup_insert_ne by done. rewrite lookup_insert_eq. f_equal. lia.
  - rewrite lookup_insert_eq. f_equal. lia.
Qed.

Lemma root_totals_witness :
  let g := sizes_to_graph example_manifest in
  size_descendants 10 g ROOT = Ok (graph_after 10 g ROOT, (1000000000100, 5)) ∧
  graph_attrs g !! "total_size" = Some 1000000000100 ∧
  graph_attrs g !! "total_descendants" = Some 5.
Proof.
  cbn zeta. split; [by vm_compute|].
  apply (root_totals example_manifest 10
           (graph_after 10 (sizes_to_graph example_manifest) ROOT)).
  - apply records_are_leaves_dec. apply (bool_decide_unpack _). vm_compute.
    exact I.
  - apply (bool_decide_unpack _). vm_compute. exact I.
  - intros r Hr. repeat (apply elem_of_cons in Hr as [->|Hr]; [reflexivity|]).
    by apply elem_of_nil in Hr.
  - by vm_compute.
Defined.

(** ** Runs in a row *)



